(** * CRM data generator: dependency resolution, table-spec parsing,
      generators and the execution driver of [generate_data.py]

    The development follows the Python module top-down: the schema
    descriptor, [resolve_dependencies], [parse_table_spec], the eight
    generators and the body of [main].  Python sets and id-keyed
    dictionaries are finite sets and maps; loops that the interpreter may
    run for ever take a fuel argument and report when it runs out. *)

From Stdlib Require Import ZArith Ascii String DecimalString.
From Stdlib Require DecimalNat DecimalFacts.
From stdpp Require Import gmap strings list.

Open Scope string_scope.
Open Scope list_scope.
Open Scope Z_scope.
Open Scope nat_scope.
Open Scope stdpp_scope.

(** ** Schema descriptor *)

Definition DEFAULT_COUNTS : gmap string Z :=
  list_to_map
    [ ("companies", 100%Z); ("contacts", 500%Z); ("deals", 200%Z);
      ("products", 50%Z); ("deal_products", 300%Z); ("activities", 400%Z);
      ("notes", 300%Z); ("tasks", 150%Z) ].

Definition ALL_TABLES : list string :=
  [ "companies"; "contacts"; "deals"; "products"; "deal_products";
    "activities"; "notes"; "tasks" ].

Definition TABLE_DEPENDENCIES : gmap string (list string) :=
  list_to_map
    [ ("companies", []);
      ("contacts", ["companies"]);
      ("deals", ["companies"; "contacts"]);
      ("products", []);
      ("deal_products", ["deals"; "products"]);
      ("activities", ["contacts"]);
      ("notes", ["contacts"]);
      ("tasks", ["deals"]) ].

(** [TABLE_DEPENDENCIES.get(table, [])] *)
Definition table_deps (table : string) : list string :=
  default [] (TABLE_DEPENDENCIES !! table).

(** ** Dependency resolver *)

Module Resolver.
Section Graph.
(** The enumeration scanned by the ordering loop and the dependency
    lookup; [resolve_dependencies] below instantiates them with
    [ALL_TABLES] and [table_deps]. *)
Variable enum : list string.
Variable deps_of : string → list string.

(** [if dep not in to_generate: to_generate.add(dep); added = True] *)
Definition add_dep (st : gset string * bool) (dep : string)
  : gset string * bool :=
  if bool_decide (dep ∈ st.1) then st else ({[dep]} ∪ st.1, true).

(** Inner loop [for dep in TABLE_DEPENDENCIES.get(table, [])]. *)
Definition add_deps (acc : gset string * bool) (table : string)
  : gset string * bool :=
  foldl add_dep acc (deps_of table).

(** One run of [for table in list(to_generate)], over a snapshot. *)
Definition closure_pass_over (snapshot : list string) (s : gset string)
  : gset string * bool :=
  foldl add_deps (s, false) snapshot.

Definition closure_pass (s : gset string) : gset string * bool :=
  closure_pass_over (elements s) s.

(** [added = True; while added: added = False; ...] *)
Fixpoint closure_loop (fuel : nat) (s : gset string) : option (gset string) :=
  match fuel with
  | O => None
  | S fuel' =>
      let '(s', added) := closure_pass s in
      if added then closure_loop fuel' s' else Some s'
  end.

(** [all(d in ordered or d not in to_generate for d in deps)] *)
Definition deps_placed (ordered : list string) (to_generate : gset string)
    (table : string) : bool :=
  forallb (λ d, bool_decide (d ∈ ordered) || negb (bool_decide (d ∈ to_generate)))
          (deps_of table).

(** The [for table in ALL_TABLES] scan with its [break]. *)
Fixpoint order_scan (tables : list string) (to_generate : gset string)
    (ordered : list string) (remaining : gset string)
  : list string * gset string :=
  match tables with
  | [] => (ordered, remaining)
  | table :: rest =>
      if bool_decide (table ∈ remaining) && deps_placed ordered to_generate table
      then (ordered ++ [table], remaining ∖ {[table]})
      else order_scan rest to_generate ordered remaining
  end.

(** [while remaining: ...] *)
Fixpoint order_loop (fuel : nat) (to_generate : gset string)
    (ordered : list string) (remaining : gset string) : option (list string) :=
  match fuel with
  | O => None
  | S fuel' =>
      if bool_decide (remaining = ∅) then Some ordered
      else
        let '(ordered', remaining') :=
          order_scan enum to_generate ordered remaining in
        order_loop fuel' to_generate ordered' remaining'
  end.

(** [None] means that one of the two [while] loops was still running
    after [fuel] iterations. *)
Definition resolve (fuel : nat) (tables : list string) (include_deps : bool)
  : option (list string) :=
  if negb include_deps then Some tables
  else
    match closure_loop fuel (list_to_set tables) with
    | None => None
    | Some to_generate => order_loop fuel to_generate [] to_generate
    end.

(** Specification side: [t] is reachable from a requested table along
    dependency edges. *)
Definition depends_on (a b : string) : Prop := b ∈ deps_of a.

Definition reachable_from (s : gset string) (t : string) : Prop :=
  ∃ r, r ∈ s ∧ rtc depends_on r t.

Definition in_closure (requested : list string) (t : string) : Prop :=
  ∃ r, r ∈ requested ∧ rtc depends_on r t.

(** Every dependency of [t] that is in [plan] occurs at a smaller index. *)
Definition deps_first (plan : list string) : Prop :=
  ∀ i t d, plan !! i = Some t → d ∈ deps_of t → d ∈ plan →
           ∃ j, j < i ∧ plan !! j = Some d.
End Graph.
End Resolver.

Definition resolve_dependencies (fuel : nat) (tables : list string)
    (include_deps : bool) : option (list string) :=
  Resolver.resolve ALL_TABLES table_deps fuel tables include_deps.

(** ** Strings

    A character is a code point below 256; [str.isspace], [str.lower] and
    [str.upper] are given on that range. *)

Definition is_space (c : ascii) : bool :=
  let n := nat_of_ascii c in
  ((9 <=? n) && (n <=? 13)) || ((28 <=? n) && (n <=? 32))
  || (n =? 133) || (n =? 160).

Definition lower_char (c : ascii) : ascii :=
  let n := nat_of_ascii c in
  if ((65 <=? n) && (n <=? 90))
     || ((192 <=? n) && (n <=? 222) && negb (n =? 215))
  then ascii_of_nat (n + 32) else c.

(** Only applied to ASCII text (the product categories). *)
Definition upper_char (c : ascii) : ascii :=
  let n := nat_of_ascii c in
  if (97 <=? n) && (n <=? 122) then ascii_of_nat (n - 32) else c.

Fixpoint map_chars (f : ascii → ascii) (s : string) : string :=
  match s with
  | EmptyString => EmptyString
  | String c s' => String (f c) (map_chars f s')
  end.

Definition lower : string → string := map_chars lower_char.
Definition upper : string → string := map_chars upper_char.

Fixpoint lstrip (s : string) : string :=
  match s with
  | EmptyString => EmptyString
  | String c s' => if is_space c then lstrip s' else s
  end.

Fixpoint rstrip (s : string) : string :=
  match s with
  | EmptyString => EmptyString
  | String c s' =>
      match rstrip s' with
      | EmptyString => if is_space c then EmptyString else String c EmptyString
      | r => String c r
      end
  end.

(** [s.strip()] *)
Definition strip (s : string) : string := rstrip (lstrip s).

(** [sep in s] for a one-character [sep] *)
Fixpoint contains (sep : ascii) (s : string) : bool :=
  match s with
  | EmptyString => false
  | String c s' => if bool_decide (c = sep) then true else contains sep s'
  end.

(** [s.split(sep)]: always at least one piece. *)
Fixpoint split (sep : ascii) (s : string) : list string :=
  match s with
  | EmptyString => [EmptyString]
  | String c s' =>
      if bool_decide (c = sep) then EmptyString :: split sep s'
      else match split sep s' with
           | piece :: pieces => String c piece :: pieces
           | [] => [String c EmptyString]
           end
  end.

(** [s.split(sep, 1)] when [sep in s]: the text before and after the first
    separator. *)
Fixpoint split_once (sep : ascii) (s : string) : option (string * string) :=
  match s with
  | EmptyString => None
  | String c s' =>
      if bool_decide (c = sep) then Some (EmptyString, s')
      else '(before, after) ← split_once sep s'; Some (String c before, after)
  end.

(** [sep.join(pieces)] *)
Fixpoint join (sep : string) (pieces : list string) : string :=
  match pieces with
  | [] => EmptyString
  | [piece] => piece
  | piece :: rest => piece +:+ sep +:+ join sep rest
  end.

Definition is_digit (c : ascii) : bool :=
  let n := nat_of_ascii c in (48 <=? n) && (n <=? 57).

Definition digit_value (c : ascii) : Z := Z.of_nat (nat_of_ascii c - 48).

(** Digits of an [int] literal after the sign: groups of digits separated
    by single underscores. [after_digit] tells whether the previous
    character was a digit. *)
Fixpoint int_digits (acc : Z) (after_digit : bool) (s : string) : option Z :=
  match s with
  | EmptyString => if after_digit then Some acc else None
  | String c s' =>
      if is_digit c then int_digits (10 * acc + digit_value c)%Z true s'
      else if bool_decide (c = "_"%char) && after_digit
           then match s' with
                | String d _ => if is_digit d then int_digits acc false s' else None
                | EmptyString => None
                end
           else None
  end.

(** The longest run of digits that [int()] converts: CPython's default
    [sys.int_info.default_max_str_digits], which the program leaves as it
    is. *)
Definition MAX_STR_DIGITS : Z := 4300.

(** The number of digit characters of a literal; underscores and the sign
    do not count. *)
Fixpoint count_digits (s : string) : Z :=
  match s with
  | EmptyString => 0
  | String c s' => ((if is_digit c then 1 else 0) + count_digits s')%Z
  end.

(** The part of an [int] literal after the sign: refused when it has more
    digits than [MAX_STR_DIGITS], leading zeros included. *)
Definition int_literal (digits : string) : option Z :=
  if bool_decide (count_digits digits ≤ MAX_STR_DIGITS)%Z
  then int_digits 0 false digits
  else None.

(** [int(s)] in base 10; [None] is a [ValueError]. *)
Definition int_of_string (s : string) : option Z :=
  match strip s with
  | String "-"%char digits => Z.opp <$> int_literal digits
  | String "+"%char digits => int_literal digits
  | digits => int_literal digits
  end.

(** [str(n)] for a non-negative counter *)
Definition str_of_nat (n : nat) : string := NilEmpty.string_of_uint (Nat.to_uint n).

Definition str_of_Z (z : Z) : string :=
  match z with
  | Z0 => "0"
  | Zpos p => str_of_nat (Pos.to_nat p)
  | Zneg p => "-" +:+ str_of_nat (Pos.to_nat p)
  end.

(** [s[:n]] *)
Fixpoint take_chars (n : nat) (s : string) : string :=
  match n, s with
  | S n', String c s' => String c (take_chars n' s')
  | _, _ => EmptyString
  end.

(** ** Exceptions and outcomes *)

Inductive exn :=
| SystemExit (code : Z) (printed : list string)
    (** [sys.exit(code)], with the lines printed just before it *)
| ValueError (literal : string)
    (** [int()] on a malformed literal, or on one with too many digits *)
| IndexError                      (** [random.choice] on an empty sequence *)
| KeyError (key : string)         (** a dictionary subscript that is absent *)
| TypeError                       (** arithmetic on a value that is no number *)
| Overflow
    (** [decimal]: a result whose exponent is above the context's [Emax] *)
| InvalidOperation
    (** [decimal]: a rounded result with more digits than the context holds *)
| StatementError.
    (** SQLAlchemy: a statement executed without a value for a bind
        parameter *)

Inductive outcome (A : Type) :=
| Ret (a : A)
| Raise (e : exn)
| OutOfFuel.   (** a [while] loop was still running when the fuel ran out *)
Arguments Ret {A} a.
Arguments Raise {A} e.
Arguments OutOfFuel {A}.

(** ** Insertion-ordered dictionaries with string keys

    [parse_table_spec] returns one, and [main] turns its keys into the
    requested list, so the order of first insertion is part of the value. *)

Fixpoint dict_set {V} (k : string) (v : V) (d : list (string * V))
  : list (string * V) :=
  match d with
  | [] => [(k, v)]
  | (k', v') :: d' =>
      if bool_decide (k' = k) then (k, v) :: d' else (k', v') :: dict_set k v d'
  end.

Fixpoint dict_get {V} (k : string) (d : list (string * V)) : option V :=
  match d with
  | [] => None
  | (k', v') :: d' => if bool_decide (k' = k) then Some v' else dict_get k d'
  end.

Definition dict_keys {V} (d : list (string * V)) : list string := d.*1.

(** ** Table-spec parser *)

Definition unknown_table (table : string) : exn :=
  SystemExit 1 [ "Error: Unknown table '" +:+ table +:+ "'";
                 "Available tables: " +:+ join ", " ALL_TABLES ].

(** [default_count if default_count else DEFAULT_COUNTS.get(table, 100)] *)
Definition bare_count (default_count : option Z) (table : string) : Z :=
  match default_count with
  | Some n => if bool_decide (n = 0%Z) then default 100%Z (DEFAULT_COUNTS !! table) else n
  | None => default 100%Z (DEFAULT_COUNTS !! table)
  end.

(** The two branches of [if ':' in spec] that compute [table] and [count]. *)
Definition parse_entry (default_count : option Z) (spec : string)
  : outcome (string * Z) :=
  if contains ":" spec then
    match split_once ":" spec with
    | Some (table, count_str) =>
        let table := strip table in
        match int_of_string (strip count_str) with
        | Some count => Ret (table, count)
        | None => Raise (ValueError (strip count_str))
        end
    | None => Raise (ValueError spec)
    end
  else
    let table := strip spec in
    Ret (table, bare_count default_count table).

(** [for spec in tables_list: ...] *)
Fixpoint parse_entries (default_count : option Z) (tables_list : list string)
    (result : list (string * Z)) : outcome (list (string * Z)) :=
  match tables_list with
  | [] => Ret result
  | spec :: rest =>
      match parse_entry default_count spec with
      | Ret (table, count) =>
          if bool_decide (table ∈ ALL_TABLES)
          then parse_entries default_count rest (dict_set table count result)
          else Raise (unknown_table table)
      | Raise e => Raise e
      | OutOfFuel => OutOfFuel
      end
  end.

Definition tables_list_of (tables_arg : string) : list string :=
  if bool_decide (lower tables_arg = "all") then ALL_TABLES
  else strip <$> split "," tables_arg.

Definition parse_table_spec (tables_arg : string) (default_count : option Z)
  : outcome (list (string * Z)) :=
  parse_entries default_count (tables_list_of tables_arg) [].

(** Specification side of the parser: the table a token names, strings of
    whitespace, and a token with whitespace added around it and around
    its separator. *)
Definition entry_table (spec : string) : string :=
  match split_once ":" spec with
  | Some (table, _) => strip table
  | None => strip spec
  end.

(** The count of a token, when it has one, is a literal that [int()]
    accepts. *)
Definition entry_count_ok (spec : string) : bool :=
  match split_once ":" spec with
  | Some (_, count_str) => bool_decide (is_Some (int_of_string (strip count_str)))
  | None => true
  end.

(** The text that a token hands to [int()]. *)
Definition entry_count_str (spec : string) : string :=
  match split_once ":" spec with
  | Some (_, count_str) => strip count_str
  | None => EmptyString
  end.

Fixpoint blank (s : string) : bool :=
  match s with
  | EmptyString => true
  | String c s' => is_space c && blank s'
  end.

(** Neither whitespace nor one of the two separators. *)
Definition plain (c : ascii) : bool :=
  negb (is_space c) && negb (bool_decide (c = ":"%char))
  && negb (bool_decide (c = ","%char)).

Definition padded (piece piece' : string) : Prop :=
  ∃ w1 w2, blank w1 ∧ blank w2 ∧
    ((contains ":" piece = false ∧ piece' = w1 +:+ piece +:+ w2)
     ∨ ∃ a b w3 w4, blank w3 ∧ blank w4 ∧ contains ":" a = false
         ∧ piece = a +:+ ":" +:+ b
         ∧ piece' = w1 +:+ a +:+ w2 +:+ ":" +:+ w3 +:+ b +:+ w4).

(** ** The world a run acts on

    A run draws from the [random] module and from Faker and talks to one
    database connection.  None of the three is part of the sources; they
    are kept as small as the generators and the driver need. *)

Inductive value :=
| VNone
| VInt (n : Z)
| VStr (s : string)
| VBool (b : bool)
| VDecimal (hundredths : Z)
| VDate (d : string).

#[global] Instance value_eq_dec : EqDecision value.
Proof. solve_decision. Defined.

(** The parameter dictionary of one [INSERT]. *)
Definition row : Type := list (string * value).

(** Modelled from the spec: the persisted-store collaborator
    ([insert_records], [fetch_all_ids], [fetch_pairs], [commit]) behind the
    SQLAlchemy connection.  A statement that is given its parameters
    succeeds, an insert is given the next id of its table's sequence,
    inserted rows stay pending until [commit], and a query sees the
    committed rows and the pending ones. *)
Record conn := Conn {
  opened : bool;
  persisted : gmap string (list (Z * row));  (** committed rows, by table *)
  pending : list (string * (Z * row));       (** inserted, not yet committed *)
  sequences : gmap string Z;                 (** last id handed out, by table *)
  commits : nat;
}.

(** Modelled from the spec: the pseudo-random source and the text
    generator, each a tape of draws with a read position, so that a run is
    a function of the tapes. *)
Record world := World {
  random_tape : nat → nat;
  random_pos : nat;
  faker_tape : nat → string;
  faker_pos : nat;
  db : conn;
}.

Definition set_db (c : conn) (w : world) : world :=
  World (random_tape w) (random_pos w) (faker_tape w) (faker_pos w) c.

(** Modelled from the spec: the rows of [table] that a [SELECT] on this
    connection sees. *)
Definition visible_rows (c : conn) (table : string) : list (Z * row) :=
  default [] (persisted c !! table)
  ++ (filter (λ p, p.1 = table) (pending c)).*2.

Definition M (A : Type) : Type := world → outcome A * world.

Definition raise {A} (e : exn) : M A := λ w, (Raise e, w).
Definition out_of_fuel {A} : M A := λ w, (OutOfFuel, w).

#[global] Instance M_ret : MRet M := λ A a w, (Ret a, w).

#[global] Instance M_bind : MBind M :=
  λ A B k m w, match m w with
               | (Ret a, w') => k a w'
               | (Raise e, w') => (Raise e, w')
               | (OutOfFuel, w') => (OutOfFuel, w')
               end.

#[global] Instance M_fmap : FMap M := λ A B f m, a ← m; mret (f a).

(** [d[key]] on a string-keyed dictionary *)
Definition subscript {V} (key : string) (d : list (string * V)) : M V :=
  match dict_get key d with
  | Some v => mret v
  | None => raise (KeyError key)
  end.

(** [for x in items: s = body(x, s)] *)
Fixpoint for_each {A S} (items : list A) (body : A → S → M S) (s : S) : M S :=
  match items with
  | [] => mret s
  | x :: rest => s' ← body x s; for_each rest body s'
  end.

(** [for i in range(count)]; a count below one gives no iteration. *)
Definition for_range {S} (count : Z) (body : nat → S → M S) (s : S) : M S :=
  for_each (seq 0 (Z.to_nat count)) body s.

(** [while cond(s): s = body(s)] *)
Fixpoint while {S} (fuel : nat) (cond : S → bool) (body : S → M S) (s : S)
  : M S :=
  if cond s then
    match fuel with
    | O => out_of_fuel
    | S fuel' => s' ← body s; while fuel' cond body s'
    end
  else mret s.

(** *** Random draws *)

Definition random_draw : M nat :=
  λ w, (Ret (random_tape w (random_pos w)),
        World (random_tape w) (S (random_pos w)) (faker_tape w) (faker_pos w) (db w)).

(** [random.choice(seq)] *)
Definition random_choice {A} (seq : list A) : M A :=
  match seq with
  | [] => raise IndexError
  | _ => n ← random_draw;
         match seq !! (n mod length seq) with
         | Some x => mret x
         | None => raise IndexError
         end
  end.

(** [random.randint(a, b)], for [a <= b] *)
Definition random_randint (a b : Z) : M Z :=
  n ← random_draw; mret (a + Z.of_nat n mod (b - a + 1))%Z.

(** [random.random()] and [random.uniform(a, b)], in thousandths *)
Definition random_random : M Z :=
  n ← random_draw; mret (Z.of_nat n mod 1000)%Z.
Definition random_uniform (a b : Z) : M Z := random_randint a b.

(** Any Faker provider; [provider] only labels the call. *)
Definition fake (provider : string) : M string :=
  λ w, (Ret (faker_tape w (faker_pos w)),
        World (random_tape w) (random_pos w) (faker_tape w) (S (faker_pos w)) (db w)).

(** *** Statements on the connection *)

(** Modelled from the spec: [engine.connect()]. *)
Definition connect : M unit :=
  λ w, let c := db w in
       (Ret (), set_db (Conn true (persisted c) (pending c) (sequences c) (commits c)) w).

(** Modelled from the spec: one [INSERT] of [insert_records]. *)
Definition insert_row (table : string) (r : row) (c : conn) : Z * conn :=
  let id := (default 0 (sequences c !! table) + 1)%Z in
  (id, Conn (opened c) (persisted c) (pending c ++ [(table, (id, r))])
            (<[table := id]> (sequences c)) (commits c)).

(** [conn.execute(INSERT ... RETURNING id, params).fetchone()[0]] *)
Definition insert_returning (table : string) (r : row) : M Z :=
  λ w, let '(id, c) := insert_row table r (db w) in (Ret id, set_db c w).

(** [conn.execute(text(INSERT ...), rows)] with a list of parameter sets.
    The call is SQLAlchemy's, which is not among the sources: it takes an
    empty list for no parameters at all, and then refuses the statement,
    every bind parameter of which needs a value, before anything reaches
    the database.  A list that is not empty inserts its rows in order. *)
Definition insert_many (table : string) (rows : list row) : M unit :=
  match rows with
  | [] => raise StatementError
  | _ :: _ =>
      λ w, (Ret (), set_db (foldl (λ c r, (insert_row table r c).2) (db w) rows) w)
  end.

(** [SELECT id FROM table] *)
Definition fetch_existing_ids (table : string) : M (list Z) :=
  λ w, (Ret (visible_rows (db w) table).*1, w).

(** [SELECT id, column FROM table] as a dictionary *)
Definition fetch_column (table column : string) : M (gmap Z value) :=
  λ w, (Ret (foldl (λ m p, <[p.1 := default VNone (dict_get column p.2)]> m) ∅
                   (visible_rows (db w) table)), w).

Definition fetch_contact_company_map : M (gmap Z value) :=
  fetch_column "contacts" "company_id".
Definition fetch_product_prices : M (gmap Z value) :=
  fetch_column "products" "price".

(** Modelled from the spec: [conn.commit()]. *)
Definition commit : M unit :=
  λ w, let c := db w in
       (Ret (), set_db (Conn (opened c)
                             (foldl (λ m p, <[p.1 := default [] (m !! p.1) ++ [p.2]]> m)
                                    (persisted c) (pending c))
                             [] (sequences c) (S (commits c))) w).

(** Modelled from the spec: leaving [with engine.connect() as conn],
    where what was not committed is rolled back. *)
Definition close (w : world) : world :=
  let c := db w in set_db (Conn false (persisted c) [] (sequences c) (commits c)) w.

Definition with_connection {A} (body : M A) : M A :=
  λ w, let '(r, w') := (connect;; body) w in (r, close w').

(** ** Value pools of the generators *)

Definition INDUSTRIES : list string :=
  [ "Technology"; "Healthcare"; "Finance"; "Manufacturing"; "Retail";
    "Education"; "Real Estate"; "Consulting"; "Marketing"; "Legal";
    "Energy"; "Transportation"; "Hospitality"; "Construction"; "Agriculture";
    "Telecommunications"; "Media"; "Insurance"; "Pharmaceutical"; "Automotive" ].

Definition JOB_TITLES : list (string * list string) :=
  [ ("Executive", ["CEO"; "CTO"; "CFO"; "COO"; "VP of Operations"; "President";
                   "Managing Director"]);
    ("Sales", ["Sales Director"; "Sales Manager"; "Account Executive";
               "Sales Representative"; "Business Development Manager"]);
    ("Marketing", ["Marketing Director"; "Marketing Manager"; "Brand Manager";
                   "Digital Marketing Specialist"; "Content Manager"]);
    ("Engineering", ["Engineering Manager"; "Software Engineer"; "Senior Developer";
                     "Tech Lead"; "DevOps Engineer"]);
    ("Finance", ["Finance Director"; "Controller"; "Financial Analyst"; "Accountant";
                 "Treasurer"]);
    ("HR", ["HR Director"; "HR Manager"; "Recruiter"; "Talent Acquisition Specialist";
            "HR Generalist"]);
    ("Operations", ["Operations Manager"; "Project Manager"; "Supply Chain Manager";
                    "Logistics Coordinator"]) ].

Definition DEAL_STAGES : list (string * Z) :=
  [ ("prospecting", 10%Z); ("qualification", 25%Z); ("proposal", 50%Z);
    ("negotiation", 75%Z); ("closed_won", 100%Z); ("closed_lost", 0%Z) ].

Definition PRODUCT_CATEGORIES : list string :=
  [ "Software"; "Hardware"; "Services"; "Support"; "Training";
    "Consulting"; "Subscription"; "License"; "Integration"; "Custom Development" ].

Definition ACTIVITY_TYPES : list string :=
  [ "call"; "email"; "meeting"; "demo"; "follow_up" ].
Definition TASK_PRIORITIES : list string := [ "low"; "medium"; "high"; "urgent" ].
Definition TASK_STATUSES : list string :=
  [ "pending"; "in_progress"; "completed"; "cancelled" ].
Definition DEAL_SOURCES : list string :=
  [ "Website"; "Referral"; "Cold Call"; "Trade Show"; "Social Media";
    "Email Campaign"; "Partner"; "Advertisement"; "Inbound"; "Outbound" ].

(** ** Generators *)

Definition generate_companies (count : Z) : M (list Z) :=
  for_range count
    (λ _ company_ids,
       name ← fake "company";
       industry ← random_choice INDUSTRIES;
       website ← fake "url";
       address ← fake "street_address";
       city ← fake "city";
       state ← fake "state_abbr";
       postal_code ← fake "zipcode";
       phone ← fake "phone_number";
       employee_count ← random_randint 10 10000;
       annual_revenue ← random_randint 100000 100000000;
       created_at ← fake "date_time_between";
       id ← insert_returning "companies"
              [ ("name", VStr name); ("industry", VStr industry);
                ("website", VStr website); ("address", VStr address);
                ("city", VStr city); ("state", VStr state);
                ("country", VStr "USA"); ("postal_code", VStr postal_code);
                ("phone", VStr phone); ("employee_count", VInt employee_count);
                ("annual_revenue", VDecimal (100 * annual_revenue));
                ("created_at", VDate created_at) ];
       mret (company_ids ++ [id]))
    [].

(** The address tried on the [counter]-th collision. *)
Definition numbered_email (first_name last_name : string) (counter : nat)
    (domain : string) : string :=
  lower first_name +:+ "." +:+ lower last_name +:+ str_of_nat counter
  +:+ "@" +:+ domain.

Definition generate_contacts (fuel : nat) (company_ids : list Z) (count : Z)
  : M (list Z * gmap Z value) :=
  '(contact_ids, contact_company_map, used_emails) ←
    for_range count
      (λ i '(contact_ids, contact_company_map, used_emails),
         company_id ← random_choice company_ids;
         department ← random_choice (dict_keys JOB_TITLES);
         titles ← subscript department JOB_TITLES;
         title ← random_choice titles;
         first_name ← fake "first_name";
         last_name ← fake "last_name";
         domain ← fake "domain_name";
         let base_email :=
           lower first_name +:+ "." +:+ lower last_name +:+ "@" +:+ domain in
         '(email, _) ←
           while fuel
             (λ '(email, counter), bool_decide (email ∈ (used_emails : gset string)))
             (λ '(email, counter),
                domain ← fake "domain_name";
                mret (numbered_email first_name last_name counter domain, S counter))
             (base_email, 1);
         let used_emails := {[email]} ∪ used_emails in
         phone ← fake "phone_number";
         mobile ← fake "phone_number";
         uuid ← fake "uuid4";
         created_at ← fake "date_time_between";
         contact_id ← insert_returning "contacts"
              [ ("company_id", VInt company_id); ("first_name", VStr first_name);
                ("last_name", VStr last_name); ("email", VStr email);
                ("phone", VStr phone); ("mobile", VStr mobile);
                ("title", VStr title); ("department", VStr department);
                ("linkedin_url",
                 VStr ("https://linkedin.com/in/" +:+ lower first_name +:+ "-"
                       +:+ lower last_name +:+ "-" +:+ take_chars 8 uuid));
                ("is_primary", VBool (bool_decide (i mod 5 = 0)));
                ("created_at", VDate created_at) ];
         mret (contact_ids ++ [contact_id],
               <[contact_id := VInt company_id]> contact_company_map,
               used_emails))
      ([], ∅, ∅);
  mret (contact_ids, contact_company_map).

Definition product_prefixes : list string :=
  [ "Pro"; "Enterprise"; "Basic"; "Premium"; "Ultimate"; "Starter"; "Business"; "Team" ].
Definition product_types : list string :=
  [ "Suite"; "Platform"; "Solution"; "Package"; "Service"; "Module"; "Add-on"; "License" ].

(** [f"{category[:3].upper()}-{random.randint(1000, 9999)}"] *)
Definition draw_sku (category : string) : M string :=
  n ← random_randint 1000 9999;
  mret (upper (take_chars 3 category) +:+ "-" +:+ str_of_Z n).

Definition generate_products (fuel : nat) (count : Z) : M (gmap Z value) :=
  '(product_data, used_skus) ←
    for_range count
      (λ i '(product_data, used_skus),
         prefix ← random_choice product_prefixes;
         prod_type ← random_choice product_types;
         category ← random_choice PRODUCT_CATEGORIES;
         let name := prefix +:+ " " +:+ category +:+ " " +:+ prod_type in
         sku ← draw_sku category;
         sku ← while fuel (λ sku, bool_decide (sku ∈ (used_skus : gset string)))
                 (λ _, draw_sku category) sku;
         let used_skus := {[sku]} ∪ used_skus in
         units ← random_randint 99 99999;
         cents ← random_randint 0 99;
         let price := VDecimal (100 * units + cents) in
         description ← fake "paragraph";
         active ← random_random;
         created_at ← fake "date_time_between";
         product_id ← insert_returning "products"
              [ ("name", VStr name); ("description", VStr description);
                ("price", price); ("sku", VStr sku); ("category", VStr category);
                ("is_active", VBool (bool_decide (100 < active)%Z));
                ("created_at", VDate created_at) ];
         mret (<[product_id := price]> product_data, used_skus))
      (∅, ∅);
  mret product_data.

Definition is_letter (c : ascii) : bool :=
  let n := nat_of_ascii c in
  ((65 <=? n) && (n <=? 90)) || ((97 <=? n) && (n <=? 122)).

(** [s.title()] on ASCII text: a letter is upper-cased after a non-letter
    and lower-cased after a letter. *)
Fixpoint title_from (after_letter : bool) (s : string) : string :=
  match s with
  | EmptyString => EmptyString
  | String c s' =>
      String (if after_letter then lower_char c else upper_char c)
             (title_from (is_letter c) s')
  end.
Definition title : string → string := title_from false.

Definition closed_stage (stage : string) : bool :=
  bool_decide (stage ∈ ["closed_won"; "closed_lost"]).

(** [[cid for cid, comp_id in contact_company_map.items() if comp_id == company_id]] *)
Definition contacts_of (contact_company_map : gmap Z value) (company_id : Z)
  : list Z :=
  (filter (λ kv, kv.2 = VInt company_id) (map_to_list contact_company_map)).*1.

Definition option_value (o : option Z) : value :=
  match o with Some n => VInt n | None => VNone end.

Definition generate_deals (company_ids contact_ids : list Z)
    (contact_company_map : gmap Z value) (count : Z) : M (list Z) :=
  for_range count
    (λ _ deal_ids,
       company_id ← random_choice company_ids;
       let company_contacts := contacts_of contact_company_map company_id in
       contact_id ← match company_contacts with
                    | [] => mret None
                    | _ => Some <$> random_choice company_contacts
                    end;
       stage ← random_choice (dict_keys DEAL_STAGES);
       probability ← subscript stage DEAL_STAGES;
       probability ← (if negb (closed_stage stage)
                      then delta ← random_randint (-10) 10;
                           mret (0 `max` (100 `min` (probability + delta)))%Z
                      else mret probability);
       amount ← random_randint 1000 500000;
       expected_close ← fake "date_between";
       actual_close ← (if closed_stage stage
                       then VDate <$> fake "date_between"
                       else mret VNone);
       bs ← fake "bs";
       description ← fake "paragraph";
       source ← random_choice DEAL_SOURCES;
       created_at ← fake "date_time_between";
       id ← insert_returning "deals"
              [ ("company_id", VInt company_id);
                ("contact_id", option_value contact_id);
                ("title", VStr (title bs +:+ " Project"));
                ("description", VStr description);
                ("value", VDecimal (100 * amount)); ("stage", VStr stage);
                ("probability", VInt probability);
                ("expected_close_date", VDate expected_close);
                ("actual_close_date", actual_close); ("source", VStr source);
                ("created_at", VDate created_at) ];
       mret (deal_ids ++ [id]))
    [].

(** [product_data[product_id]] *)
Definition price_of (product_data : gmap Z value) (product_id : Z) : M value :=
  match product_data !! product_id with
  | Some price => mret price
  | None => raise (KeyError (str_of_Z product_id))
  end.

(** A value as the left operand of [* Decimal(...)], in hundredths: a
    [Decimal], or an [int] (a [bool] is one), which Python converts.  Any
    other value has no product with a [Decimal]. *)
Definition price_hundredths (base_price : value) : option Z :=
  match base_price with
  | VDecimal hundredths => Some hundredths
  | VInt n => Some (100 * n)%Z
  | VBool b => Some (if b then 100 else 0)%Z
  | _ => None
  end.

(** The default [decimal] context: the most digits a result may have, and
    the largest exponent of its leading digit. *)
Definition DECIMAL_PREC : Z := 28.
Definition DECIMAL_EMAX : Z := 999999.

(** The number of decimal digits of a number, none for zero; a number has
    no more decimal digits than bits. *)
Fixpoint digits_upto (fuel : nat) (n : Z) : Z :=
  match fuel with
  | O => 0
  | S fuel' => if bool_decide (n = 0%Z) then 0 else (1 + digits_upto fuel' (n / 10))%Z
  end.
Definition decimal_digits (n : Z) : Z :=
  digits_upto (S (Z.to_nat (Z.log2 (Z.abs n)))) (Z.abs n).

(** [base_price * Decimal(factor)], the factor in thousandths and the
    product in hundred-thousandths, so that its leading digit has the
    exponent [decimal_digits product - 6]. *)
Definition times_factor (base_price : value) (factor : Z) : M Z :=
  match price_hundredths base_price with
  | Some hundredths =>
      let product := (hundredths * factor)%Z in
      if bool_decide (decimal_digits product - 6 ≤ DECIMAL_EMAX)%Z
      then mret product
      else raise Overflow
  | None => raise TypeError
  end.

(** [round(unit_price, 2)]: the price in hundredths, refused when it
    needs more than [DECIMAL_PREC] digits. *)
Definition round_price (unit_price : Z) : M value :=
  let hundredths := (unit_price / 1000)%Z in
  if bool_decide (Z.abs hundredths < 10 ^ DECIMAL_PREC)%Z
  then mret (VDecimal hundredths)
  else raise InvalidOperation.

Definition generate_deal_products (fuel : nat) (deal_ids : list Z)
    (product_data : gmap Z value) (count : Z) : M unit :=
  let product_ids := (map_to_list product_data).*1 in
  '(deal_products, used_pairs) ←
    while fuel
      (λ '(deal_products, used_pairs),
         bool_decide (Z.of_nat (length (deal_products : list row)) < count)%Z)
      (λ '(deal_products, used_pairs),
         deal_id ← random_choice deal_ids;
         product_id ← random_choice product_ids;
         let pair := (deal_id, product_id) in
         if bool_decide (pair ∈ (used_pairs : gset (Z * Z)))
         then mret (deal_products, used_pairs)
         else
           let used_pairs := {[pair]} ∪ used_pairs in
           base_price ← price_of product_data product_id;
           factor ← random_uniform 800 1200;
           unit_price ← times_factor base_price factor;
           quantity ← random_randint 1 20;
           unit_price ← round_price unit_price;
           discount ← random_choice [0; 0; 0; 5; 10; 15; 20]%Z;
           mret (deal_products ++
                   [ [ ("deal_id", VInt deal_id); ("product_id", VInt product_id);
                       ("quantity", VInt quantity); ("unit_price", unit_price);
                       ("discount_percent", VDecimal (100 * discount)) ] ],
                 used_pairs))
      ([], ∅);
  insert_many "deal_products" deal_products.

Definition activity_subjects : list (string * list string) :=
  [ ("call", ["Initial discovery call"; "Follow-up call"; "Product discussion";
              "Pricing call"; "Check-in call"; "Support call"]);
    ("email", ["Introduction email"; "Proposal sent"; "Follow-up email";
               "Meeting confirmation"; "Thank you email"; "Contract sent"]);
    ("meeting", ["Product demo"; "Strategy meeting"; "Kickoff meeting";
                 "Quarterly review"; "Executive presentation"; "Technical deep-dive"]);
    ("demo", ["Product walkthrough"; "Feature demonstration"; "Technical demo";
              "POC presentation"; "Solution overview"]);
    ("follow_up", ["Post-meeting follow-up"; "Proposal follow-up"; "Contract follow-up";
                   "Decision check-in"; "Next steps discussion"]) ].

Definition generate_activities (contact_ids : list Z) (count : Z) : M unit :=
  activities ←
    for_range count
      (λ _ activities,
         contact_id ← random_choice contact_ids;
         activity_type ← random_choice ACTIVITY_TYPES;
         subjects ← subscript activity_type activity_subjects;
         subject ← random_choice subjects;
         with_notes ← random_random;
         notes ← (if bool_decide (300 < with_notes)%Z
                  then VStr <$> fake "paragraph" else mret VNone);
         duration ← (if bool_decide (activity_type ∈ ["call"; "meeting"; "demo"])
                     then VInt <$> random_randint 5 120 else mret VNone);
         activity_date ← fake "date_time_between";
         mret (activities ++
                 [ [ ("contact_id", VInt contact_id); ("type", VStr activity_type);
                     ("subject", VStr subject); ("notes", notes);
                     ("duration_minutes", duration);
                     ("activity_date", VDate activity_date) ] ]))
      [];
  insert_many "activities" activities.

(** [template.format] with keyword fields, for a template with balanced braces;
    [name] collects the field name while inside braces. *)
Fixpoint format_from (fields : list (string * string)) (name : option string)
    (template : string) : string :=
  match template with
  | EmptyString => EmptyString
  | String c rest =>
      match name with
      | None =>
          if bool_decide (c = "{"%char) then format_from fields (Some EmptyString) rest
          else String c (format_from fields None rest)
      | Some n =>
          if bool_decide (c = "}"%char)
          then default EmptyString (dict_get n fields) +:+ format_from fields None rest
          else format_from fields (Some (n +:+ String c EmptyString)) rest
      end
  end.
Definition format (template : string) (fields : list (string * string)) : string :=
  format_from fields None template.

Definition note_templates : list string :=
  [ "Spoke with {name} about their current challenges. They mentioned {topic}.";
    "Key decision maker is {role}. Budget approval needed from {dept}.";
    "Follow up required regarding {topic}. Best time to call is {time}.";
    "Competitor {competitor} is also in discussions. We need to highlight {feature}.";
    "Customer expressed interest in {product}. Schedule demo for next week.";
    "Contract negotiations ongoing. Legal review expected by {date}.";
    "Technical requirements gathered: {requirements}.";
    "Budget: {budget}. Timeline: {timeline}." ].

Definition generate_notes (contact_ids : list Z) (count : Z) : M unit :=
  notes ←
    for_range count
      (λ _ notes,
         contact_id ← random_choice contact_ids;
         template ← random_choice note_templates;
         name ← fake "name";
         topic ← fake "bs";
         role ← random_choice ["CEO"; "CTO"; "CFO"; "VP"; "Director"];
         dept ← random_choice ["Finance"; "IT"; "Operations"; "Executive"];
         time ← random_choice ["morning"; "afternoon"; "after 3pm"];
         competitor ← fake "company";
         feature ← fake "bs";
         tier ← random_choice ["Pro"; "Enterprise"];
         kind ← random_choice ["Suite"; "Platform"];
         date ← fake "date_between";
         requirements ← fake "bs";
         budget ← random_randint 10 500;
         months ← random_randint 1 6;
         let content :=
           format template
             [ ("name", name); ("topic", topic); ("role", role); ("dept", dept);
               ("time", time); ("competitor", competitor); ("feature", feature);
               ("product", tier +:+ " " +:+ kind); ("date", date);
               ("requirements", requirements);
               ("budget", "$" +:+ str_of_Z budget +:+ "K");
               ("timeline", str_of_Z months +:+ " months") ] in
         created_at ← fake "date_time_between";
         mret (notes ++
                 [ [ ("contact_id", VInt contact_id); ("content", VStr content);
                     ("created_at", VDate created_at) ] ]))
      [];
  insert_many "notes" notes.

Definition task_templates : list (string * string) :=
  [ ("Send proposal to client", "Prepare and send detailed proposal with pricing");
    ("Schedule follow-up call", "Arrange call to discuss next steps");
    ("Prepare demo environment", "Set up demo instance with sample data");
    ("Review contract terms", "Legal review of contract amendments");
    ("Send pricing breakdown", "Detailed cost analysis for customer");
    ("Update CRM records", "Ensure all contact info is current");
    ("Prepare executive summary", "Summary document for leadership review");
    ("Technical requirements review", "Validate technical specifications");
    ("Coordinate with implementation team", "Align on delivery timeline");
    ("Follow up on outstanding questions", "Address customer concerns") ].

Definition generate_tasks (deal_ids : list Z) (count : Z) : M unit :=
  tasks ←
    for_range count
      (λ _ tasks,
         deal_id ← random_choice deal_ids;
         '(task_title, description) ← random_choice task_templates;
         status ← random_choice TASK_STATUSES;
         due_date ← fake "date_between";
         completed_at ← (if bool_decide (status = "completed")
                         then VDate <$> fake "date_time_between" else mret VNone);
         priority ← random_choice TASK_PRIORITIES;
         created_at ← fake "date_time_between";
         mret (tasks ++
                 [ [ ("deal_id", VInt deal_id); ("title", VStr task_title);
                     ("description", VStr description); ("due_date", VDate due_date);
                     ("status", VStr status); ("priority", VStr priority);
                     ("completed_at", completed_at);
                     ("created_at", VDate created_at) ] ]))
      [];
  insert_many "tasks" tasks.

(** ** Execution driver *)

(** The identifier pools [main] holds while it walks the plan. *)
Record pools := Pools {
  company_ids : list Z;
  contact_ids : list Z;
  contact_company_map : gmap Z value;
  product_data : gmap Z value;
  deal_ids : list Z;
}.

Definition empty_pools : pools := Pools [] [] ∅ ∅ [].

Definition missing_prerequisite (name : string) : exn :=
  SystemExit 1 [ "Error: No " +:+ name +:+ " found. Generate " +:+ name +:+ " first." ].

(** The recurring fallback
    [if not ids: ids = fetch_existing_ids(conn, name); if not ids: sys.exit(1)] *)
Definition existing_or_exit (name : string) (ids : list Z) : M (list Z) :=
  if bool_decide (ids = []) then
    ids ← fetch_existing_ids name;
    if bool_decide (ids = []) then raise (missing_prerequisite name) else mret ids
  else mret ids.

(** The same fallback in the [deals] branch, which also fetches the
    contact-to-company map before it looks at what came back. *)
Definition contacts_or_exit (p : pools) : M (list Z * gmap Z value) :=
  if bool_decide (contact_ids p = []) then
    contact_ids ← fetch_existing_ids "contacts";
    contact_company_map ← fetch_contact_company_map;
    if bool_decide (contact_ids = [])
    then raise (missing_prerequisite "contacts")
    else mret (contact_ids, contact_company_map)
  else mret (contact_ids p, contact_company_map p).

(** The fallback of the [deal_products] branch for the price table. *)
Definition prices_or_exit (p : pools) : M (gmap Z value) :=
  if bool_decide (product_data p = ∅) then
    product_data ← fetch_product_prices;
    if bool_decide (product_data = ∅)
    then raise (missing_prerequisite "products")
    else mret product_data
  else mret (product_data p).

(** One turn of [for table in tables_to_generate] after [count] is read. *)
Definition generate_table (fuel : nat) (table : string) (count : Z) (p : pools)
  : M pools :=
  if bool_decide (table = "companies") then
    company_ids ← generate_companies count;
    mret (Pools company_ids (contact_ids p) (contact_company_map p)
                (product_data p) (deal_ids p))
  else if bool_decide (table = "contacts") then
    company_ids ← existing_or_exit "companies" (company_ids p);
    '(contact_ids, contact_company_map) ← generate_contacts fuel company_ids count;
    mret (Pools company_ids contact_ids contact_company_map
                (product_data p) (deal_ids p))
  else if bool_decide (table = "products") then
    product_data ← generate_products fuel count;
    mret (Pools (company_ids p) (contact_ids p) (contact_company_map p)
                product_data (deal_ids p))
  else if bool_decide (table = "deals") then
    company_ids ← existing_or_exit "companies" (company_ids p);
    '(contact_ids, contact_company_map) ← contacts_or_exit p;
    deal_ids ← generate_deals company_ids contact_ids contact_company_map count;
    mret (Pools company_ids contact_ids contact_company_map (product_data p) deal_ids)
  else if bool_decide (table = "deal_products") then
    deal_ids ← existing_or_exit "deals" (deal_ids p);
    product_data ← prices_or_exit p;
    generate_deal_products fuel deal_ids product_data count;;
    mret (Pools (company_ids p) (contact_ids p) (contact_company_map p)
                product_data deal_ids)
  else if bool_decide (table = "activities") then
    contact_ids ← existing_or_exit "contacts" (contact_ids p);
    generate_activities contact_ids count;;
    mret (Pools (company_ids p) contact_ids (contact_company_map p)
                (product_data p) (deal_ids p))
  else if bool_decide (table = "notes") then
    contact_ids ← existing_or_exit "contacts" (contact_ids p);
    generate_notes contact_ids count;;
    mret (Pools (company_ids p) contact_ids (contact_company_map p)
                (product_data p) (deal_ids p))
  else if bool_decide (table = "tasks") then
    deal_ids ← existing_or_exit "deals" (deal_ids p);
    generate_tasks deal_ids count;;
    mret (Pools (company_ids p) (contact_ids p) (contact_company_map p)
                (product_data p) deal_ids)
  else mret p.

(** [for table in tables_to_generate: count = final_counts[table]; ...] *)
Definition generate_tables (fuel : nat) (tables_to_generate : list string)
    (final_counts : list (string * Z)) (p : pools) : M pools :=
  for_each tables_to_generate
    (λ table p, count ← subscript table final_counts;
                generate_table fuel table count p)
    p.

(** The body of [with engine.connect() as conn]; the read-only
    [verify_data] report after the commit is left out. *)
Definition generate_and_commit (fuel : nat) (tables_to_generate : list string)
    (final_counts : list (string * Z)) : M unit :=
  with_connection
    (generate_tables fuel tables_to_generate final_counts empty_pools;; commit).

Record args := Args {
  tables : string;
  count : option Z;
  no_deps : bool;
  list_tables : bool;
}.

(** The count [main] gives a table of the plan. *)
Definition final_count (table_counts : list (string * Z)) (count : option Z)
    (table : string) : Z :=
  match dict_get table table_counts with
  | Some n => n
  | None => bare_count count table
  end.

Definition lift {A} (o : outcome A) : M A := λ w, (o, w).

(** [main], from the parsed arguments on.  Console output is kept only for
    the lines that precede [sys.exit(1)]. *)
Definition main (fuel : nat) (a : args) : M unit :=
  if list_tables a then raise (SystemExit 0 [])
  else
    table_counts ← lift (parse_table_spec (tables a) (count a));
    let requested_tables := dict_keys table_counts in
    tables_to_generate ←
      match resolve_dependencies fuel requested_tables (negb (no_deps a)) with
      | Some plan => mret plan
      | None => out_of_fuel
      end;
    let final_counts :=
      foldl (λ fc table, dict_set table (final_count table_counts (count a) table) fc)
            [] tables_to_generate in
    generate_and_commit fuel tables_to_generate final_counts.

(** ** Specification vocabulary for the generators and the driver *)

(** [spec P m Q E]: started on a connection that satisfies [P], the
    computation [m] either returns [a] leaving a connection with [Q a], or
    raises [e] leaving one with [E e], or is cut short by the fuel. *)
Definition spec {A} (P : conn → Prop) (m : M A) (Q : A → conn → Prop)
    (E : exn → conn → Prop) : Prop :=
  ∀ w, P (db w) →
       match m w with
       | (Ret a, w') => Q a (db w')
       | (Raise e, w') => E e (db w')
       | (OutOfFuel, _) => True
       end.

(** A column of a pending entry [(table, (id, row))]. *)
Definition column (name : string) (entry : string * (Z * row)) : option value :=
  dict_get name entry.2.2.

(** A deal row refers to a company of the pool and, when it has a contact,
    to one that the map places at that company; it has none exactly when
    the map places no contact there. *)
Definition deal_refs_ok (company_ids : list Z) (contact_company_map : gmap Z value)
    (entry : string * (Z * row)) : Prop :=
  entry.1 = "deals"
  ∧ ∃ company_id,
      column "company_id" entry = Some (VInt company_id)
      ∧ company_id ∈ company_ids
      ∧ ((column "contact_id" entry = Some VNone
          ∧ ∀ k, contact_company_map !! k ≠ Some (VInt company_id))
         ∨ ∃ contact_id,
             column "contact_id" entry = Some (VInt contact_id)
             ∧ contact_company_map !! contact_id = Some (VInt company_id)).

(** The identifier pool that [main] keeps for a table. *)
Definition pool_empty (table : string) (p : pools) : Prop :=
  if bool_decide (table = "companies") then company_ids p = []
  else if bool_decide (table = "contacts") then contact_ids p = []
  else if bool_decide (table = "deals") then deal_ids p = []
  else if bool_decide (table = "products") then product_data p = ∅
  else True.

Definition is_decimal (v : value) : Prop := ∃ hundredths, v = VDecimal hundredths.

(** [quiet m]: [m] always returns and never touches the connection (a
    draw, or a computation made of draws). *)
Definition quiet {A} (m : M A) : Prop :=
  ∀ w, ∃ a w', m w = (Ret a, w') ∧ db w' = db w.

(** [inserted c0 c rows]: connection [c] is [c0] after the entries [rows]
    were inserted, with nothing committed in between. *)
Definition inserted (c0 c : conn) (rows : list (string * (Z * row))) : Prop :=
  pending c = pending c0 ++ rows
  ∧ persisted c = persisted c0
  ∧ commits c = commits c0
  ∧ opened c = opened c0.

(** The [(deal_id, product_id)] pair of a deal-product entry. *)
Definition pair_of (entry : string * (Z * row)) : option value * option value :=
  (column "deal_id" entry, column "product_id" entry).

(** A price that [generate_deal_products] can multiply by any factor it
    draws and round to two places: a number of magnitude at most
    8·10^25. *)
Definition scalable (v : value) : Prop :=
  ∃ hundredths, price_hundredths v = Some hundredths
                ∧ (Z.abs hundredths ≤ 8 * 10 ^ 27)%Z.

(** Every product price that the pools or the store hold is such a
    number. *)
Definition prices_scalable (p : pools) (c : conn) : Prop :=
  (∀ k v, product_data p !! k = Some v → scalable v)
  ∧ ∀ entry, entry ∈ visible_rows c "products" →
             scalable (default VNone (dict_get "price" entry.2)).

(** The tables whose generator collects its rows and inserts them with one
    statement at the end. *)
Definition BATCH_TABLES : list string :=
  [ "deal_products"; "activities"; "notes"; "tasks" ].

(** The two exceptions of a generator that collects a batch, both before
    anything is inserted: [random.choice] on the empty pool, and the
    statement refused for an empty batch. *)
Definition batch_error (c0 : conn) (pool : list Z) (count : Z)
  : exn → conn → Prop :=
  λ e c, c = c0
         ∧ ((e = IndexError ∧ pool = [])
            ∨ (e = StatementError ∧ (count ≤ 0)%Z)).

(** The only exception of a generator that draws from a pool of ids is
    [random.choice] on the empty pool, before anything is inserted. *)
Definition empty_pool_error (c0 : conn) (pool : list Z) : exn → conn → Prop :=
  λ e c, e = IndexError ∧ pool = [] ∧ c = c0.

(** A contact row belongs to a company of the pool and has an address. *)
Definition contact_row_ok (company_ids : list Z) (entry : string * (Z * row))
  : Prop :=
  entry.1 = "contacts"
  ∧ (∃ k, column "company_id" entry = Some (VInt k) ∧ k ∈ company_ids)
  ∧ ∃ email, column "email" entry = Some (VStr email).

Definition product_row_ok (entry : string * (Z * row)) : Prop :=
  entry.1 = "products" ∧ ∃ sku, column "sku" entry = Some (VStr sku).

(** A deal-product row refers to a deal of the pool and to a product of
    the price table. *)
Definition deal_product_row_ok (deal_ids : list Z) (product_data : gmap Z value)
    (entry : string * (Z * row)) : Prop :=
  entry.1 = "deal_products"
  ∧ ∃ deal_id product_id,
      column "deal_id" entry = Some (VInt deal_id)
      ∧ column "product_id" entry = Some (VInt product_id)
      ∧ deal_id ∈ deal_ids
      ∧ is_Some (product_data !! product_id).

(** What [generate_deal_products] can raise, before it inserts anything:
    [random.choice] on an empty pool, the product of a price that is no
    number, the product or the rounding of a price that is too large, or
    the statement refused for an empty batch. *)
Definition deal_products_error (c0 : conn) (deal_ids : list Z)
    (product_data : gmap Z value) (count : Z) : exn → conn → Prop :=
  λ e c, c = c0
         ∧ ((e = IndexError ∧ (deal_ids = [] ∨ product_data = ∅))
            ∨ (e = TypeError
               ∧ ∃ k v, product_data !! k = Some v ∧ price_hundredths v = None)
            ∨ ((e = Overflow ∨ e = InvalidOperation)
               ∧ ∃ k v, product_data !! k = Some v ∧ ¬ scalable v)
            ∨ (e = StatementError ∧ (count ≤ 0)%Z)).

(** What one turn of the driver can raise, with the connection as it was:
    the exit for a prerequisite that is neither in the pools nor in the
    store, the statement refused for the empty batch of a count below one,
    or, for deal products, arithmetic on a price that is no number or is
    too large. *)
Definition driver_error (c0 : conn) (table : string) (count : Z) (p : pools)
  : exn → conn → Prop :=
  λ e c, c = c0
         ∧ ((∃ dep, dep ∈ table_deps table ∧ e = missing_prerequisite dep
                    ∧ pool_empty dep p ∧ visible_rows c0 dep = [])
            ∨ (e = StatementError ∧ table ∈ BATCH_TABLES ∧ (count ≤ 0)%Z)
            ∨ ((e = TypeError ∨ e = Overflow ∨ e = InvalidOperation)
               ∧ table = "deal_products" ∧ ¬ prices_scalable p c0)).

(** The contact map speaks only of contacts of the pool. *)
Definition pools_consistent (p : pools) : Prop :=
  ∀ k, is_Some (contact_company_map p !! k) → k ∈ contact_ids p.

(** The rows of one turn of the driver belong to its table, and the
    uniqueness-constrained column of that table has no repetition. *)
Definition turn_rows_ok (table : string) (rows : list (string * (Z * row)))
  : Prop :=
  Forall (λ entry, entry.1 = table) rows
  ∧ (table = "contacts" → NoDup (column "email" <$> rows))
  ∧ (table = "products" → NoDup (column "sku" <$> rows))
  ∧ (table = "deal_products" → NoDup (pair_of <$> rows)).

(** Among rows of several tables: no two contacts with one address, no two
    products with one SKU, no two deal-product rows with one pair. *)
Definition unique_keys (rows : list (string * (Z * row))) : Prop :=
  NoDup (column "email" <$> filter (λ entry, entry.1 = "contacts") rows)
  ∧ NoDup (column "sku" <$> filter (λ entry, entry.1 = "products") rows)
  ∧ NoDup (pair_of <$> filter (λ entry, entry.1 = "deal_products") rows).

(** Specification side: a mapping written back as a [--tables] argument,
    each entry as [table:count]. *)
Definition render_entry (entry : string * Z) : string :=
  entry.1 +:+ ":" +:+ str_of_Z entry.2.

Definition render_spec (counts : list (string * Z)) : string :=
  join "," (render_entry <$> counts).

(** Every character of [s] passes the test [p]. *)
Fixpoint all_chars (p : ascii → bool) (s : string) : bool :=
  match s with
  | EmptyString => true
  | String c s' => p c && all_chars p s'
  end.

(** A character of a numeral that [str] gives for an [int]. *)
Definition numeral_char (c : ascii) : bool :=
  is_digit c || bool_decide (c = "-"%char).

(** A character of a table name of the schema. *)
Definition name_char (c : ascii) : bool :=
  let n := nat_of_ascii c in ((97 <=? n) && (n <=? 122)) || (n =? 95).

(** [fuel_free m]: [m] never ends for lack of fuel (it has no [while]
    loop, or none that can be cut short). *)
Definition fuel_free {A} (m : M A) : Prop := ∀ w, (m w).1 ≠ OutOfFuel.

(** [yields m φ]: [m] always returns, leaves the connection alone, and
    what it returns satisfies [φ]. *)
Definition yields {A} (m : M A) (φ : A → Prop) : Prop :=
  ∀ w, ∃ a w', m w = (Ret a, w') ∧ db w' = db w ∧ φ a.

(** *** The rows the generators write *)

(** A company row: the fixed country, an industry of the list, and the
    two numbers within the bounds they are drawn from. *)
Definition company_row_shape (entry : string * (Z * row)) : Prop :=
  entry.1 = "companies"
  ∧ column "country" entry = Some (VStr "USA")
  ∧ ∃ industry employee_count annual_revenue,
      column "industry" entry = Some (VStr industry)
      ∧ industry ∈ INDUSTRIES
      ∧ column "employee_count" entry = Some (VInt employee_count)
      ∧ (10 ≤ employee_count ≤ 10000)%Z
      ∧ column "annual_revenue" entry = Some (VDecimal (100 * annual_revenue))
      ∧ (100000 ≤ annual_revenue ≤ 100000000)%Z.

(** A deal row: a stage of [DEAL_STAGES]; a probability between 0 and 100
    that is the stage's own for a closed stage and within ten points of
    it otherwise; a close date exactly for a closed stage; and a value
    between 1000 and 500000. *)
Definition deal_row_shape (entry : string * (Z * row)) : Prop :=
  entry.1 = "deals"
  ∧ ∃ stage base probability amount,
      column "stage" entry = Some (VStr stage)
      ∧ dict_get stage DEAL_STAGES = Some base
      ∧ column "probability" entry = Some (VInt probability)
      ∧ (0 ≤ probability ≤ 100)%Z
      ∧ (base - 10 ≤ probability ≤ base + 10)%Z
      ∧ (if closed_stage stage
         then probability = base
              ∧ ∃ d, column "actual_close_date" entry = Some (VDate d)
         else column "actual_close_date" entry = Some VNone)
      ∧ column "value" entry = Some (VDecimal (100 * amount))
      ∧ (1000 ≤ amount ≤ 500000)%Z.

(** The SKU of a category and a number. *)
Definition sku_of (category : string) (n : Z) : string :=
  upper (take_chars 3 category) +:+ "-" +:+ str_of_Z n.

(** Every SKU [generate_products] can draw. *)
Definition all_skus : list string :=
  (λ cn, sku_of cn.1 cn.2) <$> list_prod PRODUCT_CATEGORIES (seqZ 1000 9000).

(** A product row: a category of the list, the SKU of that category and a
    number from 1000 to 9999, a name made of a prefix, the category and a
    type, and a price from 99.00 to 99999.99. *)
Definition product_row_shape (entry : string * (Z * row)) : Prop :=
  entry.1 = "products"
  ∧ ∃ category n prefix prod_type units cents,
      column "category" entry = Some (VStr category)
      ∧ category ∈ PRODUCT_CATEGORIES
      ∧ column "sku" entry = Some (VStr (sku_of category n))
      ∧ (1000 ≤ n ≤ 9999)%Z
      ∧ column "name" entry
        = Some (VStr (prefix +:+ " " +:+ category +:+ " " +:+ prod_type))
      ∧ prefix ∈ product_prefixes ∧ prod_type ∈ product_types
      ∧ column "price" entry = Some (VDecimal (100 * units + cents))
      ∧ (99 ≤ units ≤ 99999)%Z ∧ (0 ≤ cents ≤ 99)%Z.

(** An activity row: a contact of the pool, a type of the list with a
    subject of that type, and a duration from 5 to 120 minutes exactly
    for calls, meetings and demos. *)
Definition activity_row_shape (contact_ids : list Z) (entry : string * (Z * row))
  : Prop :=
  entry.1 = "activities"
  ∧ ∃ contact_id activity_type subjects subject,
      column "contact_id" entry = Some (VInt contact_id)
      ∧ contact_id ∈ contact_ids
      ∧ column "type" entry = Some (VStr activity_type)
      ∧ activity_type ∈ ACTIVITY_TYPES
      ∧ dict_get activity_type activity_subjects = Some subjects
      ∧ column "subject" entry = Some (VStr subject)
      ∧ subject ∈ subjects
      ∧ (if bool_decide (activity_type ∈ ["call"; "meeting"; "demo"])
         then ∃ minutes, column "duration_minutes" entry = Some (VInt minutes)
                         ∧ (5 ≤ minutes ≤ 120)%Z
         else column "duration_minutes" entry = Some VNone).

(** A task row: a deal of the pool, a title and description of one
    template, a status and a priority of the lists, and a completion time
    exactly for the status [completed]. *)
Definition task_row_shape (deal_ids : list Z) (entry : string * (Z * row))
  : Prop :=
  entry.1 = "tasks"
  ∧ ∃ deal_id task_title description status priority,
      column "deal_id" entry = Some (VInt deal_id)
      ∧ deal_id ∈ deal_ids
      ∧ column "title" entry = Some (VStr task_title)
      ∧ column "description" entry = Some (VStr description)
      ∧ (task_title, description) ∈ task_templates
      ∧ column "status" entry = Some (VStr status)
      ∧ status ∈ TASK_STATUSES
      ∧ column "priority" entry = Some (VStr priority)
      ∧ priority ∈ TASK_PRIORITIES
      ∧ (if bool_decide (status = "completed")
         then ∃ d, column "completed_at" entry = Some (VDate d)
         else column "completed_at" entry = Some VNone).

(** A contact row: a title of its department, the primary flag of its
    position, and a company of the pool. *)
Definition contact_row_shape (company_ids : list Z) (position : nat)
    (entry : string * (Z * row)) : Prop :=
  entry.1 = "contacts"
  ∧ column "is_primary" entry = Some (VBool (bool_decide (position mod 5 = 0)))
  ∧ ∃ company_id department titles title,
      column "company_id" entry = Some (VInt company_id)
      ∧ company_id ∈ company_ids
      ∧ column "department" entry = Some (VStr department)
      ∧ dict_get department JOB_TITLES = Some titles
      ∧ column "title" entry = Some (VStr title)
      ∧ title ∈ titles.

(** The pool that the turn of [table] fills is not empty (tables whose
    turn fills no pool ask for nothing). *)
Definition pool_filled (table : string) (p : pools) : Prop :=
  if bool_decide (table = "companies") then company_ids p ≠ []
  else if bool_decide (table = "contacts") then contact_ids p ≠ []
  else if bool_decide (table = "deals") then deal_ids p ≠ []
  else if bool_decide (table = "products") then product_data p ≠ ∅
  else True.

(** A price as [generate_products] makes it: a decimal from 99.00 to
    99999.99. *)
Definition made_price (v : value) : Prop :=
  ∃ hundredths, v = VDecimal hundredths ∧ (9900 ≤ hundredths ≤ 9999999)%Z.

(** Every price of the pool is one that [generate_products] made. *)
Definition pool_prices_made (p : pools) : Prop :=
  ∀ k v, product_data p !! k = Some v → made_price v.

(** ** What [main] reports about a plan *)

(** The [missing_deps] list that [main] builds under [--no-deps]: the pairs
    of a planned table and a dependency of it that is not planned, in the
    order of the plan. *)
Definition missing_deps (tables_to_generate : list string)
  : list (string * string) :=
  foldl (λ missing table,
           foldl (λ missing dep,
                    if bool_decide (dep ∈ tables_to_generate) then missing
                    else missing ++ [(table, dep)])
                 missing (table_deps table))
        [] tables_to_generate.

(** A world to run examples in. *)
Definition demo_world : world :=
  World (λ n, n * n + n / 3) 0 (λ n, "text" +:+ str_of_nat n) 0
        (Conn false ∅ [] ∅ 0).

(** ** List facts *)

Lemma filter_none {A} (P : A → Prop) `{!∀ x, Decision (P x)} (l : list A) :
  (∀ x, x ∈ l → ¬ P x) → filter P l = [].
Proof.
  induction l as [|a l IH]; intros Hl; [done|].
  rewrite filter_cons_False by (apply Hl; left).
  apply IH. intros x Hx. apply Hl. by right.
Qed.

Lemma size_list_to_set_le (l : list string) :
  size (list_to_set l : gset string) ≤ length l.
Proof.
  induction l as [|a l IH].
  - by rewrite list_to_set_nil, size_empty.
  - rewrite list_to_set_cons, size_union_alt, size_singleton.
    assert (size (list_to_set l ∖ {[a]} : gset string)
            ≤ size (list_to_set l : gset string)).
    { apply subseteq_size. set_solver. }
    simpl. lia.
Qed.

(** ** Facts about the resolver, for any enumeration and dependency lookup *)

Module ResolverFacts.
Import Resolver.
Section Graph.
Variable enum : list string.
Variable deps_of : string → list string.

#[local] Abbreviation add_deps := (add_deps deps_of).
#[local] Abbreviation closure_pass_over := (closure_pass_over deps_of).
#[local] Abbreviation closure_pass := (closure_pass deps_of).
#[local] Abbreviation closure_loop := (closure_loop deps_of).
#[local] Abbreviation depends_on := (depends_on deps_of).
#[local] Abbreviation reachable_from := (reachable_from deps_of).

Lemma closure_loop_S (fuel : nat) (s : gset string) :
  Resolver.closure_loop deps_of (S fuel) s
  = let '(s', added) := Resolver.closure_pass deps_of s in
    if added then Resolver.closure_loop deps_of fuel s' else Some s'.
Proof. done. Qed.

Lemma order_loop_S (fuel : nat) (tg : gset string) ordered (remaining : gset string) :
  Resolver.order_loop enum deps_of (S fuel) tg ordered remaining
  = if bool_decide (remaining = ∅) then Some ordered
    else let '(ordered', remaining') :=
           Resolver.order_scan deps_of enum tg ordered remaining in
         Resolver.order_loop enum deps_of fuel tg ordered' remaining'.
Proof. done. Qed.

(** The ordering loop never places a table twice, whatever it is asked. *)
Lemma order_scan_nodup (tables : list string) (tg : gset string)
    (ordered ordered' : list string) (remaining remaining' : gset string) :
  Resolver.order_scan deps_of tables tg ordered remaining = (ordered', remaining') →
  NoDup ordered → (∀ t, t ∈ ordered → t ∉ remaining) →
  NoDup ordered' ∧ ∀ t, t ∈ ordered' → t ∉ remaining'.
Proof.
  induction tables as [|table rest IH]; simpl; intros Hscan Hnd Hdisj.
  - by injection Hscan as <- <-.
  - destruct (bool_decide (table ∈ remaining)
              && Resolver.deps_placed deps_of ordered tg table) eqn:E;
      [|by apply IH].
    injection Hscan as <- <-.
    apply andb_true_iff in E as [Hin%bool_decide_eq_true _]. split.
    + apply NoDup_app. split_and!; [done| |apply NoDup_singleton].
      intros t Ht ->%list_elem_of_singleton. by apply (Hdisj table).
    + intros t [Ht| ->%list_elem_of_singleton]%elem_of_app; [|set_solver].
      specialize (Hdisj t Ht). set_solver.
Qed.

Lemma order_loop_nodup (fuel : nat) (tg : gset string) (ordered plan : list string)
    (remaining : gset string) :
  Resolver.order_loop enum deps_of fuel tg ordered remaining = Some plan →
  NoDup ordered → (∀ t, t ∈ ordered → t ∉ remaining) → NoDup plan.
Proof.
  revert ordered remaining.
  induction fuel as [|fuel IH]; intros ordered remaining Hloop Hnd Hdisj; [done|].
  rewrite order_loop_S in Hloop. case_bool_decide; [by injection Hloop as <-|].
  destruct (Resolver.order_scan deps_of enum tg ordered remaining)
    as [ordered' remaining'] eqn:E.
  destruct (order_scan_nodup _ _ _ _ _ _ E Hnd Hdisj) as [Hnd' Hdisj'].
  by eapply IH.
Qed.

Lemma resolve_nodup (fuel : nat) (tables plan : list string) (include_deps : bool) :
  NoDup tables →
  Resolver.resolve enum deps_of fuel tables include_deps = Some plan →
  NoDup plan.
Proof.
  intros Hnd. unfold Resolver.resolve. destruct include_deps; simpl.
  - destruct (Resolver.closure_loop deps_of fuel (list_to_set tables))
      as [tg|]; [|done].
    intros Hloop. eapply order_loop_nodup; [exact Hloop|apply NoDup_nil_2|].
    by intros t Ht%elem_of_nil.
  - by intros [= <-].
Qed.

(** The step of the innermost loop, folded over any list of names. *)
Lemma add_dep_fold (l : list string) (st : gset string * bool) :
  (∀ x, x ∈ (foldl add_dep st l).1 ↔ x ∈ st.1 ∨ x ∈ l)
  ∧ ((foldl add_dep st l).2 = true ↔ st.2 = true ∨ ∃ x, x ∈ l ∧ x ∉ st.1).
Proof.
  revert st. induction l as [|d l IH]; intros st; simpl.
  - split; [set_solver|]. split; [auto|]. intros [?|(x & Hx & _)]; [done|].
    by apply elem_of_nil in Hx.
  - destruct (IH (add_dep st d)) as [IH1 IH2]. split.
    + intros x. rewrite IH1. unfold add_dep. case_bool_decide; simpl; set_solver.
    + rewrite IH2. unfold add_dep. case_bool_decide as Hd; simpl.
      * split.
        -- intros [?|(x & Hx & Hn)]; [by left|]. right. exists x. set_solver.
        -- intros [?|(x & Hx & Hn)]; [by left|]. right. exists x.
           split; [|done]. apply elem_of_cons in Hx as [->|Hx]; done.
      * split; [|auto]. intros _. right. exists d. set_solver.
Qed.

Lemma closure_pass_over_spec (l : list string) (s : gset string) (flag : bool) :
  let r := foldl add_deps (s, flag) l in
  (∀ x, x ∈ r.1 ↔ x ∈ s ∨ ∃ t, t ∈ l ∧ x ∈ deps_of t)
  ∧ (r.2 = true ↔ flag = true ∨ ∃ t x, t ∈ l ∧ x ∈ deps_of t ∧ x ∉ s).
Proof.
  revert s flag. induction l as [|t l IH]; intros s flag; simpl.
  - split; [set_solver|]. split; [auto|]. intros [?|(t & x & Ht & _)]; [done|].
    by apply elem_of_nil in Ht.
  - unfold Resolver.add_deps at 2 4.
    destruct (add_dep_fold (deps_of t) (s, flag)) as [A1 A2].
    destruct (foldl add_dep (s, flag) (deps_of t)) as [s1 f1] eqn:E1.
    simpl in A1, A2. destruct (IH s1 f1) as [IH1 IH2]. split.
    + intros x. rewrite IH1, A1. split.
      * intros [[?|?]|(t' & Ht' & Hx)]; [by left|right; exists t; set_solver|].
        right. exists t'. set_solver.
      * intros [?|(t' & Ht' & Hx)]; [by left; left|].
        apply elem_of_cons in Ht' as [->|Ht']; [by left; right|].
        right. by exists t'.
    + rewrite IH2, A2. split.
      * intros [[?|(x & Hx & Hn)]|(t' & x & Ht' & Hx & Hn)].
        -- by left.
        -- right. exists t, x. set_solver.
        -- right. exists t', x. split_and!; [set_solver|done|].
           intros Hs. apply Hn, A1. by left.
      * intros [?|(t' & x & Ht' & Hx & Hn)]; [by left; left|].
        apply elem_of_cons in Ht' as [->|Ht'].
        -- left. right. by exists x.
        -- destruct (decide (x ∈ s1)) as [Hin|Hout].
           ++ left. right. apply A1 in Hin as [?|?]; [done|]. by exists x.
           ++ right. by exists t', x.
Qed.

(** A pass adds exactly the direct dependencies of the tables it started
    from, and raises [added] exactly when one of them was missing. *)
Lemma closure_pass_over_elem (l : list string) (s : gset string) x :
  x ∈ (closure_pass_over l s).1 ↔ x ∈ s ∨ ∃ t, t ∈ l ∧ x ∈ deps_of t.
Proof. apply (closure_pass_over_spec l s false). Qed.

Lemma closure_pass_over_added (l : list string) (s : gset string) :
  (closure_pass_over l s).2 = true ↔ ∃ t x, t ∈ l ∧ x ∈ deps_of t ∧ x ∉ s.
Proof.
  unfold Resolver.closure_pass_over.
  destruct (closure_pass_over_spec l s false) as [_ ->]. naive_solver.
Qed.

(** The order in which the snapshot of the set is walked is immaterial. *)
Lemma closure_pass_any_order (l : list string) (s : gset string) :
  (∀ x, x ∈ l ↔ x ∈ s) → closure_pass_over l s = closure_pass s.
Proof.
  intros Hl. unfold Resolver.closure_pass.
  destruct (closure_pass_over l s) as [s1 f1] eqn:E1.
  destruct (closure_pass_over (elements s) s) as [s2 f2] eqn:E2.
  f_equal.
  - apply set_eq. intros x.
    pose proof (closure_pass_over_elem l s x) as H1.
    pose proof (closure_pass_over_elem (elements s) s x) as H2.
    rewrite E1 in H1. rewrite E2 in H2. simpl in *. rewrite H1, H2.
    setoid_rewrite elem_of_elements. setoid_rewrite Hl. done.
  - pose proof (closure_pass_over_added l s) as H1.
    pose proof (closure_pass_over_added (elements s) s) as H2.
    rewrite E1 in H1. rewrite E2 in H2. simpl in *.
    setoid_rewrite elem_of_elements in H2. setoid_rewrite Hl in H1.
    destruct f1, f2; try done.
    + symmetry. by apply H2, H1.
    + by apply H1, H2.
Qed.

Lemma closure_pass_elem (s : gset string) x :
  x ∈ (closure_pass s).1 ↔ x ∈ s ∨ ∃ t, t ∈ s ∧ x ∈ deps_of t.
Proof.
  unfold Resolver.closure_pass. rewrite closure_pass_over_elem.
  by setoid_rewrite elem_of_elements.
Qed.

Lemma closure_pass_added (s : gset string) :
  (closure_pass s).2 = true ↔ ∃ t x, t ∈ s ∧ x ∈ deps_of t ∧ x ∉ s.
Proof.
  unfold Resolver.closure_pass. rewrite closure_pass_over_added.
  by setoid_rewrite elem_of_elements.
Qed.

Lemma reachable_from_pass (s : gset string) x :
  reachable_from (closure_pass s).1 x ↔ reachable_from s x.
Proof.
  split; intros (r & Hr & Hrx).
  - apply closure_pass_elem in Hr as [Hr|(t & Ht & Hd)]; [by exists r|].
    exists t. split; [done|]. by eapply rtc_l.
  - exists r. split; [|done]. apply closure_pass_elem. by left.
Qed.

Lemma closed_reachable (s : gset string) x :
  (closure_pass s).2 = false → reachable_from s x → x ∈ s.
Proof.
  intros Hf (r & Hr & Hrx). induction Hrx as [|a b c Hab _ IH]; [done|].
  apply IH. destruct (decide (b ∈ s)) as [|Hn]; [done|].
  assert ((closure_pass s).2 = true) as Ht; [|by rewrite Ht in Hf].
  apply closure_pass_added. by exists a, b.
Qed.

(** Every dependency is a table of the enumeration. *)
Hypothesis deps_in_enum : ∀ t d, d ∈ deps_of t → d ∈ enum.

(** The fixed-point loop ends within one pass per table of the
    enumeration still outside the set, plus the pass that adds nothing,
    and returns the tables reachable from where it started. *)
Lemma closure_loop_spec (fuel : nat) (s : gset string) :
  size (list_to_set enum ∖ s : gset string) < fuel →
  ∃ c, closure_loop fuel s = Some c ∧ ∀ x, x ∈ c ↔ reachable_from s x.
Proof.
  revert s. induction fuel as [|fuel IH]; intros s Hsz; [lia|].
  simpl. destruct (closure_pass s) as [s' added] eqn:E.
  pose proof (closure_pass_elem s) as Hel.
  pose proof (closure_pass_added s) as Had.
  pose proof (reachable_from_pass s) as Hre.
  pose proof (closed_reachable s) as Hcl.
  rewrite E in Hel, Had, Hre, Hcl. simpl in *. destruct added.
  - destruct Had as [Had _]. destruct (Had eq_refl) as (t & x & Ht & Hx & Hn).
    destruct (IH s') as (c & Hc & Hcx).
    + assert ((list_to_set enum ∖ s' : gset string) ⊂ list_to_set enum ∖ s) as Hsub.
      { apply strict_spec_alt. split.
        - intros y. rewrite !elem_of_difference, Hel. naive_solver.
        - intros Heq. assert (x ∈ (list_to_set enum ∖ s : gset string)) as Hin.
          { apply elem_of_difference. split; [|done].
            apply elem_of_list_to_set. by eapply deps_in_enum. }
          rewrite <- Heq in Hin. apply elem_of_difference in Hin as [_ Hin].
          apply Hin, Hel. right. by exists t. }
      apply subset_size in Hsub. lia.
    + exists c. split; [done|]. intros y. by rewrite Hcx, Hre.
  - exists s'. split; [done|]. intros y.
    assert (s' = s) as ->.
    { apply set_eq. intros z. rewrite Hel. split; [|by left].
      intros [?|(t & Ht & Hz)]; [done|]. apply Hcl; [done|].
      exists t. split; [done|]. by apply rtc_once. }
    split; [|by apply Hcl]. intros Hy. by exists y.
Qed.

#[local] Abbreviation order_scan := (order_scan deps_of).
#[local] Abbreviation order_loop := (order_loop enum deps_of).
#[local] Abbreviation deps_placed := (deps_placed deps_of).

Lemma order_scan_skip (skip rest : list string) tg ordered (remaining : gset string) :
  (∀ x, x ∈ skip → x ∉ remaining) →
  order_scan (skip ++ rest) tg ordered remaining
  = order_scan rest tg ordered remaining.
Proof.
  induction skip as [|a skip IH]; intros Hskip; [done|]. simpl.
  rewrite bool_decide_eq_false_2 by (apply Hskip; left). simpl.
  apply IH. intros x Hx. apply Hskip. by right.
Qed.

Lemma first_selected (tg : gset string) (post : list string) x :
  x ∈ post → x ∈ tg →
  ∃ skip t post', post = skip ++ t :: post' ∧ (∀ y, y ∈ skip → y ∉ tg) ∧ t ∈ tg.
Proof.
  induction post as [|a post IH]; intros Hx Htg; [by apply elem_of_nil in Hx|].
  destruct (decide (a ∈ tg)) as [Ha|Ha].
  - exists [], a, post. split_and!; [done| |done]. intros y Hy.
    by apply elem_of_nil in Hy.
  - apply elem_of_cons in Hx as [->|Hx]; [done|].
    destruct (IH Hx Htg) as (skip & t & post' & -> & Hskip & Ht).
    exists (a :: skip), t, post'. split_and!; [done| |done].
    intros y Hy. apply elem_of_cons in Hy as [->|Hy]; [done|]. by apply Hskip.
Qed.

Hypothesis enum_nodup : NoDup enum.

(** The enumeration lists every table after the tables it depends on. *)
Hypothesis deps_earlier :
  ∀ pre t post, enum = pre ++ t :: post → ∀ d, d ∈ deps_of t → d ∈ pre.

(** Invariant of the ordering loop: a prefix [pre] of the enumeration has
    been dealt with, [ordered] is what it contributes and [remaining] is
    what the rest will. *)
Lemma order_loop_spec (fuel : nat) (tg : gset string) (pre post : list string)
    (remaining : gset string) :
  enum = pre ++ post →
  (∀ x, x ∈ remaining ↔ x ∈ tg ∧ x ∈ post) →
  length post < fuel →
  order_loop fuel tg (filter (.∈ tg) pre) remaining = Some (filter (.∈ tg) enum).
Proof.
  revert pre post remaining.
  induction fuel as [|fuel IH]; intros pre post remaining Henum Hrem Hlen; [lia|].
  simpl. case_bool_decide as Hempty.
  - f_equal. rewrite Henum, filter_app.
    assert (filter (.∈ tg) post = []) as ->; [|by rewrite app_nil_r].
    apply filter_none. intros x Hx Htg.
    assert (x ∈ remaining) as Hin by by apply Hrem.
    rewrite Hempty in Hin. by apply not_elem_of_empty in Hin.
  - apply set_choose_L in Hempty as [x Hx]. apply Hrem in Hx as [Hxtg Hxpost].
    destruct (first_selected tg post x Hxpost Hxtg)
      as (skip & t & post' & -> & Hskip & Ht).
    assert (NoDup (pre ++ skip ++ t :: post')) as Hnd by by rewrite <- Henum.
    assert (order_scan enum tg (filter (.∈ tg) pre) remaining
            = (filter (.∈ tg) pre ++ [t], remaining ∖ {[t]})) as ->.
    { rewrite Henum, app_assoc, order_scan_skip.
      - simpl. rewrite bool_decide_eq_true_2; [|apply Hrem; set_solver].
        assert (deps_placed (filter (.∈ tg) pre) tg t = true) as ->; [|done].
        apply forallb_forall. intros d Hd%list_elem_of_In.
        apply orb_true_iff. destruct (decide (d ∈ tg)) as [Hdtg|Hdtg].
        + left. apply bool_decide_eq_true_2, list_elem_of_filter. split; [done|].
          assert (d ∈ pre ++ skip) as Hin.
          { eapply deps_earlier; [|done]. by rewrite Henum, app_assoc. }
          apply elem_of_app in Hin as [?|Hin]; [done|]. by apply Hskip in Hin.
        + right. by rewrite bool_decide_eq_false_2.
      - intros y Hy Hyr. apply Hrem in Hyr as [Hytg Hypost].
        apply elem_of_app in Hy as [Hy|Hy]; [|by apply Hskip in Hy].
        apply NoDup_app in Hnd as (_ & Hdisj & _). by apply (Hdisj y). }
    assert (filter (.∈ tg) pre ++ [t] = filter (.∈ tg) (pre ++ skip ++ [t])) as ->.
    { rewrite !filter_app.
      assert (filter (.∈ tg) skip = []) as ->.
      { apply filter_none. intros y Hy. by apply Hskip. }
      simpl. by rewrite filter_cons_True. }
    apply IH with (post := post').
    + rewrite Henum. by rewrite <- !app_assoc.
    + intros y. rewrite elem_of_difference, elem_of_singleton, Hrem.
      apply NoDup_app in Hnd as (_ & _ & Hnd).
      apply NoDup_app in Hnd as (_ & _ & Hnd). apply NoDup_cons in Hnd as [Hnt _].
      rewrite elem_of_app, elem_of_cons. split.
      * intros [[Hytg [Hy|[->|Hy]]] Hne]; [by apply Hskip in Hy|done|done].
      * intros [Hytg Hy]. split; [auto|]. by intros ->.
    + rewrite length_app in Hlen. simpl in Hlen. lia.
Qed.


(** A selection of the enumeration keeps dependencies first. *)
Lemma filter_enum_deps_first (tg : gset string) :
  Resolver.deps_first deps_of (filter (.∈ tg) enum).
Proof.
  intros i t d Hi Hd Hdin.
  apply list_elem_of_filter in Hdin as [Hdtg Hden].
  assert (t ∈ enum) as Hten.
  { apply list_elem_of_lookup_2 in Hi. by apply list_elem_of_filter in Hi as [_ ?]. }
  apply list_elem_of_split in Hten as (e1 & e2 & Henum).
  assert (d ∈ e1) as Hde1 by by eapply deps_earlier.
  assert (t ∈ tg) as Httg.
  { apply list_elem_of_lookup_2 in Hi. by apply list_elem_of_filter in Hi as [? _]. }
  assert (filter (.∈ tg) enum = filter (.∈ tg) e1 ++ t :: filter (.∈ tg) e2) as Hsplit.
  { by rewrite Henum, filter_app, filter_cons_True. }
  assert (t ∉ e1) as Hte1.
  { rewrite Henum in enum_nodup. apply NoDup_app in enum_nodup as (_ & Hdisj & _).
    intros Hin. apply (Hdisj t Hin). by left. }
  assert (i = length (filter (.∈ tg) e1)) as ->.
  { rewrite Hsplit in Hi.
    destruct (decide (i < length (filter (.∈ tg) e1))) as [Hlt|Hge].
    - rewrite lookup_app_l in Hi by done. apply list_elem_of_lookup_2 in Hi.
      by apply list_elem_of_filter in Hi as [_ ?].
    - destruct (decide (i = length (filter (.∈ tg) e1))) as [|Hne]; [done|].
      rewrite lookup_app_r in Hi by lia.
      destruct (i - length (filter (.∈ tg) e1)) as [|k] eqn:Ek; [lia|].
      simpl in Hi. apply list_elem_of_lookup_2 in Hi.
      apply list_elem_of_filter in Hi as [_ Hi].
      rewrite Henum in enum_nodup. apply NoDup_app in enum_nodup as (_ & _ & Hnd).
      by apply NoDup_cons in Hnd as [? _]. }
  assert (d ∈ filter (.∈ tg) e1) as Hin by by apply list_elem_of_filter.
  apply list_elem_of_lookup_1 in Hin as [j Hj]. exists j. split.
  - by eapply lookup_lt_Some.
  - rewrite Hsplit. rewrite lookup_app_l; [done|]. by eapply lookup_lt_Some.
Qed.

(** [resolve] with dependencies included, for requested tables of the
    enumeration: the plan is the enumeration restricted to the closure. *)
Lemma resolve_spec (fuel : nat) (requested : list string) :
  (∀ t, t ∈ requested → t ∈ enum) →
  length enum < fuel →
  ∃ c : gset string,
    (∀ t, t ∈ c ↔ Resolver.in_closure deps_of requested t)
    ∧ Resolver.resolve enum deps_of fuel requested true
      = Some (filter (.∈ c) enum)
    ∧ (∀ t, t ∈ c → t ∈ enum).
Proof.
  intros Hreq Hfuel. unfold Resolver.resolve. simpl.
  destruct (closure_loop_spec fuel (list_to_set requested)) as (c & -> & Hc).
  { eapply Nat.le_lt_trans; [|done].
    etrans; [apply (subseteq_size _ (list_to_set enum)); set_solver|].
    apply size_list_to_set_le. }
  assert (∀ t, t ∈ c ↔ Resolver.in_closure deps_of requested t) as Hcl.
  { intros t. rewrite Hc. unfold Resolver.reachable_from, Resolver.in_closure.
    by setoid_rewrite elem_of_list_to_set. }
  assert (∀ t, t ∈ c → t ∈ enum) as Hsub.
  { intros t Ht. apply Hcl in Ht as (r & Hr & Hrt). apply Hreq in Hr.
    induction Hrt as [|a b z Hab _ IH]; [done|].
    apply IH. by eapply deps_in_enum. }
  exists c. split_and!; [done| |done].
  apply (order_loop_spec fuel c [] enum c); [done| |done].
  intros x. split; [|by intros [? _]]. intros Hx. split; [done|by apply Hsub].
Qed.


End Graph.
End ResolverFacts.

(** ** The fixed schema *)

Lemma ALL_TABLES_nodup : NoDup ALL_TABLES.
Proof. apply (bool_decide_unpack _). by vm_compute. Qed.

Lemma table_deps_cases (t : string) :
  table_deps t = []
  ∨ (t = "contacts" ∧ table_deps t = ["companies"])
  ∨ (t = "deals" ∧ table_deps t = ["companies"; "contacts"])
  ∨ (t = "deal_products" ∧ table_deps t = ["deals"; "products"])
  ∨ (t = "activities" ∧ table_deps t = ["contacts"])
  ∨ (t = "notes" ∧ table_deps t = ["contacts"])
  ∨ (t = "tasks" ∧ table_deps t = ["deals"]).
Proof.
  unfold table_deps. destruct (TABLE_DEPENDENCIES !! t) as [l|] eqn:E; [|by left].
  apply elem_of_list_to_map_2 in E.
  repeat (apply elem_of_cons in E as [[= -> ->]|E]); [naive_solver..|].
  by apply elem_of_nil in E.
Qed.

Lemma table_deps_in_enum (t d : string) : d ∈ table_deps t → d ∈ ALL_TABLES.
Proof.
  intros Hd.
  destruct (table_deps_cases t) as [H|[[_ H]|[[_ H]|[[_ H]|[[_ H]|[[_ H]|[_ H]]]]]]];
    rewrite H in Hd; [by apply elem_of_nil in Hd|..];
    repeat (apply elem_of_cons in Hd as [->|Hd]; [compute_done|]);
    by apply elem_of_nil in Hd.
Qed.

(** [ALL_TABLES] names every table after the tables it depends on. *)
Lemma table_deps_earlier (pre : list string) (t : string) (post : list string) :
  ALL_TABLES = pre ++ t :: post → ∀ d, d ∈ table_deps t → d ∈ pre.
Proof.
  intros Henum d Hd.
  do 8 (destruct pre as [|? pre];
        [ injection Henum as <- <-; vm_compute in Hd;
          repeat (apply elem_of_cons in Hd as [->|Hd]; [compute_done|]);
          by apply elem_of_nil in Hd
        | injection Henum as <- Henum ]).
  by destruct pre.
Qed.

Example resolve_deal_products :
  resolve_dependencies 9 ["deal_products"] true
  = Some ["companies"; "contacts"; "deals"; "products"; "deal_products"].
Proof. vm_compute. reflexivity. Qed.

Example resolve_no_deps_keeps_order :
  resolve_dependencies 0 ["tasks"; "companies"] false = Some ["tasks"; "companies"].
Proof. reflexivity. Qed.

(** C1: for requested tables of the schema, [resolve_dependencies] with
    dependencies included returns a plan whose tables are exactly the
    transitive closure of the request under [TABLE_DEPENDENCIES], and every
    dependency of a table of the plan that is itself in the plan stands
    before it.  Nine rounds of each loop are enough. *)
Theorem resolve_dependencies_closure_and_order
    (fuel : nat) (requested : list string) :
  (∀ t, t ∈ requested → t ∈ ALL_TABLES) →
  9 ≤ fuel →
  ∃ plan,
    resolve_dependencies fuel requested true = Some plan
    ∧ (∀ t, t ∈ plan ↔ Resolver.in_closure table_deps requested t)
    ∧ Resolver.deps_first table_deps plan.
Proof.
  intros Hreq Hfuel.
  destruct (ResolverFacts.resolve_spec ALL_TABLES table_deps table_deps_in_enum
              ALL_TABLES_nodup table_deps_earlier fuel requested Hreq)
    as (c & Hc & Hres & Hsub); [simpl; lia|].
  exists (filter (.∈ c) ALL_TABLES). split_and!; [done| |].
  - intros t. rewrite list_elem_of_filter, <- Hc. naive_solver.
  - apply ResolverFacts.filter_enum_deps_first;
      [apply ALL_TABLES_nodup|apply table_deps_earlier].
Qed.

Lemma resolve_dependencies_closure_and_order_witness :
  ∃ plan,
    resolve_dependencies 9 ["tasks"; "notes"] true = Some plan
    ∧ (∀ t, t ∈ plan ↔ Resolver.in_closure table_deps ["tasks"; "notes"] t)
    ∧ Resolver.deps_first table_deps plan.
Proof.
  apply (resolve_dependencies_closure_and_order 9 ["tasks"; "notes"]); [|lia].
  intros t Ht. repeat (apply elem_of_cons in Ht as [->|Ht]; [compute_done|]).
  by apply elem_of_nil in Ht.
Defined.

(** C10: the plan is [ALL_TABLES] restricted to the closure, in
    enumeration order; it has no duplicates, and requests with the same
    tables give the same plan whatever the fuel above eight. *)
Theorem resolve_dependencies_is_filtered_enumeration
    (fuel : nat) (requested : list string) :
  (∀ t, t ∈ requested → t ∈ ALL_TABLES) →
  9 ≤ fuel →
  ∃ closure : gset string,
    (∀ t, t ∈ closure ↔ Resolver.in_closure table_deps requested t)
    ∧ resolve_dependencies fuel requested true
      = Some (filter (.∈ closure) ALL_TABLES)
    ∧ NoDup (filter (.∈ closure) ALL_TABLES)
    ∧ ∀ fuel' requested',
        9 ≤ fuel' → (∀ t, t ∈ requested' ↔ t ∈ requested) →
        resolve_dependencies fuel' requested' true
        = resolve_dependencies fuel requested true.
Proof.
  intros Hreq Hfuel.
  destruct (ResolverFacts.resolve_spec ALL_TABLES table_deps table_deps_in_enum
              ALL_TABLES_nodup table_deps_earlier fuel requested Hreq)
    as (c & Hc & Hres & Hsub); [simpl; lia|].
  exists c. split_and!; [done|done|apply NoDup_filter, ALL_TABLES_nodup|].
  intros fuel' requested' Hfuel' Hsame.
  destruct (ResolverFacts.resolve_spec ALL_TABLES table_deps table_deps_in_enum
              ALL_TABLES_nodup table_deps_earlier fuel' requested')
    as (c' & Hc' & Hres' & _); [by intros t Ht%Hsame%Hreq|simpl; lia|].
  unfold resolve_dependencies. rewrite Hres, Hres'.
  assert (c' = c) as ->; [|done].
  apply set_eq. intros t. rewrite Hc, Hc'. unfold Resolver.in_closure.
  by setoid_rewrite Hsame.
Qed.

Lemma resolve_dependencies_is_filtered_enumeration_witness :
  ∃ closure : gset string,
    (∀ t, t ∈ closure ↔ Resolver.in_closure table_deps ["deal_products"] t)
    ∧ resolve_dependencies 9 ["deal_products"] true
      = Some (filter (.∈ closure) ALL_TABLES)
    ∧ NoDup (filter (.∈ closure) ALL_TABLES)
    ∧ ∀ fuel' requested',
        9 ≤ fuel' → (∀ t, t ∈ requested' ↔ t ∈ ["deal_products"]) →
        resolve_dependencies fuel' requested' true
        = resolve_dependencies 9 ["deal_products"] true.
Proof.
  apply (resolve_dependencies_is_filtered_enumeration 9 ["deal_products"]); [|lia].
  intros t Ht. repeat (apply elem_of_cons in Ht as [->|Ht]; [compute_done|]).
  by apply elem_of_nil in Ht.
Defined.

(** ** String facts *)

Module StringFacts.

Lemma app_cons (x : ascii) (a b : string) : String x a +:+ b = String x (a +:+ b).
Proof. done. Qed.

Lemma app_nil_l (b : string) : "" +:+ b = b.
Proof. done. Qed.

Ltac norm := rewrite ?app_cons, ?app_nil_l; simpl.

Lemma app_assoc_s (a b c : string) : (a +:+ b) +:+ c = a +:+ b +:+ c.
Proof. induction a as [|x a IH]; [done|]. norm. by f_equal. Qed.

Lemma app_empty_r (a : string) : a +:+ "" = a.
Proof. induction a as [|x a IH]; [done|]. norm. by f_equal. Qed.

Lemma colon_not_space : is_space ":" = false.
Proof. done. Qed.

Lemma lstrip_blank (w : string) : blank w → lstrip w = "".
Proof.
  induction w as [|c w IH]; simpl; [done|].
  intros [Hc Hw]%andb_True. destruct (is_space c); [auto|done].
Qed.

Lemma lstrip_blank_app (w s : string) : blank w → lstrip (w +:+ s) = lstrip s.
Proof.
  induction w as [|c w IH]; norm; [done|].
  intros [Hc Hw]%andb_True. destruct (is_space c); [auto|done].
Qed.

Lemma lstrip_app_not_blank (s w : string) :
  blank s = false → lstrip (s +:+ w) = lstrip s +:+ w.
Proof.
  induction s as [|c s IH]; norm; [done|].
  destruct (is_space c); simpl; [auto|done].
Qed.

Lemma lstrip_lstrip (s : string) : lstrip (lstrip s) = lstrip s.
Proof.
  induction s as [|c s IH]; simpl; [done|].
  destruct (is_space c) eqn:E; [done|]. simpl. by rewrite E.
Qed.

Lemma rstrip_blank (w : string) : blank w → rstrip w = "".
Proof.
  induction w as [|c w IH]; simpl; [done|].
  intros [Hc Hw]%andb_True. rewrite IH by done. by destruct (is_space c).
Qed.

Lemma rstrip_app_blank (s w : string) : blank w → rstrip (s +:+ w) = rstrip s.
Proof.
  intros Hw. induction s as [|c s IH]; norm; [by apply rstrip_blank|].
  by rewrite IH.
Qed.

Lemma rstrip_rstrip (s : string) : rstrip (rstrip s) = rstrip s.
Proof.
  induction s as [|c s IH]; simpl; [done|].
  destruct (rstrip s) as [|d r] eqn:E.
  - destruct (is_space c) eqn:Ec; simpl; [done|]. by rewrite Ec.
  - simpl in *. by rewrite IH.
Qed.

(** A character that is no whitespace stops both strippings. *)
Lemma lstrip_app_char (s : string) (c : ascii) (t : string) :
  is_space c = false → lstrip (s +:+ String c t) = lstrip s +:+ String c t.
Proof.
  intros Hc. induction s as [|d s IH]; norm; [by rewrite Hc|].
  by destruct (is_space d).
Qed.

Lemma rstrip_char (c : ascii) (t : string) :
  is_space c = false → rstrip (String c t) = String c (rstrip t).
Proof. intros Hc. simpl. rewrite Hc. by destruct (rstrip t). Qed.

Lemma rstrip_app_char (s : string) (c : ascii) (t : string) :
  is_space c = false → rstrip (s +:+ String c t) = s +:+ String c (rstrip t).
Proof.
  intros Hc. induction s as [|d s IH]; [by apply rstrip_char|].
  norm. rewrite IH. by destruct s.
Qed.

Lemma lstrip_rstrip (s : string) : lstrip (rstrip s) = rstrip (lstrip s).
Proof.
  induction s as [|c s IH]; [done|].
  destruct (is_space c) eqn:Ec.
  - simpl. rewrite Ec. destruct (rstrip s) as [|d r] eqn:E.
    + by rewrite <- IH.
    + rewrite <- IH. simpl. by rewrite Ec.
  - simpl lstrip at 2. rewrite Ec. rewrite rstrip_char by done.
    simpl. by rewrite Ec.
Qed.

Lemma strip_lstrip (s : string) : strip (lstrip s) = strip s.
Proof. unfold strip. by rewrite lstrip_lstrip. Qed.

Lemma strip_rstrip (s : string) : strip (rstrip s) = strip s.
Proof. unfold strip. by rewrite lstrip_rstrip, rstrip_rstrip. Qed.

Lemma strip_strip (s : string) : strip (strip s) = strip s.
Proof. unfold strip at 2. by rewrite strip_rstrip, strip_lstrip. Qed.

Lemma strip_pad (w1 s w2 : string) :
  blank w1 → blank w2 → strip (w1 +:+ s +:+ w2) = strip s.
Proof.
  intros H1 H2. unfold strip. rewrite lstrip_blank_app by done.
  destruct (blank s) eqn:Es.
  - rewrite lstrip_blank_app by by rewrite Es.
    rewrite (lstrip_blank w2), (lstrip_blank s); [done|by rewrite Es|done].
  - rewrite lstrip_app_not_blank by done. by apply rstrip_app_blank.
Qed.

Lemma strip_around_colon (x y : string) :
  strip (x +:+ ":" +:+ y) = lstrip x +:+ ":" +:+ rstrip y.
Proof.
  unfold strip. change (":" +:+ y) with (String ":" y).
  rewrite lstrip_app_char by done. by rewrite rstrip_app_char.
Qed.

Lemma contains_app (c : ascii) (s t : string) :
  contains c (s +:+ t) = contains c s || contains c t.
Proof.
  induction s as [|d s IH]; norm; [done|]. by case_bool_decide.
Qed.

Lemma contains_blank (w : string) : blank w → contains ":" w = false.
Proof.
  induction w as [|c w IH]; simpl; [done|]. intros [Hc Hw]%andb_True.
  case_bool_decide as E; [|auto]. subst c. done.
Qed.

Lemma contains_lstrip (c : ascii) (s : string) :
  contains c s = false → contains c (lstrip s) = false.
Proof.
  induction s as [|d s IH]; simpl; [done|]. case_bool_decide; [done|].
  intros Hs. destruct (is_space d); [auto|]. simpl.
  by rewrite bool_decide_eq_false_2.
Qed.

Lemma contains_rstrip (c : ascii) (s : string) :
  contains c s = false → contains c (rstrip s) = false.
Proof.
  induction s as [|d s IH]; simpl; [done|]. case_bool_decide as E; [done|].
  intros Hs. specialize (IH Hs). destruct (rstrip s) as [|e r].
  - destruct (is_space d); simpl; [done|]. by rewrite bool_decide_eq_false_2.
  - simpl in *. by rewrite bool_decide_eq_false_2.
Qed.

Lemma contains_strip (c : ascii) (s : string) :
  contains c s = false → contains c (strip s) = false.
Proof. intros Hs. by apply contains_rstrip, contains_lstrip. Qed.

Lemma split_once_none (c : ascii) (s : string) :
  contains c s = false → split_once c s = None.
Proof.
  induction s as [|d s IH]; simpl; [done|]. case_bool_decide; [done|].
  intros Hs. by rewrite IH.
Qed.

Lemma split_once_app (c : ascii) (s t : string) :
  contains c s = false → split_once c (s +:+ String c t) = Some (s, t).
Proof.
  induction s as [|d s IH]; norm.
  - by rewrite bool_decide_eq_true_2.
  - case_bool_decide; [done|]. intros Hs. by rewrite IH.
Qed.

Lemma split_nonempty (c : ascii) (s : string) : split c s ≠ [].
Proof.
  destruct s as [|d s]; simpl; [done|].
  case_bool_decide; [done|]. by destruct (split c s).
Qed.

Lemma split_single (c : ascii) (s p : string) : split c s = [p] → s = p.
Proof.
  revert p. induction s as [|d s IH]; intros p; simpl.
  - by intros [= <-].
  - case_bool_decide.
    + intros [= <- Hs]. by apply split_nonempty in Hs.
    + destruct (split c s) as [|q qs] eqn:E; [by apply split_nonempty in E|].
      intros [= <- ->]. by rewrite (IH q).
Qed.

Lemma split_once_contains (c : ascii) (s a b : string) :
  split_once c s = Some (a, b) → contains c s = true.
Proof.
  destruct (contains c s) eqn:E; [done|]. by rewrite split_once_none.
Qed.

Lemma contains_split_once (c : ascii) (s : string) :
  contains c s = true → ∃ a b, split_once c s = Some (a, b).
Proof.
  induction s as [|d s IH]; simpl; [done|]. case_bool_decide; [by eauto|].
  intros (a & b & ->)%IH. simpl. eauto.
Qed.

(** Characters that [lower] can send to a letter of [all] are neither
    whitespace nor separators. *)
Lemma lower_char_plain (c : ascii) :
  lower_char c = "a"%char ∨ lower_char c = "l"%char → plain c.
Proof.
  destruct c as [[] [] [] [] [] [] [] []]; vm_compute; intros [?|?]; done.
Qed.

Lemma lower_all_chars (s : string) :
  lower s = "all" →
  ∃ a b c, s = String a (String b (String c "")) ∧ plain a ∧ plain b ∧ plain c.
Proof.
  destruct s as [|a [|b [|c [|d s]]]]; try done.
  intros [= Ha Hb Hc]. exists a, b, c.
  split_and!; [done|by apply lower_char_plain; auto..].
Qed.

Lemma plain_not_space (c : ascii) : plain c → is_space c = false.
Proof. unfold plain. by destruct (is_space c). Qed.

Lemma blank_prefix_plain (w s : string) (a : ascii) (t : string) :
  blank w → plain a → w +:+ s = String a t → w = "".
Proof.
  destruct w as [|x w]; [done|]. norm. intros [Hx _]%andb_True Ha [= -> _].
  apply plain_not_space in Ha. by rewrite Ha in Hx.
Qed.

(** An argument that reads [all] cannot be a padded version of another
    string. *)
Lemma lower_all_unpadded (s w1 p w2 : string) :
  lower s = "all" → blank w1 → blank w2 → s = w1 +:+ p +:+ w2 → s = p.
Proof.
  intros (a & b & c & -> & Ha & Hb & Hc)%lower_all_chars H1 H2 Heq.
  symmetry in Heq. pose proof (blank_prefix_plain _ _ _ _ H1 Ha Heq) as ->.
  rewrite app_nil_l in Heq. clear H1.
  destruct p as [|a' [|b' [|c' p]]].
  - rewrite app_nil_l in Heq. subst w2. simpl in H2.
    apply plain_not_space in Ha. by rewrite Ha in H2.
  - rewrite !app_cons, app_nil_l in Heq. injection Heq as -> ->.
    simpl in H2. apply plain_not_space in Hb. by rewrite Hb in H2.
  - rewrite !app_cons, app_nil_l in Heq. injection Heq as -> -> ->.
    simpl in H2. apply plain_not_space in Hc. by rewrite Hc in H2.
  - rewrite !app_cons in Heq. injection Heq as -> -> -> Heq.
    destruct p; [|done]. by destruct w2.
Qed.

Lemma lower_all_no_colon (s : string) : lower s = "all" → contains ":" s = false.
Proof.
  intros (a & b & c & -> & Ha & Hb & Hc)%lower_all_chars. simpl.
  unfold plain in *.
  repeat case_bool_decide; try done; subst; simpl in *;
    rewrite ?andb_false_r in *; done.
Qed.
End StringFacts.

(** ** Facts about the table-spec parser *)

Module ParserFacts.
Import StringFacts.

Lemma dict_get_set_eq {V} (k : string) (v : V) (d : list (string * V)) :
  dict_get k (dict_set k v d) = Some v.
Proof.
  induction d as [|[k' v'] d IH]; simpl.
  - by rewrite bool_decide_eq_true_2.
  - case_bool_decide as E; simpl.
    + by rewrite bool_decide_eq_true_2.
    + by rewrite bool_decide_eq_false_2.
Qed.

Lemma dict_get_set_ne {V} (k k' : string) (v : V) (d : list (string * V)) :
  k ≠ k' → dict_get k (dict_set k' v d) = dict_get k d.
Proof.
  intros Hne. induction d as [|[k0 v0] d IH]; simpl.
  - by rewrite bool_decide_eq_false_2.
  - case_bool_decide as E; simpl.
    + subst k0. by rewrite !bool_decide_eq_false_2.
    + case_bool_decide; [done|]. apply IH.
Qed.

Lemma parse_entry_bare (dc : option Z) (q : string) :
  contains ":" q = false →
  parse_entry dc (strip q) = Ret (strip q, bare_count dc (strip q)).
Proof.
  intros Hq. unfold parse_entry.
  rewrite (contains_strip ":" q Hq). by rewrite strip_strip.
Qed.

Lemma parse_entry_colon (dc : option Z) (x y : string) :
  contains ":" x = false →
  parse_entry dc (strip (x +:+ ":" +:+ y))
  = match int_of_string (strip y) with
    | Some n => Ret (strip x, n)
    | None => Raise (ValueError (strip y))
    end.
Proof.
  intros Hx. unfold parse_entry. rewrite strip_around_colon.
  rewrite contains_app, orb_true_r by done.
  change (":" +:+ rstrip y) with (String ":" (rstrip y)).
  rewrite split_once_app by by apply contains_lstrip.
  by rewrite strip_lstrip, strip_rstrip.
Qed.

(** Padding a piece does not change what its token parses to. *)
Lemma parse_entry_padded (dc : option Z) (p p' : string) :
  padded p p' → parse_entry dc (strip p') = parse_entry dc (strip p).
Proof.
  intros (w1 & w2 & H1 & H2 & [[Hp ->]|(a & b & w3 & w4 & H3 & H4 & Ha & -> & ->)]).
  - by rewrite strip_pad.
  - rewrite (parse_entry_colon dc a b Ha).
    replace (w1 +:+ a +:+ w2 +:+ ":" +:+ w3 +:+ b +:+ w4)
      with ((w1 +:+ a +:+ w2) +:+ ":" +:+ (w3 +:+ b +:+ w4))
      by by rewrite !app_assoc_s.
    rewrite parse_entry_colon.
    + by rewrite !strip_pad.
    + rewrite !contains_app, Ha, !contains_blank; done.
Qed.

Lemma parse_entries_padded (dc : option Z) (ps ps' : list string) acc :
  Forall2 padded ps ps' →
  parse_entries dc (strip <$> ps') acc = parse_entries dc (strip <$> ps) acc.
Proof.
  intros H. revert acc. induction H as [|p p' ps ps' Hp _ IH]; intros acc; [done|].
  simpl. rewrite (parse_entry_padded dc p p' Hp).
  destruct (parse_entry dc (strip p)) as [[t n]| |]; [|done..].
  case_bool_decide; [apply IH|done].
Qed.

Lemma parse_entry_table (dc : option Z) (spec t : string) (n : Z) :
  parse_entry dc spec = Ret (t, n) → t = entry_table spec.
Proof.
  unfold parse_entry, entry_table. destruct (contains ":" spec) eqn:E.
  - destruct (contains_split_once _ _ E) as (a & b & ->).
    destruct (int_of_string (strip b)); [|done]. by intros [= <- _].
  - rewrite split_once_none by done. by intros [= <- _].
Qed.

Lemma parse_entry_count_ok (dc : option Z) (spec : string) :
  entry_count_ok spec → ∃ n, parse_entry dc spec = Ret (entry_table spec, n).
Proof.
  unfold entry_count_ok, parse_entry, entry_table.
  destruct (contains ":" spec) eqn:E.
  - destruct (contains_split_once _ _ E) as (a & b & ->).
    intros [n Hn]%bool_decide_unpack. rewrite Hn. eauto.
  - rewrite split_once_none by done. eauto.
Qed.

Lemma parse_entry_no_timeout (dc : option Z) (spec : string) :
  parse_entry dc spec ≠ OutOfFuel.
Proof.
  unfold parse_entry. destruct (contains ":" spec); [|done].
  destruct (split_once ":" spec) as [[a b]|]; [|done].
  by destruct (int_of_string (strip b)).
Qed.

(** The loop stops at the first token that names no table of the schema,
    unless a count fails to parse first. *)
Lemma parse_entries_unknown (dc : option Z) (pre : list string) (tok : string)
    (post : list string) acc :
  Forall (λ t, entry_table t ∈ ALL_TABLES) pre →
  entry_table tok ∉ ALL_TABLES →
  (parse_entries dc (pre ++ tok :: post) acc = Raise (unknown_table (entry_table tok))
   ∨ ∃ lit, parse_entries dc (pre ++ tok :: post) acc = Raise (ValueError lit))
  ∧ (Forall entry_count_ok (pre ++ [tok]) →
     parse_entries dc (pre ++ tok :: post) acc
     = Raise (unknown_table (entry_table tok))).
Proof.
  intros Hpre Htok. revert acc. induction Hpre as [|p pre Hp _ IH]; intros acc.
  - simpl. destruct (parse_entry dc tok) as [[t n]|e|] eqn:E.
    + apply parse_entry_table in E as ->.
      rewrite bool_decide_eq_false_2 by done. by split; [left|].
    + split.
      * right. unfold parse_entry in E. destruct (contains ":" tok); [|done].
        destruct (split_once ":" tok) as [[a b]|]; [|by injection E as <-; eauto].
        destruct (int_of_string (strip b)); [done|]. injection E as <-. eauto.
      * intros [Hok _]%Forall_cons.
        destruct (parse_entry_count_ok dc tok Hok) as [n Hn]. congruence.
    + by apply parse_entry_no_timeout in E.
  - simpl. destruct (parse_entry dc p) as [[t n]|e|] eqn:E.
    + apply parse_entry_table in E as ->.
      rewrite bool_decide_eq_true_2 by done.
      destruct (IH (dict_set (entry_table p) n acc)) as [IH1 IH2].
      split; [done|]. intros [_ Hok]%Forall_cons. by apply IH2.
    + split.
      * right. unfold parse_entry in E. destruct (contains ":" p); [|done].
        destruct (split_once ":" p) as [[a b]|]; [|by injection E as <-; eauto].
        destruct (int_of_string (strip b)); [done|]. injection E as <-. eauto.
      * intros [Hok _]%Forall_cons.
        destruct (parse_entry_count_ok dc p Hok) as [n Hn]. congruence.
    + by apply parse_entry_no_timeout in E.
Qed.

(** A bare token fixes the count of its table, unless a token with a
    count names the same table. *)
Lemma parse_entries_bare (dc : option Z) (l : list string) (key : string)
    acc r :
  parse_entries dc l acc = Ret r →
  (∀ t, t ∈ l → contains ":" t = true → entry_table t ≠ key) →
  (∃ t, t ∈ l ∧ contains ":" t = false ∧ strip t = key)
  ∨ dict_get key acc = Some (bare_count dc key) →
  dict_get key r = Some (bare_count dc key).
Proof.
  revert acc. induction l as [|spec l IH]; intros acc Hr Hcolon Hkey.
  - simpl in Hr. injection Hr as <-. destruct Hkey as [(t & Ht & _)|?]; [|done].
    by apply elem_of_nil in Ht.
  - simpl in Hr. destruct (parse_entry dc spec) as [[t n]| |] eqn:E; [|done..].
    case_bool_decide; [|done].
    apply (IH _ Hr); [intros t' Ht'; apply Hcolon; by right|].
    destruct (decide (t = key)) as [->|Hne].
    + right. rewrite dict_get_set_eq. f_equal.
      destruct (contains ":" spec) eqn:Ec.
      * exfalso. apply (Hcolon spec); [by left|done|].
        symmetry. by eapply parse_entry_table.
      * unfold parse_entry in E. rewrite Ec in E. by injection E as <- <-.
    + rewrite dict_get_set_ne by done.
      destruct Hkey as [(t' & Ht' & Hb & Hs)|?]; [|by right].
      apply elem_of_cons in Ht' as [->|Ht']; [|left; by exists t'].
      unfold parse_entry in E. rewrite Hb in E. injection E as <- _. done.
Qed.

(** Assigning a key never lists it twice. *)
Lemma dict_set_keys {V} (k : string) (v : V) (d : list (string * V)) :
  dict_keys (dict_set k v d)
  = if bool_decide (k ∈ dict_keys d) then dict_keys d else dict_keys d ++ [k].
Proof.
  unfold dict_keys. induction d as [|[k' v'] d IH]; [done|]. simpl.
  destruct (decide (k' = k)) as [->|Hk].
  - rewrite !bool_decide_eq_true_2; [done|by left|done].
  - rewrite (bool_decide_eq_false_2 (k' = k)) by done.
    change (k' :: (dict_set k v d).*1
            = if bool_decide (k ∈ k' :: d.*1) then k' :: d.*1
              else (k' :: d.*1) ++ [k]).
    rewrite IH. destruct (decide (k ∈ d.*1)) as [Hin|Hin].
    + rewrite !bool_decide_eq_true_2; [done|by right|done].
    + rewrite !bool_decide_eq_false_2; [done| |done].
      intros [?|?]%elem_of_cons; [by subst|done].
Qed.

Lemma dict_set_keys_nodup {V} (k : string) (v : V) (d : list (string * V)) :
  NoDup (dict_keys d) → NoDup (dict_keys (dict_set k v d)).
Proof.
  intros Hnd. rewrite dict_set_keys. case_bool_decide as Hk; [done|].
  apply NoDup_app. split_and!; [done| |apply NoDup_singleton].
  by intros t Ht ->%list_elem_of_singleton.
Qed.

Lemma parse_entries_keys_nodup (dc : option Z) (l : list string) acc r :
  parse_entries dc l acc = Ret r → NoDup (dict_keys acc) → NoDup (dict_keys r).
Proof.
  revert acc. induction l as [|spec l IH]; intros acc Hr Hnd; simpl in Hr.
  - by injection Hr as <-.
  - destruct (parse_entry dc spec) as [[k n]| |]; [|done..].
    case_bool_decide; [|done].
    eapply IH; [exact Hr|]. by apply dict_set_keys_nodup.
Qed.

(** The loop fails on the first count that [int()] refuses, whatever
    the tokens after it. *)
Lemma parse_entries_bad_count (dc : option Z) (good : list string) (bad : string)
    (rest : list string) acc :
  Forall (λ t, entry_table t ∈ ALL_TABLES) good →
  Forall entry_count_ok good →
  ¬ entry_count_ok bad →
  parse_entries dc (good ++ bad :: rest) acc
  = Raise (ValueError (entry_count_str bad)).
Proof.
  intros Hknown Hgood Hbad. revert acc.
  induction Hknown as [|p good Hp _ IH]; intros acc.
  - simpl. unfold parse_entry, entry_count_ok, entry_count_str in *.
    destruct (contains ":" bad) eqn:E.
    + destruct (contains_split_once _ _ E) as (a & b & Hab).
      rewrite Hab in *. destruct (int_of_string (strip b)) as [n|] eqn:Hn; [|done].
      destruct Hbad. apply bool_decide_pack. by exists n.
    + rewrite split_once_none in Hbad by done. by destruct Hbad.
  - apply Forall_cons in Hgood as [Hok Hgood]. simpl.
    destruct (parse_entry_count_ok dc p Hok) as [n ->].
    rewrite bool_decide_eq_true_2 by done. by apply IH.
Qed.

Lemma main_parse_error (fuel : nat) (a : args) (w : world) (e : exn) :
  list_tables a = false →
  parse_table_spec (tables a) (count a) = Raise e →
  main fuel a w = (Raise e, w).
Proof.
  intros Hl He. unfold main. rewrite Hl. unfold mbind, M_bind, lift.
  by rewrite He.
Qed.
End ParserFacts.

Lemma default_count_known (t : string) :
  t ∈ ALL_TABLES → is_Some (DEFAULT_COUNTS !! t).
Proof.
  intros Ht. repeat (apply elem_of_cons in Ht as [->|Ht]; [by vm_compute; eauto|]).
  by apply elem_of_nil in Ht.
Qed.

Lemma parse_entries_known (dc : option Z) (l : list string) acc r :
  parse_entries dc l acc = Ret r → ∀ t, t ∈ l → entry_table t ∈ ALL_TABLES.
Proof.
  revert acc. induction l as [|spec l IH]; intros acc Hr t Ht.
  - by apply elem_of_nil in Ht.
  - simpl in Hr. destruct (parse_entry dc spec) as [[k n]| |] eqn:E; [|done..].
    case_bool_decide as Hk; [|done].
    apply elem_of_cons in Ht as [->|Ht]; [|by eapply IH].
    by apply ParserFacts.parse_entry_table in E as <-.
Qed.


Lemma split_no_sep (c : ascii) (s : string) : contains c s = false → split c s = [s].
Proof.
  induction s as [|d s IH]; simpl; [done|]. case_bool_decide; [done|].
  intros Hs. by rewrite IH.
Qed.

Lemma lower_all_no_comma (s : string) : lower s = "all" → contains "," s = false.
Proof.
  intros (a & b & c & -> & Ha & Hb & Hc)%StringFacts.lower_all_chars. simpl.
  unfold plain in *.
  repeat case_bool_decide; try done; subst; simpl in *;
    rewrite ?andb_false_r in *; done.
Qed.

Example parse_bogus :
  parse_table_spec "bogus" None = Raise (unknown_table "bogus").
Proof. by vm_compute. Qed.

Example parse_negative_count :
  parse_table_spec "deals:-3" None = Ret [("deals", (-3)%Z)].
Proof. by vm_compute. Qed.

(** C6: [parse_table_spec("all", None)] is the whole enumeration with the
    built-in counts; [parse_table_spec("companies:50,contacts", 100)] is
    [{companies: 50, contacts: 100}]; an argument that reads [all] in any
    letter case maps every table to the resolved default; and a token
    without a count gives its table [default_count] when that is given and
    not zero, else the table's built-in count, as long as no token with a
    count names the same table. *)
Theorem parse_table_spec_counts :
  parse_table_spec "all" None
  = Ret [ ("companies", 100%Z); ("contacts", 500%Z); ("deals", 200%Z);
          ("products", 50%Z); ("deal_products", 300%Z); ("activities", 400%Z);
          ("notes", 300%Z); ("tasks", 150%Z) ]
  ∧ parse_table_spec "companies:50,contacts" (Some 100%Z)
    = Ret [ ("companies", 50%Z); ("contacts", 100%Z) ]
  ∧ (∀ tables_arg default_count,
       lower tables_arg = "all" →
       parse_table_spec tables_arg default_count
       = Ret ((λ t, (t, bare_count default_count t)) <$> ALL_TABLES))
  ∧ (∀ tables_arg default_count result tok,
       parse_table_spec tables_arg default_count = Ret result →
       tok ∈ tables_list_of tables_arg →
       contains ":" tok = false →
       (∀ t, t ∈ tables_list_of tables_arg → contains ":" t = true →
             entry_table t ≠ strip tok) →
       ∃ builtin,
         DEFAULT_COUNTS !! strip tok = Some builtin
         ∧ dict_get (strip tok) result
           = Some match default_count with
                  | Some n => if bool_decide (n = 0%Z) then builtin else n
                  | None => builtin
                  end).
Proof.
  split_and!.
  - by vm_compute.
  - by vm_compute.
  - intros tables_arg dc Hall. unfold parse_table_spec, tables_list_of.
    rewrite bool_decide_eq_true_2 by done. by vm_compute.
  - intros tables_arg dc result tok Hres Htok Hbare Hcolon.
    assert (strip tok ∈ ALL_TABLES) as Hknown.
    { pose proof (parse_entries_known _ _ _ _ Hres tok Htok) as Hk.
      unfold entry_table in Hk.
      by rewrite (StringFacts.split_once_none _ _ Hbare) in Hk. }
    destruct (default_count_known _ Hknown) as [builtin Hb]. exists builtin.
    split; [done|].
    rewrite (ParserFacts.parse_entries_bare dc _ (strip tok) [] result Hres Hcolon).
    + unfold bare_count. by rewrite Hb.
    + left. by exists tok.
Qed.

Lemma parse_table_spec_counts_witness :
  ∃ builtin,
    DEFAULT_COUNTS !! strip "contacts" = Some builtin
    ∧ dict_get (strip "contacts") [ ("companies", 50%Z); ("contacts", 500%Z) ]
      = Some match Some 0%Z with
             | Some n => if bool_decide (n = 0%Z) then builtin else n
             | None => builtin
             end.
Proof.
  destruct parse_table_spec_counts as (_ & _ & _ & H).
  apply (H "companies:50,contacts" (Some 0%Z)
           [ ("companies", 50%Z); ("contacts", 500%Z) ] "contacts").
  - by vm_compute.
  - vm_compute. by right; left.
  - done.
  - intros t Ht. vm_compute in Ht.
    repeat (apply elem_of_cons in Ht as [->|Ht]; [by vm_compute|]).
    by apply elem_of_nil in Ht.
Defined.

(** C7, on the code: [bogus:x] names a table outside the schema, yet the
    parser fails on the count before it looks at the table. *)
Lemma parse_table_spec_unknown_table_counterexample :
  "bogus:x" ∈ tables_list_of "bogus:x"
  ∧ entry_table "bogus:x" ∉ ALL_TABLES
  ∧ parse_table_spec "bogus:x" None = Raise (ValueError "x")
  ∧ ∀ name, parse_table_spec "bogus:x" None ≠ Raise (unknown_table name).
Proof.
  split_and!.
  - vm_compute. by left.
  - apply (bool_decide_unpack _). by vm_compute.
  - by vm_compute.
  - intros name. by vm_compute.
Qed.

(** C7, amended: when the first token that names no table of the schema is
    reached, the parser returns no mapping.  It exits with the unknown-table
    message naming that token if the counts up to and including it are
    literals that [int()] accepts (at most 4300 digits); otherwise it fails
    with [ValueError] on the first count among them that is not one, with
    the text of that count.  In [main] the failure leaves the world
    untouched: nothing is generated and no connection is opened. *)
Theorem parse_table_spec_unknown_table
    (tables_arg : string) (default_count : option Z)
    (pre : list string) (tok : string) (post : list string) :
  tables_list_of tables_arg = pre ++ tok :: post →
  Forall (λ t, entry_table t ∈ ALL_TABLES) pre →
  entry_table tok ∉ ALL_TABLES →
  ∃ e,
    parse_table_spec tables_arg default_count = Raise e
    ∧ (Forall entry_count_ok (pre ++ [tok]) → e = unknown_table (entry_table tok))
    ∧ (∀ good bad rest,
         pre ++ [tok] = good ++ bad :: rest →
         Forall entry_count_ok good → ¬ entry_count_ok bad →
         e = ValueError (entry_count_str bad))
    ∧ ∀ fuel no_deps w,
        main fuel (Args tables_arg default_count no_deps false) w = (Raise e, w).
Proof.
  intros Hsplit Hpre Htok. unfold parse_table_spec. rewrite Hsplit.
  destruct (ParserFacts.parse_entries_unknown default_count pre tok post [] Hpre Htok)
    as [Hcases Hok].
  assert (∃ e, parse_entries default_count (pre ++ tok :: post) [] = Raise e)
    as [e He] by (destruct Hcases as [->|[lit ->]]; eauto).
  exists e. split_and!; [done| | |].
  - intros Hall. rewrite (Hok Hall) in He. by injection He as <-.
  - intros good bad rest Heq Hgood Hbad.
    assert (Forall (λ t, entry_table t ∈ ALL_TABLES) good) as Hknown.
    { assert (good = take (length good) pre) as ->.
      { assert (length good ≤ length pre) as Hlen.
        { apply (f_equal length) in Heq. rewrite !length_app in Heq.
          simpl in Heq. lia. }
        apply (f_equal (take (length good))) in Heq.
        rewrite take_app_le in Heq by done.
        by rewrite take_app_length in Heq. }
      by apply Forall_take. }
    assert (pre ++ tok :: post = good ++ bad :: (rest ++ post)) as Hlist.
    { change (tok :: post) with ([tok] ++ post).
      rewrite app_assoc, Heq, <- app_assoc. done. }
    rewrite Hlist, (ParserFacts.parse_entries_bad_count default_count good bad
                      (rest ++ post) [] Hknown Hgood Hbad) in He.
    by injection He as <-.
  - intros fuel nd w. apply ParserFacts.main_parse_error; [done|].
    simpl. unfold parse_table_spec. by rewrite Hsplit.
Qed.

Lemma parse_table_spec_unknown_table_witness :
  ∃ e,
    parse_table_spec "companies:5, leads ,deals" None = Raise e
    ∧ (Forall entry_count_ok (["companies:5"] ++ ["leads"]) →
       e = unknown_table (entry_table "leads"))
    ∧ (∀ good bad rest,
         ["companies:5"] ++ ["leads"] = good ++ bad :: rest →
         Forall entry_count_ok good → ¬ entry_count_ok bad →
         e = ValueError (entry_count_str bad))
    ∧ ∀ fuel no_deps w,
        main fuel (Args "companies:5, leads ,deals" None no_deps false) w
        = (Raise e, w).
Proof.
  apply (parse_table_spec_unknown_table "companies:5, leads ,deals" None
           ["companies:5"] "leads" ["deals"]).
  - by vm_compute.
  - apply Forall_cons. split; [|done]. apply (bool_decide_unpack _). by vm_compute.
  - apply (bool_decide_unpack _). by vm_compute.
Defined.

(** C8, on the code: a padded [all] is not the keyword any more. *)
Lemma parse_table_spec_whitespace_counterexample :
  Forall2 padded (split "," "all") (split "," " all ")
  ∧ parse_table_spec " all " None = Raise (unknown_table "all")
  ∧ parse_table_spec " all " None ≠ parse_table_spec "all" None.
Proof.
  split_and!.
  - change (Forall2 padded ["all"] [" all "]). constructor; [|constructor].
    exists " ", " ". split_and!; [done..|]. left. by split.
  - by vm_compute.
  - by vm_compute.
Qed.

(** C8, amended: an argument that reads [all] in any letter case, with
    nothing around it, stands for every table; for any other argument,
    whitespace added around its comma-separated tokens and around their
    [:] separators does not change the result (mapping or failure). *)
Theorem parse_table_spec_whitespace
    (tables_arg tables_arg' : string) (default_count : option Z) :
  (lower tables_arg = "all" →
   parse_table_spec tables_arg default_count = parse_table_spec "all" default_count)
  ∧ (lower tables_arg ≠ "all" →
     Forall2 padded (split "," tables_arg) (split "," tables_arg') →
     parse_table_spec tables_arg' default_count
     = parse_table_spec tables_arg default_count).
Proof.
  split.
  - intros Hall. unfold parse_table_spec, tables_list_of.
    by rewrite bool_decide_eq_true_2.
  - intros Hnot Hpad.
    assert (lower tables_arg' ≠ "all") as Hnot'.
    { intros Hall. apply Hnot.
      rewrite (split_no_sep _ _ (lower_all_no_comma _ Hall)) in Hpad.
      apply Forall2_cons_inv_r in Hpad as (p & ps & Hp & Hps & Hsplit).
      apply Forall2_nil_inv_r in Hps as ->.
      apply StringFacts.split_single in Hsplit as ->.
      destruct Hp as (w1 & w2 & H1 & H2 & [[_ Heq]|(a & b & w3 & w4 & _ & _ & _ & _ & Heq)]).
      - by rewrite <- (StringFacts.lower_all_unpadded _ _ _ _ Hall H1 H2 Heq).
      - apply StringFacts.lower_all_no_colon in Hall. rewrite Heq in Hall.
        rewrite !StringFacts.contains_app in Hall.
        change (contains ":" ":") with true in Hall.
        by rewrite ?orb_true_r, ?orb_true_l in Hall. }
    unfold parse_table_spec, tables_list_of.
    rewrite !bool_decide_eq_false_2 by done.
    by apply ParserFacts.parse_entries_padded.
Qed.

Lemma parse_table_spec_whitespace_witness :
  parse_table_spec "  companies : 50 ,contacts  " (Some 100%Z)
  = parse_table_spec "companies:50,contacts" (Some 100%Z).
Proof.
  apply (parse_table_spec_whitespace "companies:50,contacts"
           "  companies : 50 ,contacts  " (Some 100%Z)).
  - by vm_compute.
  - change (Forall2 padded ["companies:50"; "contacts"]
                           ["  companies : 50 "; "contacts  "]).
    constructor; [|constructor; [|constructor]].
    + exists "  ", " ". split_and!; [done..|]. right.
      exists "companies", "50", " ", " ". split_and!; by vm_compute.
    + exists "", "  ". split_and!; [done..|]. left. by split.
Defined.

(** ** Rules for [spec] *)

Module SpecRules.
Section Rules.
Context {A B : Type}.
Implicit Types (P : conn → Prop) (E : exn → conn → Prop).

Lemma spec_ret (a : A) P E : spec P (mret a) (λ x c, x = a ∧ P c) E.
Proof. intros w Hw. by simpl. Qed.

Lemma spec_raise (e : exn) P (Q : A → conn → Prop) :
  spec P (raise e) Q (λ e' c, e' = e ∧ P c).
Proof. intros w Hw. by simpl. Qed.

Lemma spec_out_of_fuel P (Q : A → conn → Prop) E : spec P out_of_fuel Q E.
Proof. by intros w Hw. Qed.

Lemma spec_bind (m : M A) (k : A → M B) P (Q : A → conn → Prop)
    (R : B → conn → Prop) E :
  spec P m Q E → (∀ a, spec (Q a) (k a) R E) → spec P (m ≫= k) R E.
Proof.
  intros Hm Hk w Hw. specialize (Hm w Hw). unfold mbind, M_bind.
  destruct (m w) as [[a| |] w1]; [|done..]. apply (Hk a w1 Hm).
Qed.

Lemma spec_conseq (m : M A) P P' (Q Q' : A → conn → Prop) E E' :
  spec P m Q E →
  (∀ c, P' c → P c) → (∀ a c, Q a c → Q' a c) → (∀ e c, E e c → E' e c) →
  spec P' m Q' E'.
Proof.
  intros Hm HP HQ HE w Hw. specialize (Hm w (HP _ Hw)).
  destruct (m w) as [[a|e|] w1]; auto.
Qed.

Lemma spec_post (m : M A) P (Q Q' : A → conn → Prop) E :
  spec P m Q E → (∀ a c, Q a c → Q' a c) → spec P m Q' E.
Proof. intros Hm HQ. eapply spec_conseq; eauto. Qed.

Lemma spec_pre (m : M A) P P' (Q : A → conn → Prop) E :
  spec P m Q E → (∀ c, P' c → P c) → spec P' m Q E.
Proof. intros Hm HP. eapply spec_conseq; eauto. Qed.

(** A fact that follows from the precondition may be used outside. *)
Lemma spec_pure (m : M A) P (Q : A → conn → Prop) E (φ : Prop) :
  (∀ c, P c → φ) → (φ → spec P m Q E) → spec P m Q E.
Proof. intros Hφ Hm w Hw. apply Hm; [by eapply Hφ|done]. Qed.

Lemma spec_exn (m : M A) P (Q : A → conn → Prop) E E' :
  spec P m Q E → (∀ e c, E e c → E' e c) → spec P m Q E'.
Proof. intros Hm HE. eapply spec_conseq; eauto. Qed.

Lemma spec_fmap (f : A → B) (m : M A) P (Q : A → conn → Prop) E :
  spec P m Q E → spec P (f <$> m) (λ b c, ∃ a, b = f a ∧ Q a c) E.
Proof.
  intros Hm w Hw. specialize (Hm w Hw). unfold fmap, M_fmap, mbind, M_bind.
  destruct (m w) as [[a| |] w1]; [|done..]. simpl. eauto.
Qed.
End Rules.

Section Loops.
Context {A S : Type}.
Implicit Types (E : exn → conn → Prop).

(** [I done s] holds when the items [done] have been processed. *)
Lemma spec_for_each (items : list A) (body : A → S → M S)
    (I : list A → S → conn → Prop) E (s0 : S) :
  (∀ done x s, spec (I done s) (body x s) (I (done ++ [x])) E) →
  spec (I [] s0) (for_each items body s0) (I items) E.
Proof.
  intros Hbody.
  assert (∀ done s, spec (I done s) (for_each items body s) (I (done ++ items)) E)
    as H; [|apply (H [] s0)].
  induction items as [|x items IH]; intros done s.
  - rewrite app_nil_r. intros w Hw. by simpl.
  - simpl. eapply spec_bind; [apply Hbody|]. intros s'.
    replace (done ++ x :: items) with ((done ++ [x]) ++ items)
      by by rewrite <- app_assoc.
    apply IH.
Qed.

Lemma spec_while (fuel : nat) (cond : S → bool) (body : S → M S)
    (I : S → conn → Prop) E (s0 : S) :
  (∀ s, cond s = true → spec (I s) (body s) I E) →
  spec (I s0) (while fuel cond body s0) (λ s c, I s c ∧ cond s = false) E.
Proof.
  intros Hbody. revert s0. induction fuel as [|fuel IH]; intros s0.
  - simpl. destruct (cond s0) eqn:Hc; [apply spec_out_of_fuel|].
    intros w Hw. by simpl.
  - simpl. destruct (cond s0) eqn:Hc; [|intros w Hw; by simpl].
    eapply spec_bind; [by apply Hbody|]. intros s. apply IH.
Qed.

(** A loop whose body only draws keeps any assertion. *)
Lemma spec_while_quiet (fuel : nat) (cond : S → bool) (body : S → M S)
    (P : conn → Prop) E (s0 : S) :
  (∀ s, quiet (body s)) →
  spec P (while fuel cond body s0) (λ s c, P c ∧ cond s = false) E.
Proof.
  intros Hbody. apply (spec_while fuel cond body (λ _ c, P c)).
  intros s _ w Hw. destruct (Hbody s w) as (a & w' & -> & Hdb). by rewrite Hdb.
Qed.
End Loops.

Implicit Types (P : conn → Prop) (E : exn → conn → Prop).

(** *** Draws leave the connection alone. *)

Lemma spec_random_draw P E : spec P random_draw (λ _ c, P c) E.
Proof. by intros w Hw. Qed.

Lemma spec_random_choice {A} (seq : list A) P E :
  (seq = [] → ∀ c, P c → E IndexError c) →
  spec P (random_choice seq) (λ x c, x ∈ seq ∧ P c) E.
Proof.
  intros Hempty w Hw. unfold random_choice. destruct seq as [|a seq]; [by apply Hempty|].
  unfold mbind, M_bind, random_draw. cbn -[Nat.modulo lookup length].
  destruct ((a :: seq) !! (random_tape w (random_pos w) mod length (a :: seq)))
    as [x|] eqn:Hx; cbn -[Nat.modulo lookup length].
  - split; [by eapply list_elem_of_lookup_2|done].
  - apply lookup_ge_None in Hx.
    pose proof (Nat.mod_upper_bound (random_tape w (random_pos w))
                  (length (a :: seq))) as Hb.
    simpl in Hb, Hx. lia.
Qed.

Lemma spec_random_randint (a b : Z) P E :
  spec P (random_randint a b) (λ _ c, P c) E.
Proof. by intros w Hw. Qed.

Lemma spec_random_randint_range (a b : Z) P E :
  (a ≤ b)%Z →
  spec P (random_randint a b) (λ n c, (a ≤ n ≤ b)%Z ∧ P c) E.
Proof.
  intros Hab w Hw. simpl. split; [|done].
  pose proof (Z.mod_pos_bound (Z.of_nat (random_tape w (random_pos w)))
                (b - a + 1)) as H.
  lia.
Qed.

Lemma spec_random_random P E : spec P random_random (λ _ c, P c) E.
Proof. by intros w Hw. Qed.

Lemma spec_fake (provider : string) P E : spec P (fake provider) (λ _ c, P c) E.
Proof. by intros w Hw. Qed.

Lemma spec_subscript {V} (key : string) (d : list (string * V)) P E :
  (dict_get key d = None → ∀ c, P c → E (KeyError key) c) →
  spec P (subscript key d) (λ v c, dict_get key d = Some v ∧ P c) E.
Proof.
  intros Hnone w Hw. unfold subscript. destruct (dict_get key d); simpl; auto.
Qed.

(** *** Statements. *)

Lemma spec_insert_returning (table : string) (r : row) P E :
  spec P (insert_returning table r)
       (λ id c', ∃ c, P c ∧ (id, c') = insert_row table r c) E.
Proof.
  intros w Hw. unfold insert_returning. simpl. by exists (db w).
Qed.

Lemma spec_insert_many (table : string) (rows : list row) P :
  spec P (insert_many table rows)
       (λ _ c', rows ≠ []
                ∧ ∃ c, P c ∧ c' = foldl (λ c r, (insert_row table r c).2) c rows)
       (λ e c, e = StatementError ∧ rows = [] ∧ P c).
Proof.
  intros w Hw. destruct rows as [|r rows]; simpl; [done|].
  split; [done|]. by exists (db w).
Qed.

Lemma spec_fetch_existing_ids (table : string) P E :
  spec P (fetch_existing_ids table)
       (λ ids c, ids = (visible_rows c table).*1 ∧ P c) E.
Proof. by intros w Hw. Qed.

Lemma spec_fetch_column (table col : string) P E :
  spec P (fetch_column table col)
       (λ m c, m = foldl (λ m p, <[p.1 := default VNone (dict_get col p.2)]> m) ∅
                         (visible_rows c table) ∧ P c) E.
Proof. by intros w Hw. Qed.
End SpecRules.

(** ** Computations that only draw *)

Module Quiet.
Lemma quiet_ret {A} (a : A) : quiet (mret a : M A).
Proof. intros w. by exists a, w. Qed.

Lemma quiet_bind {A B} (m : M A) (k : A → M B) :
  quiet m → (∀ a, quiet (k a)) → quiet (m ≫= k).
Proof.
  intros Hm Hk w. destruct (Hm w) as (a & w1 & Hmw & Hdb).
  destruct (Hk a w1) as (b & w2 & Hkw & Hdb2). exists b, w2.
  unfold mbind, M_bind. rewrite Hmw. split; [done|congruence].
Qed.

Lemma quiet_fmap {A B} (f : A → B) (m : M A) : quiet m → quiet (f <$> m).
Proof. intros Hm. apply quiet_bind; [done|]. intros a. apply quiet_ret. Qed.

Lemma quiet_if {A} (b : bool) (m1 m2 : M A) :
  quiet m1 → quiet m2 → quiet (if b then m1 else m2).
Proof. by destruct b. Qed.

Lemma quiet_random_draw : quiet random_draw.
Proof. intros w. by eexists _, _. Qed.

Lemma quiet_random_randint (a b : Z) : quiet (random_randint a b).
Proof. intros w. by eexists _, _. Qed.

Lemma quiet_random_random : quiet random_random.
Proof. intros w. by eexists _, _. Qed.

Lemma quiet_random_uniform (a b : Z) : quiet (random_uniform a b).
Proof. apply quiet_random_randint. Qed.

Lemma quiet_fake (provider : string) : quiet (fake provider).
Proof. intros w. by eexists _, _. Qed.

Lemma quiet_random_choice {A} (seq : list A) :
  seq ≠ [] → quiet (random_choice seq).
Proof.
  intros Hne w.
  pose proof (SpecRules.spec_random_choice seq (λ c, c = db w) (λ _ _, False)) as H.
  specialize (H (λ E, False_ind _ (Hne E)) w eq_refl).
  destruct (random_choice seq w) as [[a| |] w'] eqn:E; [|done| ].
  - destruct H as [_ H]. by exists a, w'.
  - exfalso. unfold random_choice in E. destruct seq as [|x seq]; [done|].
    unfold mbind, M_bind, random_draw in E.
    cbn -[Nat.modulo lookup length] in E.
    by destruct ((x :: seq) !! _) in E.
Qed.

Lemma quiet_subscript {V} (key : string) (d : list (string * V)) :
  is_Some (dict_get key d) → quiet (subscript key d).
Proof. intros [v Hv] w. unfold subscript. rewrite Hv. by exists v, w. Qed.

(** Used through [spec]: a quiet computation keeps any assertion. *)
Lemma quiet_spec {A} (m : M A) (P : conn → Prop) (E : exn → conn → Prop) :
  quiet m → spec P m (λ _ c, P c) E.
Proof.
  intros Hm w Hw. destruct (Hm w) as (a & w' & -> & Hdb). by rewrite Hdb.
Qed.
End Quiet.

Create HintDb quiet.
#[export] Hint Resolve Quiet.quiet_ret Quiet.quiet_fmap Quiet.quiet_if
  Quiet.quiet_random_draw Quiet.quiet_random_randint Quiet.quiet_random_random
  Quiet.quiet_random_uniform Quiet.quiet_fake : quiet.
#[export] Hint Extern 2 (quiet (random_choice _)) =>
  apply Quiet.quiet_random_choice; discriminate : quiet.
#[export] Hint Extern 3 (quiet (_ ≫= _)) =>
  apply Quiet.quiet_bind; [|intros ?] : quiet.

(** One step through a [≫=] whose first computation is quiet. *)
Ltac skip_quiet :=
  eapply SpecRules.spec_bind;
  [ apply Quiet.quiet_spec; solve [auto 10 with quiet] | intros ? ].

Lemma dict_get_keys {V} (k : string) (d : list (string * V)) :
  k ∈ dict_keys d → is_Some (dict_get k d).
Proof.
  induction d as [|[k' v] d IH]; simpl; [by intros ?%elem_of_nil|].
  intros [->|Hk]%elem_of_cons; case_bool_decide; eauto; done.
Qed.

Lemma dict_get_elem_of {V} (k : string) (v : V) (d : list (string * V)) :
  dict_get k d = Some v → (k, v) ∈ d.
Proof.
  induction d as [|[k' v'] d IH]; simpl; [done|].
  case_bool_decide as E; [intros [= ->]; subst; by left|]. intros ?. right. auto.
Qed.

Lemma contacts_of_elem (m : gmap Z value) (company_id k : Z) :
  k ∈ contacts_of m company_id ↔ m !! k = Some (VInt company_id).
Proof.
  unfold contacts_of. rewrite list_elem_of_fmap. split.
  - intros ([k' v] & -> & [Hv Hin]%list_elem_of_filter). simpl in *. subst v.
    by apply elem_of_map_to_list in Hin.
  - intros Hk. exists (k, VInt company_id). split; [done|].
    apply list_elem_of_filter. split; [done|]. by apply elem_of_map_to_list.
Qed.

(** ** Generators *)

Module GeneratorFacts.
Import SpecRules.

Lemma inserted_refl (c : conn) : inserted c c [].
Proof. unfold inserted. by rewrite app_nil_r. Qed.

Lemma inserted_insert_row (c0 c c' : conn) rows (table : string) (r : row) (id : Z) :
  inserted c0 c rows → (id, c') = insert_row table r c →
  inserted c0 c' (rows ++ [(table, (id, r))]).
Proof.
  intros (Hp & Hs & Hc & Ho) [= -> ->]. unfold inserted. simpl.
  rewrite Hp, <- app_assoc. done.
Qed.

Lemma inserted_insert_many (c0 c : conn) rows (table : string) (rs : list row) :
  inserted c0 c rows →
  ∃ new, inserted c0 (foldl (λ c r, (insert_row table r c).2) c rs) (rows ++ new)
         ∧ new.*2.*2 = rs ∧ Forall (λ entry, entry.1 = table) new.
Proof.
  revert c rows. induction rs as [|r rs IH]; intros c rows Hc.
  - exists []. by rewrite app_nil_r.
  - cbn [foldl]. destruct (insert_row table r c) as [id c'] eqn:E. cbn [snd].
    destruct (IH c' (rows ++ [(table, (id, r))])) as (new & Hnew & Hrs & Htab).
    { by eapply inserted_insert_row. }
    exists ((table, (id, r)) :: new). split_and!.
    + by rewrite <- app_assoc in Hnew.
    + rewrite !fmap_cons. by f_equal.
    + by apply Forall_cons.
Qed.

Lemma generate_deals_spec (company_ids contact_ids : list Z)
    (contact_company_map : gmap Z value) (count : Z) (c0 : conn) :
  spec (λ c, c = c0)
       (generate_deals company_ids contact_ids contact_company_map count)
       (λ deal_ids c, ∃ rows,
          inserted c0 c rows
          ∧ length rows = Z.to_nat count
          ∧ deal_ids = rows.*2.*1
          ∧ Forall (deal_refs_ok company_ids contact_company_map) rows)
       (empty_pool_error c0 company_ids).
Proof.
  unfold generate_deals, for_range.
  set (I := λ (done : list nat) (deal_ids : list Z) (c : conn),
         ∃ rows, inserted c0 c rows ∧ length rows = length done
                 ∧ deal_ids = rows.*2.*1
                 ∧ Forall (deal_refs_ok company_ids contact_company_map) rows
                 ∧ (company_ids = [] → c = c0)).
  eapply spec_conseq; [apply (spec_for_each _ _ I)| | |done].
  - intros done i deal_ids.
    eapply spec_bind; [apply spec_random_choice|intros company_id].
    { intros -> c (rows & _ & _ & _ & _ & Hc). split_and!; auto. }
    eapply spec_bind with
      (Q := λ o c, (company_id ∈ company_ids ∧ I done deal_ids c)
                   ∧ ((o = None ∧ ∀ k, contact_company_map !! k ≠ Some (VInt company_id))
                      ∨ ∃ k, o = Some k
                             ∧ contact_company_map !! k = Some (VInt company_id))).
    { destruct (contacts_of contact_company_map company_id) as [|k0 ks] eqn:Ek.
      - eapply spec_post; [apply spec_ret|].
        intros o c [-> H]. split; [done|]. left. split; [done|].
        intros k Hk%contacts_of_elem. rewrite Ek in Hk. by apply elem_of_nil in Hk.
      - eapply spec_post; [apply spec_fmap, spec_random_choice; done|].
        intros o c (k & -> & Hk & H). split; [done|]. right. exists k.
        split; [done|]. apply contacts_of_elem. by rewrite Ek. }
    intros contact_id.
    eapply spec_bind; [apply spec_random_choice; done|intros stage].
    eapply spec_bind; [apply spec_subscript|intros probability].
    { intros Hnone c [Hstage _]. apply dict_get_keys in Hstage as [? ?]. congruence. }
    do 8 skip_quiet.
    eapply spec_bind; [apply spec_insert_returning|intros id].
    eapply spec_post; [apply spec_ret|].
    intros ids c [-> (c1 & Hpre & Hins)].
    destruct Hpre
      as (_ & _ & (Hcomp & rows & Hpend & Hlen & Hids & Hok & _) & Hcontact).
    eexists. split_and!.
    + by eapply inserted_insert_row.
    + rewrite !length_app, Hlen. done.
    + rewrite !fmap_app, Hids. done.
    + apply Forall_app. split; [done|]. apply Forall_singleton.
      split; [done|]. exists company_id. split_and!; [done..|].
      destruct Hcontact as [[-> Hnone]|(k & -> & Hk)]; [left|right]; eauto.
    + intros ->. by apply elem_of_nil in Hcomp.
  - intros c ->. exists []. split_and!; [apply inserted_refl|done..].
  - intros deal_ids c (rows & Hpend & Hlen & Hids & Hok & _). exists rows.
    split_and!; [done| |done..]. by rewrite Hlen, length_seq.
Qed.

Lemma JOB_TITLES_nonempty (department : string) (titles : list string) :
  dict_get department JOB_TITLES = Some titles → titles ≠ [].
Proof.
  intros H%dict_get_elem_of.
  repeat (apply elem_of_cons in H as [[= -> ->]|H]; [done|]).
  by apply elem_of_nil in H.
Qed.

Lemma generate_contacts_spec (fuel : nat) (company_ids : list Z) (count : Z)
    (c0 : conn) :
  spec (λ c, c = c0)
       (generate_contacts fuel company_ids count)
       (λ '(contact_ids, contact_company_map) c, ∃ rows,
          inserted c0 c rows
          ∧ length rows = Z.to_nat count
          ∧ contact_ids = rows.*2.*1
          ∧ NoDup (column "email" <$> rows)
          ∧ Forall (contact_row_ok company_ids) rows
          ∧ ∀ k, is_Some (contact_company_map !! k) ↔ k ∈ contact_ids)
       (empty_pool_error c0 company_ids).
Proof.
  unfold generate_contacts, for_range.
  set (I := λ (done : list nat) (st : list Z * gmap Z value * gset string)
             (c : conn),
         ∃ rows, inserted c0 c rows ∧ length rows = length done
                 ∧ st.1.1 = rows.*2.*1
                 ∧ NoDup (column "email" <$> rows)
                 ∧ Forall (contact_row_ok company_ids) rows
                 ∧ (∀ e, Some (VStr e) ∈ column "email" <$> rows → e ∈ st.2)
                 ∧ (∀ k, is_Some (st.1.2 !! k) ↔ k ∈ st.1.1)
                 ∧ (company_ids = [] → c = c0)).
  eapply spec_pre; [eapply spec_bind; [apply (spec_for_each _ _ I)|]|].
  - intros done i [[contact_ids contact_company_map] used_emails].
    eapply spec_bind; [apply spec_random_choice|intros company_id].
    { intros -> c (rows & _ & _ & _ & _ & _ & _ & _ & Hc). split_and!; auto. }
    eapply spec_bind; [apply spec_random_choice; done|intros department].
    eapply spec_bind; [apply spec_subscript|intros titles].
    { intros Hnone c [Hd _]. apply dict_get_keys in Hd as [? ?]. congruence. }
    eapply spec_bind; [apply spec_random_choice|intros title].
    { intros -> c [Hd _]. by apply JOB_TITLES_nonempty in Hd. }
    do 3 skip_quiet.
    eapply spec_bind; [apply spec_while_quiet|intros [email counter]].
    { intros [e n]. auto 10 with quiet. }
    do 4 skip_quiet.
    eapply spec_bind; [apply spec_insert_returning|intros id].
    eapply spec_post; [apply spec_ret|].
    intros st c [-> (c1 & Hpre & Hins)].
    destruct Hpre as ((_ & _ & _ & Hcomp & rows & Hrows & Hlen & Hids & Hnd
                       & Hok & Hused & Hmap & _) & Hfresh).
    simpl in Hfresh, Hids, Hused, Hmap.
    apply bool_decide_eq_false in Hfresh.
    eexists. split_and!.
    + by eapply inserted_insert_row.
    + rewrite !length_app, Hlen. done.
    + simpl. rewrite !fmap_app, Hids. done.
    + rewrite fmap_app. apply NoDup_app. split_and!; [done| |apply NoDup_singleton].
      intros o Ho [= ->]%list_elem_of_singleton. by apply Hused in Ho.
    + apply Forall_app. split; [done|]. apply Forall_singleton.
      split_and!; [done|by exists company_id|by exists email].
    + intros e. rewrite fmap_app. intros [He|He]%elem_of_app.
      * apply Hused in He. set_solver.
      * apply list_elem_of_singleton in He as [= ->]. set_solver.
    + simpl. intros k. rewrite Hids, lookup_insert_is_Some', elem_of_app,
        list_elem_of_singleton, <- Hids, Hmap. naive_solver.
    + intros ->. by apply elem_of_nil in Hcomp.
  - intros [[contact_ids contact_company_map] used_emails].
    eapply spec_conseq; [apply spec_ret| | |done].
    + intros c H. exact H.
    + intros [ids m] c [[= -> ->] (rows & Hrows & Hlen & Hids & Hnd & Hok & _ & Hmap & _)].
      exists rows. simpl in *. split_and!; [done| |done..].
      by rewrite Hlen, length_seq.
  - intros c ->. exists []. split_and!; [apply inserted_refl|try done..].
    + apply NoDup_nil_2.
    + intros e He. by apply elem_of_nil in He.
    + intros k. simpl. rewrite lookup_empty, elem_of_nil. split; [by intros [? ?]|done].
Qed.

Lemma quiet_draw_sku (category : string) : quiet (draw_sku category).
Proof. unfold draw_sku. auto 10 with quiet. Qed.

Lemma generate_products_spec (fuel : nat) (count : Z) (c0 : conn) :
  spec (λ c, c = c0)
       (generate_products fuel count)
       (λ product_data c, ∃ rows,
          inserted c0 c rows
          ∧ length rows = Z.to_nat count
          ∧ NoDup (column "sku" <$> rows)
          ∧ Forall product_row_ok rows
          ∧ (∀ k v, product_data !! k = Some v → is_decimal v)
          ∧ ∀ k, is_Some (product_data !! k) ↔ k ∈ rows.*2.*1)
       (λ _ _, False).
Proof.
  unfold generate_products, for_range.
  set (I := λ (done : list nat) (st : gmap Z value * gset string) (c : conn),
         ∃ rows, inserted c0 c rows ∧ length rows = length done
                 ∧ NoDup (column "sku" <$> rows)
                 ∧ Forall product_row_ok rows
                 ∧ (∀ s, Some (VStr s) ∈ column "sku" <$> rows → s ∈ st.2)
                 ∧ (∀ k v, st.1 !! k = Some v → is_decimal v)
                 ∧ (∀ k, is_Some (st.1 !! k) ↔ k ∈ rows.*2.*1)).
  eapply spec_pre; [eapply spec_bind; [apply (spec_for_each _ _ I)|]|].
  - intros done i [product_data used_skus].
    do 3 skip_quiet.
    eapply spec_bind; [apply Quiet.quiet_spec, quiet_draw_sku|intros sku0].
    eapply spec_bind; [apply spec_while_quiet|intros sku].
    { intros _. apply quiet_draw_sku. }
    do 5 skip_quiet.
    eapply spec_bind; [apply spec_insert_returning|intros id].
    eapply spec_post; [apply spec_ret|].
    intros st c [-> (c1 & Hpre & Hins)].
    destruct Hpre as ((rows & Hrows & Hlen & Hnd & Hok & Hused & Hdec & Hmap) & Hfresh).
    simpl in Hfresh, Hused, Hdec, Hmap. apply bool_decide_eq_false in Hfresh.
    eexists. split_and!.
    + by eapply inserted_insert_row.
    + rewrite !length_app, Hlen. done.
    + rewrite fmap_app. apply NoDup_app. split_and!; [done| |apply NoDup_singleton].
      intros o Ho [= ->]%list_elem_of_singleton. by apply Hused in Ho.
    + apply Forall_app. split; [done|]. apply Forall_singleton.
      split; [done|]. by exists sku.
    + intros s. rewrite fmap_app. intros [Hs|Hs]%elem_of_app.
      * apply Hused in Hs. set_solver.
      * apply list_elem_of_singleton in Hs as [= ->]. set_solver.
    + simpl. intros k v. rewrite lookup_insert_Some.
      intros [[_ <-]|[_ Hk]]; [by eexists|by eapply Hdec].
    + simpl. intros k. rewrite lookup_insert_is_Some', !fmap_app, elem_of_app,
        !list_fmap_singleton, list_elem_of_singleton, Hmap. naive_solver.
  - intros [product_data used_skus].
    eapply spec_post; [apply spec_ret|].
    intros pd c [-> (rows & Hrows & Hlen & Hnd & Hok & _ & Hdec & Hmap)].
    exists rows. simpl in *. split_and!; [done| |done..].
    by rewrite Hlen, length_seq.
  - intros c ->. exists []. split_and!; [apply inserted_refl|try done..].
    + apply NoDup_nil_2.
    + intros s Hs. by apply elem_of_nil in Hs.
    + intros k. simpl. rewrite lookup_empty, elem_of_nil. split; [by intros [? ?]|done].
Qed.

Lemma spec_price_of (product_data : gmap Z value) (k : Z) (P : conn → Prop) E :
  is_Some (product_data !! k) →
  spec P (price_of product_data k) (λ v c, product_data !! k = Some v ∧ P c) E.
Proof. intros [v Hv] w Hw. unfold price_of. rewrite Hv. by simpl. Qed.

Lemma spec_times_factor (v : value) (factor : Z) (P : conn → Prop) :
  spec P (times_factor v factor)
       (λ product c, (∃ h, price_hundredths v = Some h ∧ product = (h * factor)%Z)
                     ∧ P c)
       (λ e c, ((e = TypeError ∧ price_hundredths v = None)
                ∨ (e = Overflow
                   ∧ ∃ h, price_hundredths v = Some h
                          ∧ (DECIMAL_EMAX < decimal_digits (h * factor) - 6)%Z))
               ∧ P c).
Proof.
  intros w Hw. unfold times_factor.
  destruct (price_hundredths v) as [h|]; simpl; [|split; [by left|done]].
  case_bool_decide; simpl.
  - split; [|done]. by exists h.
  - split; [|done]. right. split; [done|]. exists h. split; [done|lia].
Qed.

(** A number below [10 ^ k] has at most [k] decimal digits. *)
Lemma digits_upto_le (fuel : nat) (n k : Z) :
  (0 ≤ n < 10 ^ k)%Z → (0 ≤ k)%Z → (digits_upto fuel n ≤ k)%Z.
Proof.
  revert n k. induction fuel as [|fuel IH]; intros n k Hn Hk; simpl; [done|].
  case_bool_decide as Hz; [done|].
  assert (0 < k)%Z as Hpos.
  { destruct (decide (k = 0)%Z) as [->|]; [|lia]. simpl in Hn. lia. }
  specialize (IH (n / 10)%Z (k - 1)%Z).
  assert (0 ≤ n / 10 < 10 ^ (k - 1))%Z as Hdiv.
  { split; [apply Z.div_pos; lia|].
    apply Z.div_lt_upper_bound; [lia|].
    rewrite <- Z.pow_succ_r by lia.
    replace (Z.succ (k - 1)) with k by lia. lia. }
  specialize (IH Hdiv ltac:(lia)). lia.
Qed.

(** With fuel for every bit, the count is exact. *)
Lemma digits_upto_spec (fuel : nat) (n : Z) :
  (0 < n < 2 ^ Z.of_nat fuel)%Z →
  (10 ^ (digits_upto fuel n - 1) ≤ n < 10 ^ digits_upto fuel n)%Z
  ∧ (0 < digits_upto fuel n)%Z.
Proof.
  revert n. induction fuel as [|fuel IH]; intros n Hn; [simpl in Hn; lia|].
  cbn [digits_upto]. rewrite bool_decide_eq_false_2 by lia.
  destruct (decide (n < 10)%Z) as [Hsmall|Hbig].
  - assert (digits_upto fuel (n / 10) = 0%Z) as ->.
    { rewrite Z.div_small by lia. by destruct fuel. }
    simpl. lia.
  - destruct (IH (n / 10)%Z) as [[Hlo Hhi] Hpos].
    { split; [apply Z.div_str_pos; lia|].
      apply Z.div_lt_upper_bound; [lia|].
      rewrite Nat2Z.inj_succ, Z.pow_succ_r in Hn by lia. lia. }
    replace (1 + digits_upto fuel (n / 10) - 1)%Z
      with (Z.succ (digits_upto fuel (n / 10) - 1)) by lia.
    rewrite Z.pow_succ_r by lia.
    replace (1 + digits_upto fuel (n / 10))%Z
      with (Z.succ (digits_upto fuel (n / 10))) by lia.
    rewrite Z.pow_succ_r by lia.
    pose proof (Z.div_mod n 10 ltac:(lia)) as Hdm.
    pose proof (Z.mod_pos_bound n 10 ltac:(lia)) as Hm.
    lia.
Qed.

(** [decimal_digits n] is the number of digits of [n]. *)
Lemma decimal_digits_spec (n : Z) :
  n ≠ 0%Z →
  (10 ^ (decimal_digits n - 1) ≤ Z.abs n < 10 ^ decimal_digits n)%Z.
Proof.
  intros Hn. unfold decimal_digits. apply digits_upto_spec.
  split; [lia|]. rewrite Nat2Z.inj_succ, Z2Nat.id by apply Z.log2_nonneg.
  apply Z.log2_spec. lia.
Qed.

(** A price that can be scaled does not overflow under a factor from 0.8
    to 1.2. *)
Lemma scalable_product (v : value) (h factor : Z) :
  scalable v → price_hundredths v = Some h → (800 ≤ factor ≤ 1200)%Z →
  (decimal_digits (h * factor) - 6 ≤ DECIMAL_EMAX)%Z.
Proof.
  intros (h' & Hh' & Hbound) Hh Hf. rewrite Hh in Hh'. injection Hh' as <-.
  change (8 * 10 ^ 27)%Z with 8000000000000000000000000000%Z in Hbound.
  assert (decimal_digits (h * factor) ≤ 31)%Z as Hd; [|unfold DECIMAL_EMAX; lia].
  unfold decimal_digits. apply digits_upto_le; [|done].
  change (10 ^ 31)%Z with 10000000000000000000000000000000%Z.
  split; [lia|]. rewrite Z.abs_mul. nia.
Qed.

Lemma spec_round_price (product : Z) (P : conn → Prop) :
  spec P (round_price product) (λ _ c, P c)
       (λ e c, e = InvalidOperation
               ∧ (10 ^ DECIMAL_PREC ≤ Z.abs (product / 1000))%Z ∧ P c).
Proof.
  intros w Hw. unfold round_price. case_bool_decide; simpl; [done|].
  split_and!; [done|lia|done].
Qed.

(** A price that can be scaled stays within the precision under every
    factor from 0.8 to 1.2. *)
Lemma scalable_rounds (v : value) (h factor : Z) :
  scalable v → price_hundredths v = Some h → (800 ≤ factor ≤ 1200)%Z →
  (Z.abs (h * factor / 1000) < 10 ^ DECIMAL_PREC)%Z.
Proof.
  intros (h' & Hh' & Hbound) Hh Hf. rewrite Hh in Hh'. injection Hh' as <-.
  unfold DECIMAL_PREC.
  change (10 ^ 28)%Z with 10000000000000000000000000000%Z.
  change (8 * 10 ^ 27)%Z with 8000000000000000000000000000%Z in Hbound.
  apply Z.abs_lt. split.
  - apply Z.lt_le_trans with (-9600000000000000000000000000)%Z; [lia|].
    apply Z.div_le_lower_bound; [lia|]. nia.
  - apply Z.div_lt_upper_bound; [lia|]. nia.
Qed.

Lemma product_ids_elem (product_data : gmap Z value) (k : Z) :
  k ∈ (map_to_list product_data).*1 ↔ is_Some (product_data !! k).
Proof.
  rewrite list_elem_of_fmap. split.
  - intros ([k' v] & -> & Hin%elem_of_map_to_list). by exists v.
  - intros [v Hv]. exists (k, v). split; [done|]. by apply elem_of_map_to_list.
Qed.

Lemma generate_deal_products_spec (fuel : nat) (deal_ids : list Z)
    (product_data : gmap Z value) (count : Z) (c0 : conn) :
  spec (λ c, c = c0)
       (generate_deal_products fuel deal_ids product_data count)
       (λ _ c, ∃ rows,
          inserted c0 c rows
          ∧ length rows = Z.to_nat count
          ∧ NoDup (pair_of <$> rows)
          ∧ Forall (deal_product_row_ok deal_ids product_data) rows)
       (deal_products_error c0 deal_ids product_data count).
Proof.
  unfold generate_deal_products.
  set (raw_ok := λ (used : gset (Z * Z)) (r : row),
         ∃ d p, dict_get "deal_id" r = Some (VInt d)
                ∧ dict_get "product_id" r = Some (VInt p)
                ∧ (d, p) ∈ used ∧ d ∈ deal_ids ∧ is_Some (product_data !! p)).
  set (raw_pair := λ r : row, (dict_get "deal_id" r, dict_get "product_id" r)).
  set (I := λ (st : list row * gset (Z * Z)) (c : conn),
         c = c0 ∧ NoDup (raw_pair <$> st.1)
         ∧ (Z.of_nat (length st.1) ≤ Z.max count 0)%Z
         ∧ Forall (raw_ok st.2) st.1).
  eapply spec_pre; [eapply spec_bind; [apply (spec_while _ _ _ I)|]|].
  - intros [dps used] Hcond. simpl in Hcond. apply bool_decide_eq_true in Hcond.
    eapply spec_bind; [apply spec_random_choice|intros deal_id].
    { intros -> c (-> & _). split; [done|]. left. split; [done|by left]. }
    eapply spec_bind; [apply spec_random_choice|intros product_id].
    { intros Hnil c (_ & -> & _). split; [done|]. left. split; [done|]. right.
      apply map_to_list_empty_iff. by apply fmap_nil_inv in Hnil. }
    apply (spec_pure _ _ _ _
             (is_Some (product_data !! product_id) ∧ deal_id ∈ deal_ids)).
    { intros c (Hp & Hd & _). split; [by apply product_ids_elem|done]. }
    intros [Hprod Hdeal].
    case_bool_decide as Hpair.
    + eapply spec_post; [apply spec_ret|]. intros st c [-> (_ & _ & HI)]. done.
    + eapply spec_bind; [by apply spec_price_of|intros base_price].
      eapply spec_bind;
        [by apply (spec_random_randint_range 800 1200)|intros factor].
      eapply spec_bind; [|intros product].
      { eapply spec_conseq; [apply spec_times_factor|intros ? H; exact H
                             |intros ? ? H; exact H|].
        intros e c ([[-> Hnone]|(-> & h & Hh & Hbig)]
                    & Hf & Hbase & _ & _ & -> & _).
        - split; [done|]. right; left. split; [done|].
          by exists product_id, base_price.
        - split; [done|]. right; right; left. split; [by left|].
          exists product_id, base_price. split; [done|]. intros Hscal.
          pose proof (scalable_product _ _ _ Hscal Hh Hf). lia. }
      skip_quiet.
      eapply spec_bind; [|intros unit_price].
      { eapply spec_conseq; [apply spec_round_price|intros ? H; exact H
                             |intros ? ? H; exact H|].
        intros e c (-> & Hbig & (h & Hh & ->) & Hf & Hbase & _ & _ & -> & _).
        split; [done|]. right; right; left. split; [by right|].
        exists product_id, base_price. split; [done|]. intros Hscal.
        pose proof (scalable_rounds _ _ _ Hscal Hh Hf). lia. }
      eapply spec_bind; [apply spec_random_choice; done|intros discount].
      eapply spec_post; [apply spec_ret|].
      intros st c [-> (_ & _ & _ & _ & _ & _ & -> & Hnd & Hlen & Hok)].
      simpl in Hnd, Hlen, Hok. split_and!; [done|..]; simpl.
      * rewrite fmap_app. apply NoDup_app. split_and!; [done| |apply NoDup_singleton].
        intros pr Hpr [= ->]%list_elem_of_singleton.
        apply list_elem_of_fmap in Hpr as (r & Hr & Hin).
        rewrite Forall_forall in Hok.
        destruct (Hok r Hin) as (d & p' & Hd & Hp & Hused & _).
        unfold raw_pair in Hr. rewrite Hd, Hp in Hr. by injection Hr as <- <-.
      * rewrite length_app. simpl. lia.
      * apply Forall_app. split.
        -- eapply Forall_impl; [done|]. intros r (d & p' & ? & ? & ? & ? & ?).
           exists d, p'. split_and!; [done..|set_solver|done|done].
        -- apply Forall_singleton. exists deal_id, product_id.
           split_and!; [done..|set_solver|done|done].
  - intros [dps used].
    eapply spec_conseq; [apply spec_insert_many|intros ? H; exact H| |].
    2:{ intros e c (-> & -> & (-> & _) & Hcond). split; [done|].
        do 3 right. split; [done|].
        simpl in Hcond. apply bool_decide_eq_false in Hcond. simpl in Hcond. lia. }
    intros _ c (_ & c1 & ((-> & Hnd & Hlen & Hok) & Hcond) & ->).
    simpl in Hnd, Hlen, Hok, Hcond. apply bool_decide_eq_false in Hcond.
    destruct (inserted_insert_many c0 c0 [] "deal_products" dps (inserted_refl c0))
      as (new & Hnew & Hdps & Htab).
    exists new. split_and!.
    + done.
    + rewrite <- Hdps in Hlen, Hcond. rewrite !length_fmap in Hlen, Hcond. lia.
    + assert (pair_of <$> new = raw_pair <$> new.*2.*2) as ->.
      { rewrite <- !list_fmap_compose. by apply list_fmap_ext. }
      by rewrite Hdps.
    + rewrite <- Hdps in Hok. rewrite !Forall_fmap in Hok.
      rewrite Forall_forall in Htab, Hok. apply Forall_forall. intros entry Hin.
      destruct (Hok entry Hin) as (d & p' & Hd & Hp & _ & Hdin & Hpin).
      split; [by apply Htab|]. by exists d, p'.
  - intros c ->. split_and!; [done|apply NoDup_nil_2|simpl; lia|done].
Qed.

Lemma generate_companies_spec (count : Z) (c0 : conn) :
  spec (λ c, c = c0)
       (generate_companies count)
       (λ company_ids c, ∃ rows,
          inserted c0 c rows
          ∧ length rows = Z.to_nat count
          ∧ company_ids = rows.*2.*1
          ∧ Forall (λ entry, entry.1 = "companies") rows)
       (λ _ _, False).
Proof.
  unfold generate_companies, for_range.
  set (I := λ (done : list nat) (ids : list Z) (c : conn),
         ∃ rows, inserted c0 c rows ∧ length rows = length done
                 ∧ ids = rows.*2.*1
                 ∧ Forall (λ entry, entry.1 = "companies") rows).
  eapply spec_conseq;
    [apply (spec_for_each _ _ I)| | |intros e c H; exact H].
  - intros done i ids. do 11 skip_quiet.
    eapply spec_bind; [apply spec_insert_returning|intros id].
    eapply spec_post; [apply spec_ret|].
    intros st c [-> (c1 & (rows & Hrows & Hlen & Hids & Hok) & Hins)].
    eexists. split_and!.
    + by eapply inserted_insert_row.
    + rewrite !length_app, Hlen. done.
    + rewrite !fmap_app, Hids. done.
    + apply Forall_app. split; [done|]. by apply Forall_singleton.
  - intros c ->. exists []. split_and!; [apply inserted_refl|done..].
  - intros ids c (rows & Hrows & Hlen & Hids & Hok). exists rows.
    split_and!; [done| |done..]. by rewrite Hlen, length_seq.
Qed.

(** The three generators that collect their rows and insert them at the
    end share this conclusion. *)
Lemma batch_inserted (c0 : conn) (table : string) (rows : list row) (n : nat) :
  length rows = n →
  ∃ new, inserted c0 (foldl (λ c r, (insert_row table r c).2) c0 rows) new
         ∧ length new = n ∧ Forall (λ entry, entry.1 = table) new.
Proof.
  intros Hlen.
  destruct (inserted_insert_many c0 c0 [] table rows (inserted_refl c0))
    as (new & Hnew & Hrows & Htab).
  exists new. split_and!; [done| |done].
  by rewrite <- Hlen, <- Hrows, !length_fmap.
Qed.

Lemma activity_subjects_nonempty (activity_type : string) (subjects : list string) :
  dict_get activity_type activity_subjects = Some subjects → subjects ≠ [].
Proof.
  intros H%dict_get_elem_of.
  repeat (apply elem_of_cons in H as [[= -> ->]|H]; [done|]).
  by apply elem_of_nil in H.
Qed.

Lemma generate_activities_spec (contact_ids : list Z) (count : Z) (c0 : conn) :
  spec (λ c, c = c0)
       (generate_activities contact_ids count)
       (λ _ c, ∃ rows,
          inserted c0 c rows ∧ length rows = Z.to_nat count
          ∧ Forall (λ entry, entry.1 = "activities") rows)
       (batch_error c0 contact_ids count).
Proof.
  unfold generate_activities, for_range.
  set (I := λ (done : list nat) (acts : list row) (c : conn),
         c = c0 ∧ length acts = length done).
  eapply spec_pre; [eapply spec_bind; [apply (spec_for_each _ _ I)|]|].
  - intros done i acts.
    eapply spec_bind; [apply spec_random_choice|intros contact_id].
    { intros -> c [-> _]. split; [done|]. by left. }
    eapply spec_bind; [apply spec_random_choice; done|intros activity_type].
    eapply spec_bind; [apply spec_subscript|intros subjects].
    { intros Hnone c [Ht _]. apply (dict_get_keys _ activity_subjects) in Ht as [? ?].
      congruence. }
    eapply spec_bind; [apply spec_random_choice|intros subject].
    { intros -> c [Hd _]. by apply activity_subjects_nonempty in Hd. }
    do 4 skip_quiet.
    eapply spec_post; [apply spec_ret|].
    intros st c [-> (_ & _ & _ & _ & -> & Hlen)]. split; [done|].
    rewrite !length_app. simpl. by f_equal.
  - intros acts.
    eapply spec_conseq; [apply spec_insert_many|intros ? H; exact H| |].
    + intros _ c (_ & c1 & [-> Hlen] & ->). rewrite length_seq in Hlen.
      by apply batch_inserted.
    + intros e c (-> & -> & -> & Hlen). rewrite length_seq in Hlen.
      split; [done|]. right. split; [done|]. simpl in Hlen. lia.
  - by intros c ->.
Qed.

Lemma generate_notes_spec (contact_ids : list Z) (count : Z) (c0 : conn) :
  spec (λ c, c = c0)
       (generate_notes contact_ids count)
       (λ _ c, ∃ rows,
          inserted c0 c rows ∧ length rows = Z.to_nat count
          ∧ Forall (λ entry, entry.1 = "notes") rows)
       (batch_error c0 contact_ids count).
Proof.
  unfold generate_notes, for_range.
  set (I := λ (done : list nat) (notes : list row) (c : conn),
         c = c0 ∧ length notes = length done).
  eapply spec_pre; [eapply spec_bind; [apply (spec_for_each _ _ I)|]|].
  - intros done i notes.
    eapply spec_bind; [apply spec_random_choice|intros contact_id].
    { intros -> c [-> _]. split; [done|]. by left. }
    do 15 skip_quiet.
    eapply spec_post; [apply spec_ret|].
    intros st c [-> (_ & -> & Hlen)]. split; [done|].
    rewrite !length_app. simpl. by f_equal.
  - intros notes.
    eapply spec_conseq; [apply spec_insert_many|intros ? H; exact H| |].
    + intros _ c (_ & c1 & [-> Hlen] & ->). rewrite length_seq in Hlen.
      by apply batch_inserted.
    + intros e c (-> & -> & -> & Hlen). rewrite length_seq in Hlen.
      split; [done|]. right. split; [done|]. simpl in Hlen. lia.
  - by intros c ->.
Qed.

Lemma generate_tasks_spec (deal_ids : list Z) (count : Z) (c0 : conn) :
  spec (λ c, c = c0)
       (generate_tasks deal_ids count)
       (λ _ c, ∃ rows,
          inserted c0 c rows ∧ length rows = Z.to_nat count
          ∧ Forall (λ entry, entry.1 = "tasks") rows)
       (batch_error c0 deal_ids count).
Proof.
  unfold generate_tasks, for_range.
  set (I := λ (done : list nat) (tasks : list row) (c : conn),
         c = c0 ∧ length tasks = length done).
  eapply spec_pre; [eapply spec_bind; [apply (spec_for_each _ _ I)|]|].
  - intros done i tasks.
    eapply spec_bind; [apply spec_random_choice|intros deal_id].
    { intros -> c [-> _]. split; [done|]. by left. }
    eapply spec_bind; [apply spec_random_choice; done|intros [task_title description]].
    do 5 skip_quiet.
    eapply spec_post; [apply spec_ret|].
    intros st c [-> (_ & _ & -> & Hlen)]. split; [done|].
    rewrite !length_app. simpl. by f_equal.
  - intros tasks.
    eapply spec_conseq; [apply spec_insert_many|intros ? H; exact H| |].
    + intros _ c (_ & c1 & [-> Hlen] & ->). rewrite length_seq in Hlen.
      by apply batch_inserted.
    + intros e c (-> & -> & -> & Hlen). rewrite length_seq in Hlen.
      split; [done|]. right. split; [done|]. simpl in Hlen. lia.
  - by intros c ->.
Qed.
End GeneratorFacts.

(** ** Driver *)

Module DriverFacts.
Import SpecRules GeneratorFacts.

Lemma bind_ret_eq {A B} (m : M A) (k : A → M B) (w w' : world) (a : A) :
  m w = (Ret a, w') → (m ≫= k) w = k a w'.
Proof. intros H. unfold mbind, M_bind. by rewrite H. Qed.

Lemma bind_raise_eq {A B} (m : M A) (k : A → M B) (w w' : world) (e : exn) :
  m w = (Raise e, w') → (m ≫= k) w = (Raise e, w').
Proof. intros H. unfold mbind, M_bind. by rewrite H. Qed.

Lemma for_each_app {A S} (l1 l2 : list A) (body : A → S → M S) (s : S) (w : world) :
  for_each (l1 ++ l2) body s w
  = (s' ← for_each l1 body s; for_each l2 body s') w.
Proof.
  revert s w. induction l1 as [|x l1 IH]; intros s w; [done|].
  simpl. unfold mbind, M_bind in *.
  destruct (body x s w) as [[s1| |] w1]; [|done..]. apply IH.
Qed.

Lemma set_db_same (w : world) : set_db (db w) w = w.
Proof. by destruct w. Qed.

Lemma inserted_trans (c0 c1 c2 : conn) rows1 rows2 :
  inserted c0 c1 rows1 → inserted c1 c2 rows2 → inserted c0 c2 (rows1 ++ rows2).
Proof.
  intros (Hp1 & Hs1 & Hc1 & Ho1) (Hp2 & Hs2 & Hc2 & Ho2). unfold inserted.
  rewrite Hp2, Hp1, app_assoc. split_and!; congruence.
Qed.

(** Fix the connection a computation starts on. *)
Lemma spec_fix {A} (m : M A) (P : conn → Prop) (Q : A → conn → Prop) E :
  (∀ c1, P c1 → spec (λ c, c = c1) m Q E) → spec P m Q E.
Proof. intros H w Hw. by apply (H (db w) Hw w). Qed.

(** *** Generators on a count of zero *)

Lemma insert_many_nil (table : string) (w : world) :
  insert_many table [] w = (Raise StatementError, w).
Proof. done. Qed.









(** *** The fallback to the store *)

Lemma existing_or_exit_cases (name : string) (ids : list Z) (w : world) :
  (ids ≠ [] ∧ existing_or_exit name ids w = (Ret ids, w))
  ∨ (ids = [] ∧ visible_rows (db w) name ≠ []
     ∧ existing_or_exit name ids w = (Ret (visible_rows (db w) name).*1, w))
  ∨ (ids = [] ∧ visible_rows (db w) name = []
     ∧ existing_or_exit name ids w = (Raise (missing_prerequisite name), w)).
Proof.
  unfold existing_or_exit. case_bool_decide as Hids; [|by left].
  right. unfold mbind, M_bind, fetch_existing_ids.
  destruct (visible_rows (db w) name) as [|r rs] eqn:Hv.
  - right. by rewrite bool_decide_eq_true_2.
  - left. by rewrite bool_decide_eq_false_2.
Qed.

Lemma existing_or_exit_spec (name : string) (ids : list Z) (c0 : conn) :
  spec (λ c, c = c0) (existing_or_exit name ids)
       (λ ids' c, c = c0 ∧ ids' ≠ [] ∧ (ids ≠ [] → ids' = ids))
       (λ e c, c = c0 ∧ e = missing_prerequisite name ∧ ids = []
               ∧ visible_rows c0 name = []).
Proof.
  intros w <-.
  destruct (existing_or_exit_cases name ids w)
    as [[Hne ->]|[(-> & Hv & ->)|(-> & Hv & ->)]]; simpl; [done| |done].
  split_and!; [done| |done]. by destruct (visible_rows (db w) name).
Qed.
Lemma fetch_column_lookup (col : string) (rows : list (Z * row))
    (acc : gmap Z value) (k : Z) (v : value) :
  foldl (λ m p, <[p.1 := default VNone (dict_get col p.2)]> m) acc rows !! k = Some v →
  acc !! k = Some v
  ∨ ∃ entry, entry ∈ rows ∧ entry.1 = k ∧ v = default VNone (dict_get col entry.2).
Proof.
  revert acc. induction rows as [|r rows IH]; intros acc; simpl; [by left|].
  intros [Hacc|(entry & Hin & Hk & Hv)]%IH.
  - apply lookup_insert_Some in Hacc as [[<- <-]|[_ Hacc]]; [|by left].
    right. exists r. split_and!; [by left|done..].
  - right. exists entry. split_and!; [by right|done..].
Qed.

Lemma fetch_column_empty (col : string) (rows : list (Z * row)) :
  foldl (λ m p, <[p.1 := default VNone (dict_get col p.2)]> m)
        (∅ : gmap Z value) rows = ∅ →
  rows = [].
Proof.
  destruct rows as [|r rows]; [done|]. simpl. intros Hempty. exfalso.
  assert (∀ (l : list (Z * row)) (acc : gmap Z value),
            acc ≠ ∅ →
            foldl (λ m p, <[p.1 := default VNone (dict_get col p.2)]> m) acc l ≠ ∅)
    as Hne.
  { induction l as [|x l IH]; intros acc Hacc; [done|]. simpl. apply IH.
    apply insert_non_empty. }
  by apply (Hne rows (<[r.1:=default VNone (dict_get col r.2)]> ∅));
    [apply insert_non_empty|].
Qed.

Lemma contacts_or_exit_cases (p : pools) (w : world) :
  (∃ ids m, ids ≠ [] ∧ contacts_or_exit p w = (Ret (ids, m), w)
            ∧ (pools_consistent p → ∀ k, is_Some (m !! k) → k ∈ ids))
  ∨ (contact_ids p = [] ∧ visible_rows (db w) "contacts" = []
     ∧ contacts_or_exit p w = (Raise (missing_prerequisite "contacts"), w)).
Proof.
  unfold contacts_or_exit. case_bool_decide as Hids.
  - unfold mbind, M_bind, fetch_existing_ids, fetch_contact_company_map,
      fetch_column.
    destruct (visible_rows (db w) "contacts") as [|r rs] eqn:Hv.
    + right. by rewrite bool_decide_eq_true_2.
    + left. rewrite bool_decide_eq_false_2 by done. eexists _, _.
      split_and!; [|done|]; [done|]. intros _ k [v Hk].
      apply fetch_column_lookup in Hk as [Hk|(entry & Hin & <- & _)]; [done|].
      apply list_elem_of_fmap. by exists entry.
  - left. exists (contact_ids p), (contact_company_map p). by split_and!.
Qed.

Lemma contacts_or_exit_spec (p : pools) (c0 : conn) :
  spec (λ c, c = c0) (contacts_or_exit p)
       (λ '(ids, m) c, c = c0 ∧ ids ≠ []
                       ∧ (pools_consistent p → ∀ k, is_Some (m !! k) → k ∈ ids))
       (λ e c, c = c0 ∧ e = missing_prerequisite "contacts"
               ∧ contact_ids p = [] ∧ visible_rows c0 "contacts" = []).
Proof.
  intros w <-.
  destruct (contacts_or_exit_cases p w)
    as [(ids & m & Hne & -> & Hcons)|(Hp & Hv & ->)]; by simpl.
Qed.

Lemma prices_or_exit_cases (p : pools) (w : world) :
  (∃ pd, pd ≠ ∅ ∧ prices_or_exit p w = (Ret pd, w)
         ∧ (prices_scalable p (db w) → ∀ k v, pd !! k = Some v → scalable v))
  ∨ (product_data p = ∅ ∧ visible_rows (db w) "products" = []
     ∧ prices_or_exit p w = (Raise (missing_prerequisite "products"), w)).
Proof.
  unfold prices_or_exit. case_bool_decide as Hpd.
  - unfold mbind, M_bind, fetch_product_prices, fetch_column.
    case_bool_decide as Hv.
    + right. split_and!; [done|by apply fetch_column_empty in Hv|done].
    + left. eexists. split_and!; [done..|]. intros [_ Hstore] k v Hk.
      apply fetch_column_lookup in Hk as [Hk|(entry & Hin & _ & ->)]; [done|].
      by apply Hstore.
  - left. exists (product_data p). split_and!; [done..|]. by intros [Hpool _].
Qed.

Lemma prices_or_exit_spec (p : pools) (c0 : conn) :
  spec (λ c, c = c0) (prices_or_exit p)
       (λ pd c, c = c0 ∧ pd ≠ ∅
                ∧ (prices_scalable p c0 → ∀ k v, pd !! k = Some v → scalable v))
       (λ e c, c = c0 ∧ e = missing_prerequisite "products"
               ∧ product_data p = ∅ ∧ visible_rows c0 "products" = []).
Proof.
  intros w <-.
  destruct (prices_or_exit_cases p w) as [(pd & Hne & -> & Hdec)|(Hp & Hv & ->)];
    by simpl.
Qed.

Lemma pool_empty_companies (p : pools) :
  pool_empty "companies" p = (company_ids p = []).
Proof. reflexivity. Qed.
Lemma pool_empty_contacts (p : pools) :
  pool_empty "contacts" p = (contact_ids p = []).
Proof. reflexivity. Qed.
Lemma pool_empty_deals (p : pools) : pool_empty "deals" p = (deal_ids p = []).
Proof. reflexivity. Qed.
Lemma pool_empty_products (p : pools) :
  pool_empty "products" p = (product_data p = ∅).
Proof. reflexivity. Qed.

Ltac known_dep := apply (bool_decide_unpack _); by vm_compute.
Ltac on_table := rewrite bool_decide_eq_true_2 by done.
Ltac off_table := rewrite bool_decide_eq_false_2 by done.

(** A missing prerequisite of [table], as [driver_error] wants it. *)
Lemma missing_is_driver_error (c0 : conn) (table dep : string) (count : Z)
    (p : pools) (e : exn) (c : conn) :
  dep ∈ table_deps table → pool_empty dep p →
  c = c0 ∧ e = missing_prerequisite dep ∧ visible_rows c0 dep = [] →
  driver_error c0 table count p e c.
Proof. intros Hdep Hpool (-> & -> & Hv). split; [done|]. left. by exists dep. Qed.

(** One turn of the driver: rows are only added, the contact map stays
    within the contact pool, and the only exceptions are those of
    [driver_error]. *)
Lemma turn_rows_plain (table : string) (rows : list (string * (Z * row))) :
  Forall (λ entry, entry.1 = table) rows →
  table ≠ "contacts" → table ≠ "products" → table ≠ "deal_products" →
  turn_rows_ok table rows.
Proof. intros. by split_and!. Qed.

Lemma turn_rows_keyed (table : string) (rows : list (string * (Z * row)))
    (ok : string * (Z * row) → Prop) :
  Forall ok rows → (∀ entry, ok entry → entry.1 = table) →
  (table = "contacts" → NoDup (column "email" <$> rows)) →
  (table = "products" → NoDup (column "sku" <$> rows)) →
  (table = "deal_products" → NoDup (pair_of <$> rows)) →
  turn_rows_ok table rows.
Proof.
  intros Hok Himp ???. split_and!; [|done..].
  eapply Forall_impl; [exact Hok|exact Himp].
Qed.

Lemma generate_table_spec (fuel : nat) (table : string) (count : Z) (p : pools)
    (c0 : conn) :
  spec (λ c, c = c0)
       (generate_table fuel table count p)
       (λ p' c, ∃ rows, inserted c0 c rows
                        ∧ turn_rows_ok table rows
                        ∧ (pools_consistent p → pools_consistent p'))
       (driver_error c0 table count p).
Proof.
  unfold generate_table.
  destruct (decide (table = "companies")) as [->|?]; [on_table|off_table].
  2: destruct (decide (table = "contacts")) as [->|?]; [on_table|off_table].
  3: destruct (decide (table = "products")) as [->|?]; [on_table|off_table].
  4: destruct (decide (table = "deals")) as [->|?]; [on_table|off_table].
  5: destruct (decide (table = "deal_products")) as [->|?]; [on_table|off_table].
  6: destruct (decide (table = "activities")) as [->|?]; [on_table|off_table].
  7: destruct (decide (table = "notes")) as [->|?]; [on_table|off_table].
  8: destruct (decide (table = "tasks")) as [->|?]; [on_table|off_table].
  - (* companies *)
    eapply spec_bind; [|intros ids].
    { eapply spec_exn; [apply generate_companies_spec|done]. }
    eapply spec_post; [apply spec_ret|].
    intros p' c [-> (rows & Hrows & _ & _ & Htable)].
    exists rows. split_and!; [done|by apply turn_rows_plain|done].
  - (* contacts *)
    eapply spec_bind; [|intros ids].
    { eapply spec_exn; [apply existing_or_exit_spec|].
      intros e c (-> & -> & Hids & Hv).
      apply (missing_is_driver_error _ _ "companies"); [known_dep|done..]. }
    apply (spec_pure _ _ _ _ (ids ≠ [])); [by intros c (_ & ? & _)|intros Hne].
    eapply spec_bind; [|intros [contact_ids contact_company_map]].
    { eapply spec_exn; [eapply spec_pre; [apply (generate_contacts_spec fuel ids count c0)|by intros c (-> & _)]|].
      by intros e c (_ & ? & _). }
    eapply spec_post; [apply spec_ret|].
    intros p' c [-> (rows & Hrows & _ & -> & Hemails & Hok & Hmap)].
    exists rows. split_and!; [done| |].
    + eapply turn_rows_keyed; [exact Hok|by intros ? [? _]|done..].
    + intros _ k Hk. by apply Hmap.
  - (* products *)
    eapply spec_bind; [|intros pd].
    { eapply spec_exn; [apply generate_products_spec|done]. }
    eapply spec_post; [apply spec_ret|].
    intros p' c [-> (rows & Hrows & _ & Hskus & Hok & _)].
    exists rows. split_and!; [done| |done].
    eapply turn_rows_keyed; [exact Hok|by intros ? [? _]|done..].
  - (* deals *)
    eapply spec_bind; [|intros ids].
    { eapply spec_exn; [apply existing_or_exit_spec|].
      intros e c (-> & -> & Hids & Hv).
      apply (missing_is_driver_error _ _ "companies"); [known_dep|done..]. }
    apply (spec_pure _ _ _ _ (ids ≠ [])); [by intros c (_ & ? & _)|intros Hne].
    eapply spec_bind; [|intros [contact_ids contact_company_map]].
    { eapply spec_exn; [eapply spec_pre; [apply (contacts_or_exit_spec p c0)|by intros c (-> & _)]|].
      intros e c (-> & -> & Hids & Hv).
      apply (missing_is_driver_error _ _ "contacts"); [known_dep|done..]. }
    apply (spec_pure _ _ _ _
             (pools_consistent p → ∀ k, is_Some (contact_company_map !! k)
                                        → k ∈ contact_ids));
      [by intros c (_ & _ & ?)|intros Hcons].
    eapply spec_bind; [|intros deal_ids].
    { eapply spec_exn; [eapply spec_pre; [apply (generate_deals_spec ids contact_ids contact_company_map count c0)|by intros c (-> & _)]|].
      by intros e c (_ & ? & _). }
    eapply spec_post; [apply spec_ret|].
    intros p' c [-> (rows & Hrows & _ & _ & Hok)].
    exists rows. split_and!; [done| |].
    + eapply turn_rows_keyed; [exact Hok|by intros ? [? _]|done..].
    + intros Hp k Hk. by apply Hcons.
  - (* deal_products *)
    eapply spec_bind; [|intros ids].
    { eapply spec_exn; [apply existing_or_exit_spec|].
      intros e c (-> & -> & Hids & Hv).
      apply (missing_is_driver_error _ _ "deals"); [known_dep|done..]. }
    apply (spec_pure _ _ _ _ (ids ≠ [])); [by intros c (_ & ? & _)|intros Hne].
    eapply spec_bind; [|intros pd].
    { eapply spec_exn; [eapply spec_pre; [apply (prices_or_exit_spec p c0)|by intros c (-> & _)]|].
      intros e c (-> & -> & Hids & Hv).
      apply (missing_is_driver_error _ _ "products"); [known_dep|done..]. }
    apply (spec_pure _ _ _ _
             (pd ≠ ∅ ∧ (prices_scalable p c0 → ∀ k v, pd !! k = Some v → scalable v)));
      [by intros c (_ & ? & ?)|intros [Hpd Hdec]].
    eapply spec_bind; [|intros []].
    { eapply spec_exn; [eapply spec_pre; [apply (generate_deal_products_spec fuel ids pd count c0)|by intros c (-> & _)]|].
      intros e c (-> & [(_ & [?|?])|[(-> & k & v & Hk & Hv)
                                      |[(He & k & v & Hk & Hv)|[-> Hcount]]]]);
        [done..| | |].
      - split; [done|]. do 2 right. split_and!; [by left|done|].
        intros Hprices. destruct (Hdec Hprices k v Hk) as (h & Hh & _). congruence.
      - split; [done|]. do 2 right. split_and!; [by right|done|].
        intros Hprices. apply Hv. by eapply Hdec.
      - split; [done|]. right; left. split_and!; [done|known_dep|done]. }
    eapply spec_post; [apply spec_ret|].
    intros p' c [-> (rows & Hrows & _ & Hpairs & Hok)].
    exists rows. split_and!; [done| |done].
    eapply turn_rows_keyed; [exact Hok|by intros ? [? _]|done..].
  - (* activities *)
    eapply spec_bind; [|intros ids].
    { eapply spec_exn; [apply existing_or_exit_spec|].
      intros e c (-> & -> & Hids & Hv).
      apply (missing_is_driver_error _ _ "contacts"); [known_dep|done..]. }
    apply (spec_pure _ _ _ _ (ids ≠ [] ∧ (contact_ids p ≠ [] → ids = contact_ids p)));
      [by intros c (_ & ? & ?)|intros [Hne Hsame]].
    eapply spec_bind; [|intros []].
    { eapply spec_exn; [eapply spec_pre; [apply (generate_activities_spec ids count c0)|by intros c (-> & _)]|].
      intros e c (-> & [[_ ?]|[-> Hcount]]); [done|].
      split; [done|]. right; left. split_and!; [done|known_dep|done]. }
    eapply spec_post; [apply spec_ret|].
    intros p' c [-> (rows & Hrows & _ & Htable)].
    exists rows. split_and!; [done|by apply turn_rows_plain|].
    intros Hp k Hk. simpl in *. specialize (Hp k Hk).
    destruct (contact_ids p) as [|x l] eqn:E; [by apply elem_of_nil in Hp|].
    by rewrite Hsame.
  - (* notes *)
    eapply spec_bind; [|intros ids].
    { eapply spec_exn; [apply existing_or_exit_spec|].
      intros e c (-> & -> & Hids & Hv).
      apply (missing_is_driver_error _ _ "contacts"); [known_dep|done..]. }
    apply (spec_pure _ _ _ _ (ids ≠ [] ∧ (contact_ids p ≠ [] → ids = contact_ids p)));
      [by intros c (_ & ? & ?)|intros [Hne Hsame]].
    eapply spec_bind; [|intros []].
    { eapply spec_exn; [eapply spec_pre; [apply (generate_notes_spec ids count c0)|by intros c (-> & _)]|].
      intros e c (-> & [[_ ?]|[-> Hcount]]); [done|].
      split; [done|]. right; left. split_and!; [done|known_dep|done]. }
    eapply spec_post; [apply spec_ret|].
    intros p' c [-> (rows & Hrows & _ & Htable)].
    exists rows. split_and!; [done|by apply turn_rows_plain|].
    intros Hp k Hk. simpl in *. specialize (Hp k Hk).
    destruct (contact_ids p) as [|x l] eqn:E; [by apply elem_of_nil in Hp|].
    by rewrite Hsame.
  - (* tasks *)
    eapply spec_bind; [|intros ids].
    { eapply spec_exn; [apply existing_or_exit_spec|].
      intros e c (-> & -> & Hids & Hv).
      apply (missing_is_driver_error _ _ "deals"); [known_dep|done..]. }
    apply (spec_pure _ _ _ _ (ids ≠ [])); [by intros c (_ & ? & _)|intros Hne].
    eapply spec_bind; [|intros []].
    { eapply spec_exn; [eapply spec_pre; [apply (generate_tasks_spec ids count c0)|by intros c (-> & _)]|].
      intros e c (-> & [[_ ?]|[-> Hcount]]); [done|].
      split; [done|]. right; left. split_and!; [done|known_dep|done]. }
    eapply spec_post; [apply spec_ret|].
    intros p' c [-> (rows & Hrows & _ & Htable)].
    exists rows. split_and!; [done|by apply turn_rows_plain|done].
  - (* any other name *)
    eapply spec_post; [apply spec_ret|].
    intros p' c [-> ->]. exists [].
    split_and!; [apply inserted_refl|by apply turn_rows_plain|done].
Qed.
Lemma filter_all {A} (P : A → Prop) `{!∀ x, Decision (P x)} (l : list A) :
  Forall P l → filter P l = l.
Proof.
  induction 1 as [|a l Ha _ IH]; [done|].
  by rewrite filter_cons_True, IH.
Qed.

(** The rows of a turn add no repetition to the keys of a table, when the
    rows before it are of other tables. *)
Lemma keys_of_turn {K} (key : string * (Z * row) → K) (name table : string)
    (rows rows' : list (string * (Z * row))) :
  NoDup (key <$> filter (λ entry, entry.1 = name) rows) →
  Forall (λ entry, entry.1 = table) rows' →
  (table = name → NoDup (key <$> rows')) →
  (table = name → Forall (λ entry, entry.1 ≠ name) rows) →
  NoDup (key <$> filter (λ entry, entry.1 = name) (rows ++ rows')).
Proof.
  intros Hrows Htable Hkeys Hfresh. rewrite filter_app, fmap_app.
  destruct (decide (table = name)) as [->|Hne].
  - rewrite (filter_none _ rows), (filter_all _ rows'); [by auto|done|].
    intros entry Hentry. specialize (Hfresh eq_refl).
    by eapply Forall_forall in Hfresh.
  - rewrite (filter_none _ rows'); [by rewrite app_nil_r|].
    intros entry Hentry. eapply Forall_forall in Htable; [|done].
    simpl in Htable. congruence.
Qed.

Lemma unique_keys_turn (done : list string) (table : string)
    (rows rows' : list (string * (Z * row))) :
  Forall (λ entry, entry.1 ∈ done) rows → table ∉ done →
  unique_keys rows → turn_rows_ok table rows' →
  unique_keys (rows ++ rows').
Proof.
  intros Hdone Hnew (Hemails & Hskus & Hpairs) (Htable & He & Hs & Hp).
  assert (∀ name, table = name → Forall (λ entry, entry.1 ≠ name) rows)
    as Hfresh.
  { intros name <-. eapply Forall_impl; [exact Hdone|].
    intros entry Hin Heq. simpl in *. by rewrite Heq in Hin. }
  split_and!; apply (keys_of_turn _ _ table); auto.
Qed.

(** The walk over a plan only adds rows, of the tables of the plan, and
    keeps the contact map within the contact pool; over a plan that names
    no table twice the keys of the added rows are unique. *)
Lemma generate_tables_spec (fuel : nat) (plan : list string)
    (final_counts : list (string * Z)) (p0 : pools) (c0 : conn) :
  spec (λ c, c = c0)
       (generate_tables fuel plan final_counts p0)
       (λ p c, ∃ rows, inserted c0 c rows
                       ∧ (pools_consistent p0 → pools_consistent p)
                       ∧ Forall (λ entry, entry.1 ∈ plan) rows
                       ∧ (NoDup plan → unique_keys rows))
       (λ _ _, True).
Proof.
  unfold generate_tables.
  set (I := λ (done : list string) (p : pools) (c : conn),
         ∃ rows, inserted c0 c rows
                 ∧ (pools_consistent p0 → pools_consistent p)
                 ∧ Forall (λ entry, entry.1 ∈ done) rows
                 ∧ (NoDup done → unique_keys rows)).
  eapply spec_pre; [apply (spec_for_each _ _ I)|].
  - intros done table p. apply spec_fix.
    intros c1 (rows & Hrows & Hcons & Hdone & Hkeys).
    eapply spec_bind; [apply spec_subscript; done|intros count].
    eapply spec_conseq; [apply (generate_table_spec fuel table count p c1)
                        |by intros c [_ ->]| |done].
    intros p' c (rows' & Hrows' & (Htable & Hturn) & Hcons').
    exists (rows ++ rows'). split_and!; [by eapply inserted_trans|auto| |].
    + apply Forall_app. split.
      * eapply Forall_impl; [exact Hdone|]. intros entry ?.
        apply elem_of_app. by left.
      * eapply Forall_impl; [exact Htable|]. intros entry ->.
        apply elem_of_app. right. by left.
    + intros [Hnd [Hnew _]]%NoDup_app.
      apply (unique_keys_turn done table); [done| |by auto|done].
      intros Hin. apply (Hnew _ Hin). by left.
  - intros c ->. exists [].
    split_and!; [apply inserted_refl|done|done|].
    intros _. split_and!; apply NoDup_nil_2.
Qed.


Lemma generate_table_contacts (fuel : nat) (count : Z) (p : pools) :
  generate_table fuel "contacts" count p
  = (company_ids ← existing_or_exit "companies" (company_ids p);
     '(contact_ids, contact_company_map) ← generate_contacts fuel company_ids count;
     mret (Pools company_ids contact_ids contact_company_map
                 (product_data p) (deal_ids p))).
Proof. reflexivity. Qed.

Lemma generate_table_deals (fuel : nat) (count : Z) (p : pools) :
  generate_table fuel "deals" count p
  = (company_ids ← existing_or_exit "companies" (company_ids p);
     '(contact_ids, contact_company_map) ← contacts_or_exit p;
     deal_ids ← generate_deals company_ids contact_ids contact_company_map count;
     mret (Pools company_ids contact_ids contact_company_map (product_data p)
                 deal_ids)).
Proof. reflexivity. Qed.

Lemma generate_table_deal_products (fuel : nat) (count : Z) (p : pools) :
  generate_table fuel "deal_products" count p
  = (deal_ids ← existing_or_exit "deals" (deal_ids p);
     product_data ← prices_or_exit p;
     generate_deal_products fuel deal_ids product_data count;;
     mret (Pools (company_ids p) (contact_ids p) (contact_company_map p)
                 product_data deal_ids)).
Proof. reflexivity. Qed.

Lemma generate_table_activities (fuel : nat) (count : Z) (p : pools) :
  generate_table fuel "activities" count p
  = (contact_ids ← existing_or_exit "contacts" (contact_ids p);
     generate_activities contact_ids count;;
     mret (Pools (company_ids p) contact_ids (contact_company_map p)
                 (product_data p) (deal_ids p))).
Proof. reflexivity. Qed.

Lemma generate_table_notes (fuel : nat) (count : Z) (p : pools) :
  generate_table fuel "notes" count p
  = (contact_ids ← existing_or_exit "contacts" (contact_ids p);
     generate_notes contact_ids count;;
     mret (Pools (company_ids p) contact_ids (contact_company_map p)
                 (product_data p) (deal_ids p))).
Proof. reflexivity. Qed.

Lemma generate_table_tasks (fuel : nat) (count : Z) (p : pools) :
  generate_table fuel "tasks" count p
  = (deal_ids ← existing_or_exit "deals" (deal_ids p);
     generate_tasks deal_ids count;;
     mret (Pools (company_ids p) (contact_ids p) (contact_company_map p)
                 (product_data p) deal_ids)).
Proof. reflexivity. Qed.

Lemma existing_or_exit_missing (name : string) (ids : list Z) (w : world) :
  ids = [] → visible_rows (db w) name = [] →
  existing_or_exit name ids w = (Raise (missing_prerequisite name), w).
Proof.
  intros Hids Hv.
  destruct (existing_or_exit_cases name ids w)
    as [[? _]|[(_ & ? & _)|(_ & _ & H)]]; done.
Qed.

(** A prerequisite that is in neither the pools nor the store ends the
    turn with the exit, whatever the count, and leaves the world alone. *)
Lemma generate_table_missing (fuel : nat) (table : string) (count : Z) (p : pools)
    (w : world) (dep : string) :
  dep ∈ table_deps table → pool_empty dep p → visible_rows (db w) dep = [] →
  ∃ dep', dep' ∈ table_deps table ∧ pool_empty dep' p
          ∧ visible_rows (db w) dep' = []
          ∧ generate_table fuel table count p w
            = (Raise (missing_prerequisite dep'), w).
Proof.
  intros Hdep Hpool Hv.
  destruct (table_deps_cases table)
    as [H|[[-> H]|[[-> H]|[[-> H]|[[-> H]|[[-> H]|[-> H]]]]]]];
    rewrite H in Hdep; [by apply elem_of_nil in Hdep|..];
    repeat (apply elem_of_cons in Hdep as [->|Hdep]);
    try (by apply elem_of_nil in Hdep).
  - exists "companies". split_and!; [known_dep|done..|].
    rewrite generate_table_contacts.
    by rewrite (bind_raise_eq _ _ _ _ _ (existing_or_exit_missing _ _ w Hpool Hv)).
  - exists "companies". split_and!; [known_dep|done..|].
    rewrite generate_table_deals.
    by rewrite (bind_raise_eq _ _ _ _ _ (existing_or_exit_missing _ _ w Hpool Hv)).
  - rewrite generate_table_deals.
    destruct (existing_or_exit_cases "companies" (company_ids p) w)
      as [[_ H1]|[(_ & _ & H1)|(Hp1 & Hv1 & H1)]].
    + exists "contacts". split_and!; [known_dep|done..|].
      rewrite (bind_ret_eq _ _ _ _ _ H1).
      destruct (contacts_or_exit_cases p w) as [(ids & m & Hne & Hb & _)|(_ & _ & Hb)];
        [|by rewrite (bind_raise_eq _ _ _ _ _ Hb)].
      exfalso. unfold contacts_or_exit in Hb.
      rewrite bool_decide_eq_true_2 in Hb by done.
      unfold mbind, M_bind, fetch_existing_ids, fetch_contact_company_map,
        fetch_column in Hb.
      rewrite Hv in Hb. by rewrite bool_decide_eq_true_2 in Hb.
    + exists "contacts". split_and!; [known_dep|done..|].
      rewrite (bind_ret_eq _ _ _ _ _ H1).
      destruct (contacts_or_exit_cases p w) as [(ids & m & Hne & Hb & _)|(_ & _ & Hb)];
        [|by rewrite (bind_raise_eq _ _ _ _ _ Hb)].
      exfalso. unfold contacts_or_exit in Hb.
      rewrite bool_decide_eq_true_2 in Hb by done.
      unfold mbind, M_bind, fetch_existing_ids, fetch_contact_company_map,
        fetch_column in Hb.
      rewrite Hv in Hb. by rewrite bool_decide_eq_true_2 in Hb.
    + exists "companies". split_and!; [known_dep|done..|].
      by rewrite (bind_raise_eq _ _ _ _ _ H1).
  - exists "deals". split_and!; [known_dep|done..|].
    rewrite generate_table_deal_products.
    by rewrite (bind_raise_eq _ _ _ _ _ (existing_or_exit_missing _ _ w Hpool Hv)).
  - rewrite generate_table_deal_products.
    assert (prices_or_exit p w = (Raise (missing_prerequisite "products"), w)) as Hb.
    { unfold prices_or_exit. rewrite bool_decide_eq_true_2 by done.
      unfold mbind, M_bind, fetch_product_prices, fetch_column. rewrite Hv.
      by rewrite bool_decide_eq_true_2. }
    destruct (existing_or_exit_cases "deals" (deal_ids p) w)
      as [[_ H1]|[(_ & _ & H1)|(Hp1 & Hv1 & H1)]].
    + exists "products". split_and!; [known_dep|done..|].
      rewrite (bind_ret_eq _ _ _ _ _ H1). by rewrite (bind_raise_eq _ _ _ _ _ Hb).
    + exists "products". split_and!; [known_dep|done..|].
      rewrite (bind_ret_eq _ _ _ _ _ H1). by rewrite (bind_raise_eq _ _ _ _ _ Hb).
    + exists "deals". split_and!; [known_dep|done..|].
      by rewrite (bind_raise_eq _ _ _ _ _ H1).
  - exists "contacts". split_and!; [known_dep|done..|].
    rewrite generate_table_activities.
    by rewrite (bind_raise_eq _ _ _ _ _ (existing_or_exit_missing _ _ w Hpool Hv)).
  - exists "contacts". split_and!; [known_dep|done..|].
    rewrite generate_table_notes.
    by rewrite (bind_raise_eq _ _ _ _ _ (existing_or_exit_missing _ _ w Hpool Hv)).
  - exists "deals". split_and!; [known_dep|done..|].
    rewrite generate_table_tasks.
    by rewrite (bind_raise_eq _ _ _ _ _ (existing_or_exit_missing _ _ w Hpool Hv)).
Qed.
End DriverFacts.

(** From a [spec] to a statement about one run. *)
Lemma spec_run {A} (m : M A) (Q : A → conn → Prop) (E : exn → conn → Prop)
    (w w' : world) (a : A) :
  spec (λ c, c = db w) m Q E → m w = (Ret a, w') → Q a (db w').
Proof. intros Hm Hrun. specialize (Hm w eq_refl). by rewrite Hrun in Hm. Qed.

Lemma spec_run_raise {A} (m : M A) (Q : A → conn → Prop) (E : exn → conn → Prop)
    (w w' : world) (e : exn) :
  spec (λ c, c = db w) m Q E → m w = (Raise e, w') → E e (db w').
Proof. intros Hm Hrun. specialize (Hm w eq_refl). by rewrite Hrun in Hm. Qed.

(** ** The resolver in a run *)



(** ** Referential validity and uniqueness of generated rows *)

(** In every walk that [main] starts, the contact map only mentions
    contacts of the contact pool. *)
Lemma walk_keeps_map_within_pool (fuel : nat) (plan : list string)
    (final_counts : list (string * Z)) (w w' : world) (p : pools) :
  generate_tables fuel plan final_counts empty_pools w = (Ret p, w') →
  pools_consistent p.
Proof.
  intros Hrun.
  destruct (spec_run _ _ _ _ _ _
              (DriverFacts.generate_tables_spec fuel plan final_counts empty_pools
                 (db w)) Hrun) as (rows & _ & Hcons & _).
  apply Hcons. intros k [v Hk]. simpl in Hk. by rewrite lookup_empty in Hk.
Qed.

(** C3: called as [main] calls it, with a map that only mentions contacts
    of the contact pool, [generate_deals] inserts [count] deal rows, each
    of which names a company of the company pool; its contact, when it has
    one, is a contact of the contact pool that the map places at that very
    company, and it has none exactly when the map places no contact at the
    company.  Every call that [main] makes is of this kind: the pool and
    the map that the [deals] turn hands over, be they of this run or
    fetched from the store, agree in this way after any walk. *)
Theorem generate_deals_references
    (company_ids contact_ids : list Z) (contact_company_map : gmap Z value)
    (count : Z) (w w' : world) (deal_ids : list Z) :
  (∀ k, is_Some (contact_company_map !! k) → k ∈ contact_ids) →
  generate_deals company_ids contact_ids contact_company_map count w
  = (Ret deal_ids, w') →
  (∃ rows,
     inserted (db w) (db w') rows
     ∧ length rows = Z.to_nat count
     ∧ Forall (deal_refs_ok company_ids contact_company_map) rows
     ∧ Forall (λ entry, ∀ k, column "contact_id" entry = Some (VInt k)
                             → k ∈ contact_ids) rows)
  ∧ ∀ fuel plan final_counts w0 p w1 ids m w2,
      generate_tables fuel plan final_counts empty_pools w0 = (Ret p, w1) →
      contacts_or_exit p w1 = (Ret (ids, m), w2) →
      ∀ k, is_Some (m !! k) → k ∈ ids.
Proof.
  intros Hkeys Hrun. split.
  - destruct (spec_run _ _ _ _ _ _
                (GeneratorFacts.generate_deals_spec company_ids contact_ids
                   contact_company_map count (db w)) Hrun)
      as (rows & Hrows & Hlen & _ & Hok).
    exists rows. split_and!; [done..|].
    eapply Forall_impl; [exact Hok|].
    intros entry (_ & company & _ & _ & Hcontact) k Hk.
    destruct Hcontact as [[Hnone _]|(k' & Hk' & Hmap)]; [congruence|].
    rewrite Hk in Hk'. injection Hk' as <-. apply Hkeys. by eexists.
  - intros fuel plan final_counts w0 p w1 ids m w2 Hwalk Hcall.
    apply walk_keeps_map_within_pool in Hwalk.
    destruct (DriverFacts.contacts_or_exit_cases p w1)
      as [(ids' & m' & _ & Hret & Hcons)|(_ & _ & Hexit)]; [|congruence].
    rewrite Hret in Hcall. injection Hcall as <- <- _. by apply Hcons.
Qed.

Lemma generate_deals_references_witness :
  (∃ rows,
     inserted (db demo_world)
       (db (generate_deals [1%Z; 2%Z] [7%Z; 8%Z]
              {[7%Z := VInt 1; 8%Z := VInt 2]} 3 demo_world).2) rows
     ∧ length rows = Z.to_nat 3
     ∧ Forall (deal_refs_ok [1%Z; 2%Z] {[7%Z := VInt 1; 8%Z := VInt 2]}) rows
     ∧ Forall (λ entry, ∀ k, column "contact_id" entry = Some (VInt k)
                             → k ∈ [7%Z; 8%Z]) rows)
  ∧ ∀ fuel plan final_counts w0 p w1 ids m w2,
      generate_tables fuel plan final_counts empty_pools w0 = (Ret p, w1) →
      contacts_or_exit p w1 = (Ret (ids, m), w2) →
      ∀ k, is_Some (m !! k) → k ∈ ids.
Proof.
  apply (generate_deals_references [1%Z; 2%Z] [7%Z; 8%Z]
           {[7%Z := VInt 1; 8%Z := VInt 2]} 3 demo_world
           (generate_deals [1%Z; 2%Z] [7%Z; 8%Z]
              {[7%Z := VInt 1; 8%Z := VInt 2]} 3 demo_world).2 [1%Z; 2%Z; 3%Z]).
  - intros k [v Hk].
    destruct (decide (k = 7%Z)) as [->|H7]; [by left|].
    destruct (decide (k = 8%Z)) as [->|H8]; [by right; left|].
    rewrite lookup_insert_ne, lookup_singleton_ne in Hk by done. done.
  - vm_compute. reflexivity.
Defined.

(** C4: whatever the count, the contacts that one call of
    [generate_contacts] inserts have pairwise different addresses, the
    products of one call of [generate_products] pairwise different SKUs,
    and the rows of one call of [generate_deal_products] pairwise different
    [(deal_id, product_id)] pairs.  A run calls each generator at most once:
    the plan that [resolve_dependencies] makes of the keys of a parsed
    argument names no table twice, so among all the rows that the walk over
    it inserts no two contacts share an address, no two products a SKU and
    no two deal-product rows a pair. *)
Theorem generated_keys_are_unique (fuel : nat) (count : Z) :
  (∀ company_ids w contact_ids contact_company_map w',
     generate_contacts fuel company_ids count w
     = (Ret (contact_ids, contact_company_map), w') →
     ∃ rows, inserted (db w) (db w') rows
             ∧ length rows = Z.to_nat count
             ∧ Forall (contact_row_ok company_ids) rows
             ∧ NoDup (column "email" <$> rows))
  ∧ (∀ w product_data w',
       generate_products fuel count w = (Ret product_data, w') →
       ∃ rows, inserted (db w) (db w') rows
               ∧ length rows = Z.to_nat count
               ∧ Forall product_row_ok rows
               ∧ NoDup (column "sku" <$> rows))
  ∧ (∀ deal_ids product_data w w',
       generate_deal_products fuel deal_ids product_data count w = (Ret (), w') →
       ∃ rows, inserted (db w) (db w') rows
               ∧ length rows = Z.to_nat count
               ∧ Forall (deal_product_row_ok deal_ids product_data) rows
               ∧ NoDup (pair_of <$> rows))
  ∧ (∀ tables_arg default_count include_deps table_counts plan final_counts
       w p w',
       parse_table_spec tables_arg default_count = Ret table_counts →
       resolve_dependencies fuel (dict_keys table_counts) include_deps = Some plan →
       generate_tables fuel plan final_counts empty_pools w = (Ret p, w') →
       NoDup plan
       ∧ ∃ rows, inserted (db w) (db w') rows
                 ∧ Forall (λ entry, entry.1 ∈ plan) rows
                 ∧ unique_keys rows).
Proof.
  split_and!.
  - intros company_ids w ids m w' Hrun.
    destruct (spec_run _ _ _ _ _ _
                (GeneratorFacts.generate_contacts_spec fuel company_ids count (db w))
                Hrun) as (rows & Hrows & Hlen & _ & Hnd & Hok & _).
    by exists rows.
  - intros w pd w' Hrun.
    destruct (spec_run _ _ _ _ _ _
                (GeneratorFacts.generate_products_spec fuel count (db w)) Hrun)
      as (rows & Hrows & Hlen & Hnd & Hok & _).
    by exists rows.
  - intros deal_ids pd w w' Hrun.
    destruct (spec_run _ _ _ _ _ _
                (GeneratorFacts.generate_deal_products_spec fuel deal_ids pd count
                   (db w)) Hrun) as (rows & Hrows & Hlen & Hnd & Hok).
    by exists rows.
  - intros tables_arg dc include_deps table_counts plan final_counts w p w'
      Hparse Hplan Hrun.
    assert (NoDup plan) as Hnd.
    { eapply ResolverFacts.resolve_nodup; [|exact Hplan].
      eapply ParserFacts.parse_entries_keys_nodup; [exact Hparse|].
      apply NoDup_nil_2. }
    split; [done|].
    destruct (spec_run _ _ _ _ _ _
                (DriverFacts.generate_tables_spec fuel plan final_counts
                   empty_pools (db w)) Hrun)
      as (rows & Hrows & _ & Hplanned & Hkeys).
    exists rows. auto.
Qed.

Lemma generated_keys_are_unique_witness :
  (∃ rows, inserted (db demo_world)
             (db (generate_contacts 4 [1%Z; 2%Z] 3 demo_world).2) rows
           ∧ length rows = Z.to_nat 3
           ∧ Forall (contact_row_ok [1%Z; 2%Z]) rows
           ∧ NoDup (column "email" <$> rows))
  ∧ (∃ rows, inserted (db demo_world) (db (generate_products 4 3 demo_world).2) rows
             ∧ length rows = Z.to_nat 3
             ∧ Forall product_row_ok rows
             ∧ NoDup (column "sku" <$> rows))
  ∧ (∃ rows, inserted (db demo_world)
               (db (generate_deal_products 9 [1%Z; 2%Z]
                      {[5%Z := VDecimal 1000; 6%Z := VDecimal 250]} 3 demo_world).2)
               rows
             ∧ length rows = Z.to_nat 3
              ∧ Forall (deal_product_row_ok [1%Z; 2%Z]
                          {[5%Z := VDecimal 1000; 6%Z := VDecimal 250]}) rows
              ∧ NoDup (pair_of <$> rows))
  ∧ NoDup ["companies"; "contacts"]
  ∧ ∃ rows, inserted (db demo_world)
              (db (generate_tables 9 ["companies"; "contacts"]
                     [("companies", 2%Z); ("contacts", 2%Z)] empty_pools
                     demo_world).2) rows
            ∧ Forall (λ entry, entry.1 ∈ ["companies"; "contacts"]) rows
            ∧ unique_keys rows.
Proof.
  destruct (generated_keys_are_unique 4 3) as (Hc & Hp & _).
  destruct (generated_keys_are_unique 9 3) as (_ & _ & Hd & Hrun).
  split; [|split; [|split]].
  - apply (Hc [1%Z; 2%Z] demo_world
             (match (generate_contacts 4 [1%Z; 2%Z] 3 demo_world).1 with
              | Ret r => r.1 | _ => [] end)
             (match (generate_contacts 4 [1%Z; 2%Z] 3 demo_world).1 with
              | Ret r => r.2 | _ => ∅ end)
             (generate_contacts 4 [1%Z; 2%Z] 3 demo_world).2).
    vm_compute. reflexivity.
  - apply (Hp demo_world
             (match (generate_products 4 3 demo_world).1 with
              | Ret r => r | _ => ∅ end)
             (generate_products 4 3 demo_world).2).
    vm_compute. reflexivity.
  - apply (Hd [1%Z; 2%Z] {[5%Z := VDecimal 1000; 6%Z := VDecimal 250]} demo_world
             (generate_deal_products 9 [1%Z; 2%Z]
                {[5%Z := VDecimal 1000; 6%Z := VDecimal 250]} 3 demo_world).2).
    vm_compute. reflexivity.
  - apply (Hrun "contacts:2" None true
             [("contacts", 2%Z)] ["companies"; "contacts"]
             [("companies", 2%Z); ("contacts", 2%Z)] demo_world
             (match (generate_tables 9 ["companies"; "contacts"]
                       [("companies", 2%Z); ("contacts", 2%Z)] empty_pools
                       demo_world).1 with
              | Ret p => p | _ => empty_pools end)
             (generate_tables 9 ["companies"; "contacts"]
                [("companies", 2%Z); ("contacts", 2%Z)] empty_pools demo_world).2);
      vm_compute; reflexivity.
Defined.

(** ** The run as a whole *)

Lemma connect_frame (w0 : world) :
  persisted (db (connect w0).2) = persisted (db w0)
  ∧ commits (db (connect w0).2) = commits (db w0)
  ∧ pending (db (connect w0).2) = pending (db w0).
Proof. done. Qed.

(** C5: when the walk over the plan reaches a table one of whose
    prerequisites is neither in the pools (nothing produced it in this
    run) nor in the store (a query for it finds no row), the run ends there
    with the exit for a missing prerequisite of that table: no later table
    is processed, the commit is not executed, and the store holds what it
    held when the run began. *)
Theorem missing_prerequisite_aborts_run
    (fuel : nat) (pre : list string) (table : string) (post : list string)
    (final_counts : list (string * Z)) (count : Z) (dep : string)
    (w0 w : world) (p : pools) :
  generate_tables fuel pre final_counts empty_pools (connect w0).2 = (Ret p, w) →
  dict_get table final_counts = Some count →
  dep ∈ table_deps table →
  pool_empty dep p →
  visible_rows (db w) dep = [] →
  ∃ dep',
    dep' ∈ table_deps table
    ∧ pool_empty dep' p
    ∧ visible_rows (db w) dep' = []
    ∧ generate_and_commit fuel (pre ++ table :: post) final_counts w0
      = (Raise (missing_prerequisite dep'), close w)
    ∧ persisted (db (close w)) = persisted (db w0)
    ∧ commits (db (close w)) = commits (db w0)
    ∧ pending (db (close w)) = [].
Proof.
  intros Hpre Hcount Hdep Hpool Hv.
  destruct (DriverFacts.generate_table_missing fuel table count p w dep Hdep Hpool Hv)
    as (dep' & Hdep' & Hpool' & Hv' & Hturn).
  exists dep'. split_and!; [done..| | | |done].
  - unfold generate_and_commit, with_connection.
    assert ((connect;; generate_tables fuel (pre ++ table :: post) final_counts
                         empty_pools;; commit) w0
            = (Raise (missing_prerequisite dep'), w)) as ->; [|done].
    rewrite (DriverFacts.bind_ret_eq connect _ w0 (connect w0).2 ()) by done.
    apply DriverFacts.bind_raise_eq.
    unfold generate_tables in *. rewrite DriverFacts.for_each_app.
    rewrite (DriverFacts.bind_ret_eq _ _ _ _ _ Hpre). simpl.
    apply DriverFacts.bind_raise_eq.
    unfold subscript. rewrite Hcount.
    by rewrite (DriverFacts.bind_ret_eq (mret count) _ w w count).
  - destruct (spec_run _ _ _ _ _ _
                (DriverFacts.generate_tables_spec fuel pre final_counts empty_pools
                   (db (connect w0).2)) Hpre) as (rows & (_ & Hs & _) & _).
    simpl. by rewrite Hs.
  - destruct (spec_run _ _ _ _ _ _
                (DriverFacts.generate_tables_spec fuel pre final_counts empty_pools
                   (db (connect w0).2)) Hpre) as (rows & (_ & _ & Hc & _) & _).
    simpl. by rewrite Hc.
Qed.

Lemma missing_prerequisite_aborts_run_witness :
  ∃ dep',
    dep' ∈ table_deps "deals"
    ∧ pool_empty dep'
        (Pools [1%Z; 2%Z] [] ∅ ∅ [])
    ∧ visible_rows
        (db (generate_tables 5 ["companies"]
               [("companies", 2%Z); ("deals", 3%Z); ("tasks", 1%Z)]
               empty_pools (connect demo_world).2).2) dep' = []
    ∧ generate_and_commit 5 (["companies"] ++ "deals" :: ["tasks"])
        [("companies", 2%Z); ("deals", 3%Z); ("tasks", 1%Z)] demo_world
      = (Raise (missing_prerequisite dep'),
         close (generate_tables 5 ["companies"]
                  [("companies", 2%Z); ("deals", 3%Z); ("tasks", 1%Z)]
                  empty_pools (connect demo_world).2).2)
    ∧ persisted (db (close (generate_tables 5 ["companies"]
                              [("companies", 2%Z); ("deals", 3%Z); ("tasks", 1%Z)]
                              empty_pools (connect demo_world).2).2))
      = persisted (db demo_world)
    ∧ commits (db (close (generate_tables 5 ["companies"]
                            [("companies", 2%Z); ("deals", 3%Z); ("tasks", 1%Z)]
                            empty_pools (connect demo_world).2).2))
      = commits (db demo_world)
    ∧ pending (db (close (generate_tables 5 ["companies"]
                            [("companies", 2%Z); ("deals", 3%Z); ("tasks", 1%Z)]
                            empty_pools (connect demo_world).2).2)) = [].
Proof.
  apply (missing_prerequisite_aborts_run 5 ["companies"] "deals" ["tasks"]
           [("companies", 2%Z); ("deals", 3%Z); ("tasks", 1%Z)] 3 "contacts"
           demo_world).
  - vm_compute. reflexivity.
  - reflexivity.
  - apply (bool_decide_unpack _). vm_compute. reflexivity.
  - reflexivity.
  - vm_compute. reflexivity.
Defined.




Example run_companies_contacts :
  (main 5 (Args "companies:3,contacts:5" None false false) demo_world).1 = Ret ()
  ∧ (λ t, length (default [] (persisted (db (main 5
        (Args "companies:3,contacts:5" None false false) demo_world).2) !! t)))
      <$> ["companies"; "contacts"] = [3; 5]
  ∧ commits (db (main 5 (Args "companies:3,contacts:5" None false false)
                   demo_world).2) = 1.
Proof. by vm_compute. Qed.

(** * Further properties of the resolver *)

Lemma known_tables (l : list string) :
  Forall (.∈ ALL_TABLES) l → ∀ t, t ∈ l → t ∈ ALL_TABLES.
Proof. intros Hl t Ht. by eapply Forall_forall in Hl. Qed.

Module PlanFacts.
(** Selections of one list by a weaker and a stronger test. *)
Lemma filter_sublist {A} (P Q : A → Prop) `{!∀ x, Decision (P x)}
    `{!∀ x, Decision (Q x)} (l : list A) :
  (∀ x, x ∈ l → P x → Q x) → filter P l `sublist_of` filter Q l.
Proof.
  induction l as [|a l IH]; intros Himp; [done|].
  assert (filter P l `sublist_of` filter Q l) as Hl.
  { apply IH. intros x Hx. apply Himp. by right. }
  destruct (decide (P a)) as [Ha|Ha].
  - rewrite (filter_cons_True P), (filter_cons_True Q);
      [by apply sublist_skip|apply Himp; [by left|done]|done].
  - rewrite (filter_cons_False P) by done.
    destruct (decide (Q a)).
    + rewrite filter_cons_True by done. by apply sublist_cons.
    + by rewrite filter_cons_False.
Qed.

Lemma filter_same {A} (P Q : A → Prop) `{!∀ x, Decision (P x)}
    `{!∀ x, Decision (Q x)} (l : list A) :
  (∀ x, x ∈ l → P x ↔ Q x) → filter P l = filter Q l.
Proof.
  induction l as [|a l IH]; intros Hiff; [done|].
  assert (filter P l = filter Q l) as Hl.
  { apply IH. intros x Hx. apply Hiff. by right. }
  destruct (decide (P a)) as [Ha|Ha].
  - rewrite (filter_cons_True P), (filter_cons_True Q);
      [by f_equal|by apply Hiff; [left|]|done].
  - rewrite (filter_cons_False P), (filter_cons_False Q); [done| |done].
    intros HQ. apply Ha. apply Hiff; [by left|done].
Qed.

(** What [resolve_dependencies] returns on a request of schema tables. *)
Lemma resolve_known (fuel : nat) (requested : list string) :
  (∀ t, t ∈ requested → t ∈ ALL_TABLES) → 9 ≤ fuel →
  ∃ c : gset string,
    (∀ t, t ∈ c ↔ Resolver.in_closure table_deps requested t)
    ∧ resolve_dependencies fuel requested true = Some (filter (.∈ c) ALL_TABLES)
    ∧ (∀ t, t ∈ c → t ∈ ALL_TABLES).
Proof.
  intros Hreq Hfuel.
  apply (ResolverFacts.resolve_spec ALL_TABLES table_deps table_deps_in_enum
           ALL_TABLES_nodup table_deps_earlier fuel requested Hreq).
  simpl. lia.
Qed.

Lemma in_closure_requested (requested : list string) (t : string) :
  t ∈ requested → Resolver.in_closure table_deps requested t.
Proof. intros Ht. by exists t. Qed.

Lemma in_closure_dep (requested : list string) (t d : string) :
  Resolver.in_closure table_deps requested t → d ∈ table_deps t →
  Resolver.in_closure table_deps requested d.
Proof.
  intros (r & Hr & Hrt) Hd. exists r. split; [done|].
  eapply rtc_r; [exact Hrt|exact Hd].
Qed.

Lemma in_closure_trans (requested plan : list string) (t : string) :
  (∀ r, r ∈ plan → Resolver.in_closure table_deps requested r) →
  Resolver.in_closure table_deps plan t →
  Resolver.in_closure table_deps requested t.
Proof.
  intros Hplan (r & Hr & Hrt). destruct (Hplan r Hr) as (q & Hq & Hqr).
  exists q. split; [done|]. by etrans.
Qed.

(** The closure loop only adds tables. *)
Lemma closure_loop_grows (fuel : nat) (s c : gset string) :
  Resolver.closure_loop table_deps fuel s = Some c → s ⊆ c.
Proof.
  revert s. induction fuel as [|fuel IH]; intros s; [done|].
  rewrite ResolverFacts.closure_loop_S.
  destruct (Resolver.closure_pass table_deps s) as [s' added] eqn:E.
  assert (s ⊆ s') as Hsub.
  { intros x Hx. pose proof (ResolverFacts.closure_pass_elem table_deps s x) as H.
    rewrite E in H. apply H. by left. }
  destruct added.
  - intros Hc%IH. set_solver.
  - by intros [= <-].
Qed.

(** A scan only places tables of the list it scans. *)
Lemma order_scan_keeps (tables : list string) (tg : gset string)
    (ordered ordered' : list string) (remaining remaining' : gset string)
    (t : string) :
  Resolver.order_scan table_deps tables tg ordered remaining
  = (ordered', remaining') →
  t ∈ remaining → t ∉ tables → t ∈ remaining'.
Proof.
  revert ordered remaining.
  induction tables as [|a tables IH]; intros ordered remaining; simpl.
  - by intros [= _ <-].
  - intros Hscan Ht Hnot.
    destruct (bool_decide (a ∈ remaining)
              && Resolver.deps_placed table_deps ordered tg a).
    + injection Hscan as _ <-. set_solver.
    + eapply IH; [exact Hscan|done|]. set_solver.
Qed.

Lemma order_loop_stuck (fuel : nat) (tg : gset string) (ordered : list string)
    (remaining : gset string) (t : string) :
  t ∈ remaining → t ∉ ALL_TABLES →
  Resolver.order_loop ALL_TABLES table_deps fuel tg ordered remaining = None.
Proof.
  revert ordered remaining.
  induction fuel as [|fuel IH]; intros ordered remaining Ht Hnot; [done|].
  rewrite ResolverFacts.order_loop_S.
  rewrite bool_decide_eq_false_2 by set_solver.
  destruct (Resolver.order_scan table_deps ALL_TABLES tg ordered remaining)
    as [ordered' remaining'] eqn:E.
  apply IH; [|done]. by eapply order_scan_keeps.
Qed.

Lemma missing_deps_inner (plan deps : list string) (table : string)
    (missing : list (string * string)) (pair : string * string) :
  pair ∈ foldl (λ missing dep,
                  if bool_decide (dep ∈ plan) then missing
                  else missing ++ [(table, dep)]) missing deps
  ↔ pair ∈ missing ∨ (pair.1 = table ∧ pair.2 ∈ deps ∧ pair.2 ∉ plan).
Proof.
  revert missing. induction deps as [|d deps IH]; intros missing; simpl.
  - split; [by left|]. intros [?|(_ & []%elem_of_nil & _)]. done.
  - rewrite IH. case_bool_decide as Hd.
    + rewrite elem_of_cons. destruct pair as [a b]. simpl. naive_solver.
    + rewrite elem_of_app, list_elem_of_singleton, elem_of_cons.
      destruct pair as [a b]. simpl. naive_solver.
Qed.

Lemma missing_deps_outer (plan tables : list string)
    (missing : list (string * string)) (pair : string * string) :
  pair ∈ foldl (λ missing table,
                  foldl (λ missing dep,
                           if bool_decide (dep ∈ plan) then missing
                           else missing ++ [(table, dep)])
                        missing (table_deps table)) missing tables
  ↔ pair ∈ missing
    ∨ (pair.1 ∈ tables ∧ pair.2 ∈ table_deps pair.1 ∧ pair.2 ∉ plan).
Proof.
  revert missing. induction tables as [|t tables IH]; intros missing; simpl.
  - split; [by left|]. intros [?|([]%elem_of_nil & _)]. done.
  - rewrite IH, missing_deps_inner, elem_of_cons. naive_solver.
Qed.

(** More fuel does not change a result. *)
Lemma closure_loop_mono (fuel fuel' : nat) (s c : gset string) :
  Resolver.closure_loop table_deps fuel s = Some c → fuel ≤ fuel' →
  Resolver.closure_loop table_deps fuel' s = Some c.
Proof.
  revert fuel' s. induction fuel as [|fuel IH]; intros fuel' s; [done|].
  intros Hloop Hle. destruct fuel' as [|fuel']; [lia|].
  rewrite ResolverFacts.closure_loop_S in *.
  destruct (Resolver.closure_pass table_deps s) as [s' added].
  destruct added; [|done]. apply IH; [done|lia].
Qed.

Lemma order_loop_mono (fuel fuel' : nat) (tg : gset string)
    (ordered plan : list string) (remaining : gset string) :
  Resolver.order_loop ALL_TABLES table_deps fuel tg ordered remaining = Some plan →
  fuel ≤ fuel' →
  Resolver.order_loop ALL_TABLES table_deps fuel' tg ordered remaining = Some plan.
Proof.
  revert fuel' ordered remaining.
  induction fuel as [|fuel IH]; intros fuel' ordered remaining; [done|].
  intros Hloop Hle. destruct fuel' as [|fuel']; [lia|].
  rewrite ResolverFacts.order_loop_S in *.
  case_bool_decide; [done|].
  destruct (Resolver.order_scan table_deps ALL_TABLES tg ordered remaining).
  apply IH; [done|lia].
Qed.

Lemma resolve_mono (fuel fuel' : nat) (requested plan : list string)
    (include_deps : bool) :
  resolve_dependencies fuel requested include_deps = Some plan → fuel ≤ fuel' →
  resolve_dependencies fuel' requested include_deps = Some plan.
Proof.
  unfold resolve_dependencies, Resolver.resolve.
  destruct include_deps; simpl; [|done]. intros Hplan Hle.
  destruct (Resolver.closure_loop table_deps fuel (list_to_set requested))
    as [c|] eqn:E; [|done].
  rewrite (closure_loop_mono fuel fuel' _ c E Hle).
  by apply (order_loop_mono fuel fuel').
Qed.

Lemma resolve_unknown (fuel : nat) (requested : list string) (t : string) :
  t ∈ requested → t ∉ ALL_TABLES →
  resolve_dependencies fuel requested true = None.
Proof.
  intros Ht Hbad. unfold resolve_dependencies, Resolver.resolve. simpl.
  destruct (Resolver.closure_loop table_deps fuel (list_to_set requested))
    as [c|] eqn:E; [|done].
  apply closure_loop_grows in E.
  apply (order_loop_stuck fuel c [] c t); [|done].
  apply E, elem_of_list_to_set, Ht.
Qed.

(** Whatever the fuel, a returned plan is the enumeration restricted to
    the closure of the request, which is made of schema tables. *)
Lemma resolve_returned (fuel : nat) (requested plan : list string) :
  resolve_dependencies fuel requested true = Some plan →
  (∀ t, t ∈ requested → t ∈ ALL_TABLES)
  ∧ ∃ c : gset string,
      (∀ t, t ∈ c ↔ Resolver.in_closure table_deps requested t)
      ∧ plan = filter (.∈ c) ALL_TABLES
      ∧ (∀ t, t ∈ c → t ∈ ALL_TABLES).
Proof.
  intros Hplan.
  assert (∀ t, t ∈ requested → t ∈ ALL_TABLES) as Hreq.
  { intros t Ht. destruct (decide (t ∈ ALL_TABLES)) as [|Hbad]; [done|].
    by rewrite (resolve_unknown fuel requested t Ht Hbad) in Hplan. }
  split; [done|].
  destruct (resolve_known (fuel `max` 9) requested Hreq) as (c & Hc & Hres & Hsub);
    [lia|].
  exists c. split_and!; [done| |done].
  apply (resolve_mono fuel (fuel `max` 9)) in Hplan; [|lia]. congruence.
Qed.
End PlanFacts.

(** X1. Resolving a plan again changes nothing: a plan that
    [resolve_dependencies] returns with dependencies included is, given
    nine rounds or more, its own plan. *)
Theorem resolve_dependencies_idempotent
    (fuel fuel' : nat) (requested plan : list string) :
  resolve_dependencies fuel requested true = Some plan →
  9 ≤ fuel' →
  resolve_dependencies fuel' plan true = Some plan.
Proof.
  intros Hplan Hfuel'.
  destruct (PlanFacts.resolve_returned fuel requested plan Hplan)
    as (Hreq & c & Hc & -> & Hsub).
  destruct (PlanFacts.resolve_known fuel' (filter (.∈ c) ALL_TABLES))
    as (c' & Hc' & Hres' & Hsub'); [|done|].
  { by intros t [_ ?]%list_elem_of_filter. }
  rewrite Hres'. f_equal. apply PlanFacts.filter_same. intros t _.
  rewrite Hc'. split.
  - intros Ht. apply Hc. eapply PlanFacts.in_closure_trans; [|exact Ht].
    intros r [Hr _]%list_elem_of_filter. by apply Hc.
  - intros Ht. apply PlanFacts.in_closure_requested, list_elem_of_filter. auto.
Qed.

Lemma resolve_dependencies_idempotent_witness :
  resolve_dependencies 12 ["companies"; "contacts"; "deals"; "tasks"] true
  = Some ["companies"; "contacts"; "deals"; "tasks"].
Proof.
  apply (resolve_dependencies_idempotent 9 12 ["tasks"]); [|lia].
  vm_compute. reflexivity.
Defined.

(** X2. Asking for more never drops or reorders what was planned: when every
    table of one request is in another, the plan of the first is a
    subsequence of the plan of the second. *)
Theorem resolve_dependencies_monotone
    (fuel fuel' : nat) (requested requested' plan plan' : list string) :
  requested ⊆ requested' →
  resolve_dependencies fuel requested true = Some plan →
  resolve_dependencies fuel' requested' true = Some plan' →
  plan `sublist_of` plan'.
Proof.
  intros Hsub Hplan Hplan'.
  destruct (PlanFacts.resolve_returned fuel requested plan Hplan)
    as (_ & c & Hc & -> & _).
  destruct (PlanFacts.resolve_returned fuel' requested' plan' Hplan')
    as (_ & c' & Hc' & -> & _).
  apply PlanFacts.filter_sublist. intros t _ (r & Hr & Hrt)%Hc.
  apply Hc'. exists r. split; [by apply Hsub|done].
Qed.

Lemma resolve_dependencies_monotone_witness :
  ["companies"; "contacts"; "notes"]
  `sublist_of` ["companies"; "contacts"; "deals"; "notes"; "tasks"].
Proof.
  apply (resolve_dependencies_monotone 9 9 ["notes"] ["tasks"; "notes"]);
    [set_solver|vm_compute; reflexivity|vm_compute; reflexivity].
Defined.

(** X3. With dependencies included, [resolve_dependencies] returns exactly on
    the requests made of schema tables: there nine rounds suffice and more
    fuel gives the same plan, while a request with any other name keeps the
    ordering loop running for ever. *)
Theorem resolve_dependencies_returns_iff_known (requested : list string) :
  ((∃ fuel plan, resolve_dependencies fuel requested true = Some plan)
   ↔ Forall (.∈ ALL_TABLES) requested)
  ∧ (Forall (.∈ ALL_TABLES) requested →
     ∃ plan, ∀ fuel, 9 ≤ fuel →
                     resolve_dependencies fuel requested true = Some plan)
  ∧ (¬ Forall (.∈ ALL_TABLES) requested →
     ∀ fuel, resolve_dependencies fuel requested true = None).
Proof.
  assert (Forall (.∈ ALL_TABLES) requested →
          ∃ plan, ∀ fuel, 9 ≤ fuel →
                          resolve_dependencies fuel requested true = Some plan)
    as Hknown.
  { intros Hreq. pose proof (known_tables _ Hreq) as Hreq'.
    destruct (PlanFacts.resolve_known 9 requested Hreq') as (c & Hc & Hres & _);
      [done|].
    exists (filter (.∈ c) ALL_TABLES). intros fuel Hfuel.
    by apply (PlanFacts.resolve_mono 9 fuel). }
  assert (¬ Forall (.∈ ALL_TABLES) requested →
          ∀ fuel, resolve_dependencies fuel requested true = None) as Hunknown.
  { intros Hnot fuel. apply not_Forall_Exists in Hnot; [|apply _].
    apply Exists_exists in Hnot as (t & Ht & Hbad).
    by apply (PlanFacts.resolve_unknown fuel requested t). }
  split_and!; [|done|done]. split.
  - intros (fuel & plan & Hplan).
    destruct (decide (Forall (.∈ ALL_TABLES) requested)) as [|Hnot]; [done|].
    by rewrite (Hunknown Hnot fuel) in Hplan.
  - intros Hreq. destruct (Hknown Hreq) as [plan Hplan].
    exists 9, plan. by apply Hplan.
Qed.

Lemma resolve_dependencies_returns_iff_known_witness :
  (∃ plan, ∀ fuel, 9 ≤ fuel →
                   resolve_dependencies fuel ["deals"; "notes"] true = Some plan)
  ∧ ∀ fuel, resolve_dependencies fuel ["deals"; "users"] true = None.
Proof.
  split.
  - apply (proj1 (proj2 (resolve_dependencies_returns_iff_known ["deals"; "notes"]))).
    repeat constructor; compute_done.
  - apply (proj2 (proj2 (resolve_dependencies_returns_iff_known ["deals"; "users"]))).
    intros Hall. apply Forall_cons in Hall as [_ Hall].
    apply Forall_cons in Hall as [Hbad _]. revert Hbad. compute_done.
Defined.

(** X4. A pair is in [missing_deps] exactly when its table is planned, its
    second component is a dependency of that table, and that dependency is
    not planned; the plan [resolve_dependencies] makes with dependencies
    included leaves no such pair. *)
Theorem resolved_plan_has_no_missing_deps :
  (∀ plan table dep,
     (table, dep) ∈ missing_deps plan
     ↔ table ∈ plan ∧ dep ∈ table_deps table ∧ dep ∉ plan)
  ∧ ∀ fuel requested plan,
      resolve_dependencies fuel requested true = Some plan →
      missing_deps plan = [].
Proof.
  assert (∀ plan table dep,
            (table, dep) ∈ missing_deps plan
            ↔ table ∈ plan ∧ dep ∈ table_deps table ∧ dep ∉ plan) as Hchar.
  { intros plan table dep. unfold missing_deps.
    rewrite PlanFacts.missing_deps_outer. simpl. split; [|auto].
    by intros [[]%elem_of_nil|?]. }
  split; [done|]. intros fuel requested plan Hplan.
  destruct (missing_deps plan) as [|[table dep] rest] eqn:E; [done|].
  assert ((table, dep) ∈ missing_deps plan) as Hin by (rewrite E; left).
  apply Hchar in Hin as (Ht & Hd & Hnot). exfalso. apply Hnot.
  destruct (PlanFacts.resolve_returned fuel requested plan Hplan)
    as (_ & c & Hc & -> & Hsub).
  apply list_elem_of_filter in Ht as [Ht _].
  assert (dep ∈ c) as Hdep.
  { apply Hc. eapply PlanFacts.in_closure_dep; [by apply Hc|done]. }
  apply list_elem_of_filter. auto.
Qed.

Lemma resolved_plan_has_no_missing_deps_witness :
  missing_deps ["companies"; "contacts"; "deals"; "tasks"] = [].
Proof.
  apply (proj2 resolved_plan_has_no_missing_deps 9 ["tasks"]).
  vm_compute. reflexivity.
Defined.

(** * Further properties of the table-spec parser *)

Module MappingFacts.
Import StringFacts ParserFacts.

Lemma parse_entries_app (dc : option Z) (l1 l2 : list string) acc :
  parse_entries dc (l1 ++ l2) acc
  = match parse_entries dc l1 acc with
    | Ret acc' => parse_entries dc l2 acc'
    | Raise e => Raise e
    | OutOfFuel => OutOfFuel
    end.
Proof.
  revert acc. induction l1 as [|spec l1 IH]; intros acc; [done|]. simpl.
  destruct (parse_entry dc spec) as [[t n]| |]; [|done..].
  case_bool_decide; [apply IH|done].
Qed.

(** Tokens that name other tables leave the count of a table alone. *)
Lemma parse_entries_other (dc : option Z) (l : list string) (key : string) acc r :
  parse_entries dc l acc = Ret r →
  Forall (λ t, entry_table t ≠ key) l →
  dict_get key r = dict_get key acc.
Proof.
  revert acc. induction l as [|spec l IH]; intros acc Hr Hl; simpl in Hr.
  - by injection Hr as <-.
  - destruct (parse_entry dc spec) as [[t n]| |] eqn:E; [|done..].
    case_bool_decide; [|done].
    apply Forall_cons in Hl as [Hspec Hl].
    rewrite (IH _ Hr Hl). apply dict_get_set_ne.
    apply parse_entry_table in E. congruence.
Qed.

(** The keys after a run of the loop: each table joins at its first
    mention. *)
Lemma parse_entries_keys (dc : option Z) (l : list string) acc r :
  parse_entries dc l acc = Ret r →
  dict_keys r
  = foldl (λ keys t, if bool_decide (t ∈ keys) then keys else keys ++ [t])
          (dict_keys acc) (entry_table <$> l).
Proof.
  revert acc. induction l as [|spec l IH]; intros acc Hr; simpl in Hr.
  - by injection Hr as <-.
  - destruct (parse_entry dc spec) as [[t n]| |] eqn:E; [|done..].
    case_bool_decide; [|done].
    rewrite (IH _ Hr), dict_set_keys. simpl.
    by rewrite <- (parse_entry_table _ _ _ _ E).
Qed.

Lemma first_mentions (l : list string) :
  foldl (λ keys t, if bool_decide (t ∈ keys) then keys else keys ++ [t]) [] l
  = reverse (remove_dups (reverse l)).
Proof.
  induction l as [|x l IH] using rev_ind; [done|].
  rewrite foldl_snoc, reverse_snoc, IH. simpl.
  destruct (decide_rel elem_of x (reverse l)) as [Hin|Hin].
  - rewrite bool_decide_eq_true_2; [done|].
    by apply elem_of_reverse, elem_of_remove_dups.
  - rewrite bool_decide_eq_false_2; [by rewrite reverse_cons|].
    by rewrite elem_of_reverse, elem_of_remove_dups.
Qed.

Lemma tables_list_nonempty (tables_arg : string) : tables_list_of tables_arg ≠ [].
Proof.
  unfold tables_list_of. case_bool_decide; [done|].
  intros Hnil%fmap_nil_inv. by apply split_nonempty in Hnil.
Qed.
End MappingFacts.

(** X5. The mapping [parse_table_spec] returns is never empty; its keys are the
    tables the tokens name, each once, in the order of their first
    mention, and all of them are tables of the schema. *)
Theorem parse_table_spec_keys
    (tables_arg : string) (default_count : option Z) (result : list (string * Z)) :
  parse_table_spec tables_arg default_count = Ret result →
  dict_keys result
  = reverse (remove_dups (reverse (entry_table <$> tables_list_of tables_arg)))
  ∧ result ≠ []
  ∧ NoDup (dict_keys result)
  ∧ Forall (.∈ ALL_TABLES) (dict_keys result)
  ∧ length result ≤ 8.
Proof.
  intros Hr. unfold parse_table_spec in Hr.
  pose proof (MappingFacts.parse_entries_keys _ _ _ _ Hr) as Hkeys.
  simpl in Hkeys. rewrite MappingFacts.first_mentions in Hkeys.
  assert (NoDup (dict_keys result)) as Hnd.
  { rewrite Hkeys, reverse_Permutation. apply NoDup_remove_dups. }
  assert (∀ t, t ∈ dict_keys result → t ∈ ALL_TABLES) as Hknown.
  { intros t. rewrite Hkeys, elem_of_reverse, elem_of_remove_dups, elem_of_reverse.
    intros (tok & -> & Htok)%list_elem_of_fmap. by eapply parse_entries_known. }
  split_and!; [done| |done|by apply Forall_forall|].
  - intros ->. simpl in Hkeys. symmetry in Hkeys.
    apply (f_equal reverse) in Hkeys. rewrite reverse_involutive in Hkeys.
    simpl in Hkeys.
    pose proof (MappingFacts.tables_list_nonempty tables_arg) as Hne.
    destruct (tables_list_of tables_arg) as [|tok toks]; [done|].
    assert (entry_table tok ∈ remove_dups (reverse (entry_table <$> tok :: toks)))
      as Hin; [|by rewrite Hkeys in Hin; apply elem_of_nil in Hin].
    apply elem_of_remove_dups, elem_of_reverse. by left.
  - replace (length result) with (length (dict_keys result))
      by apply length_fmap.
    change 8 with (length ALL_TABLES).
    by apply submseteq_length, NoDup_submseteq.
Qed.

Lemma parse_table_spec_keys_witness :
  dict_keys [("deals", 3%Z); ("companies", 100%Z)]
  = reverse (remove_dups (reverse (entry_table
               <$> tables_list_of "deals:7, companies ,deals:3")))
  ∧ [("deals", 3%Z); ("companies", 100%Z)] ≠ []
  ∧ NoDup (dict_keys [("deals", 3%Z); ("companies", 100%Z)])
  ∧ Forall (.∈ ALL_TABLES) (dict_keys [("deals", 3%Z); ("companies", 100%Z)])
  ∧ length [("deals", 3%Z); ("companies", 100%Z)] ≤ 8.
Proof.
  apply (parse_table_spec_keys "deals:7, companies ,deals:3" None).
  vm_compute. reflexivity.
Defined.

(** X6. When a table is named by several tokens, the count of the last of
    them is the one returned. *)
Theorem parse_table_spec_last_count_wins
    (tables_arg : string) (default_count : option Z) (result : list (string * Z))
    (pre : list string) (tok : string) (post : list string) :
  parse_table_spec tables_arg default_count = Ret result →
  tables_list_of tables_arg = pre ++ tok :: post →
  Forall (λ t, entry_table t ≠ entry_table tok) post →
  ∃ n, parse_entry default_count tok = Ret (entry_table tok, n)
       ∧ dict_get (entry_table tok) result = Some n.
Proof.
  unfold parse_table_spec. intros Hr Hlist Hpost.
  rewrite Hlist, MappingFacts.parse_entries_app in Hr.
  destruct (parse_entries default_count pre []) as [acc| |]; [|done..].
  simpl in Hr.
  destruct (parse_entry default_count tok) as [[t n]| |] eqn:E; [|done..].
  case_bool_decide; [|done].
  pose proof (ParserFacts.parse_entry_table _ _ _ _ E) as ->.
  exists n. split; [done|].
  rewrite (MappingFacts.parse_entries_other _ _ _ _ _ Hr Hpost).
  apply ParserFacts.dict_get_set_eq.
Qed.

Lemma parse_table_spec_last_count_wins_witness :
  ∃ n, parse_entry (Some 40%Z) "deals" = Ret (entry_table "deals", n)
       ∧ dict_get (entry_table "deals")
           [("deals", 40%Z); ("companies", 100%Z)] = Some n.
Proof.
  apply (parse_table_spec_last_count_wins "deals:7,companies:100,deals"
           (Some 40%Z) _ ["deals:7"; "companies:100"] "deals" []).
  - vm_compute. reflexivity.
  - vm_compute. reflexivity.
  - constructor.
Defined.

(** ** Writing a mapping and reading it back *)

Module RenderFacts.
Import StringFacts ParserFacts.

Lemma all_chars_app (p : ascii → bool) (s t : string) :
  all_chars p (s +:+ t) = all_chars p s && all_chars p t.
Proof.
  induction s as [|c s IH]; norm; [done|]. by rewrite IH, andb_assoc.
Qed.

Lemma all_chars_impl (p q : ascii → bool) (s : string) :
  (∀ c, p c → q c) → all_chars p s → all_chars q s.
Proof.
  intros Hpq. induction s as [|c s IH]; simpl; [done|].
  intros [Hc Hs]%andb_True. apply andb_True. auto.
Qed.

Lemma contains_all_chars (sep : ascii) (p : ascii → bool) (s : string) :
  p sep = false → all_chars p s → contains sep s = false.
Proof.
  intros Hsep. induction s as [|c s IH]; simpl; [done|].
  intros [Hc Hs]%andb_True. case_bool_decide as E; [|auto].
  subst c. by rewrite Hsep in Hc.
Qed.

Lemma lstrip_no_space (s : string) :
  all_chars (λ c, negb (is_space c)) s → lstrip s = s.
Proof.
  destruct s as [|c s]; simpl; [done|]. intros [Hc _]%andb_True.
  by destruct (is_space c).
Qed.

Lemma rstrip_no_space (s : string) :
  all_chars (λ c, negb (is_space c)) s → rstrip s = s.
Proof.
  induction s as [|c s IH]; simpl; [done|]. intros [Hc Hs]%andb_True.
  rewrite (IH Hs). destruct s; [|done]. by destruct (is_space c).
Qed.

Lemma strip_no_space (s : string) :
  all_chars (λ c, negb (is_space c)) s → strip s = s.
Proof.
  intros Hs. unfold strip. by rewrite (lstrip_no_space s Hs), rstrip_no_space.
Qed.

(** *** Decimal numerals *)

Lemma digits_of_uint (d : Decimal.uint) :
  all_chars is_digit (NilEmpty.string_of_uint d).
Proof. induction d; simpl; done. Qed.

Lemma int_digits_digit (acc : Z) (after_digit : bool) (c : ascii) (s : string) :
  is_digit c = true →
  int_digits acc after_digit (String c s)
  = int_digits (10 * acc + digit_value c) true s.
Proof. simpl. by intros ->. Qed.

Lemma int_digits_of_uint (d : Decimal.uint) (n : nat) (after_digit : bool) :
  (d = Decimal.Nil → after_digit = true) →
  int_digits (Z.of_nat n) after_digit (NilEmpty.string_of_uint d)
  = Some (Z.of_nat (Nat.of_uint_acc d n)).
Proof.
  revert n after_digit.
  induction d as [|d IH|d IH|d IH|d IH|d IH|d IH|d IH|d IH|d IH|d IH];
    intros n after_digit Hnil;
    [ simpl; by rewrite Hnil
    | cbn [NilEmpty.string_of_uint Nat.of_uint_acc];
      rewrite int_digits_digit by done;
      rewrite Nat.tail_mul_spec;
      (etrans; [|by apply (IH _ true)]);
      f_equal; unfold digit_value; simpl; lia .. ].
Qed.

Lemma to_uint_not_nil (n : nat) : Nat.to_uint n ≠ Decimal.Nil.
Proof.
  intros Hnil.
  pose proof (DecimalNat.Unsigned.to_of (Nat.to_uint n)) as H.
  rewrite DecimalNat.Unsigned.of_to, Hnil in H.
  by apply (DecimalFacts.unorm_nonnil Decimal.Nil).
Qed.

Lemma int_digits_str_of_nat (n : nat) :
  int_digits 0 false (str_of_nat n) = Some (Z.of_nat n).
Proof.
  unfold str_of_nat. change 0%Z with (Z.of_nat 0).
  rewrite (int_digits_of_uint (Nat.to_uint n) 0 false).
  - change (Nat.of_uint_acc (Nat.to_uint n) 0) with (Nat.of_uint (Nat.to_uint n)).
    by rewrite DecimalNat.Unsigned.of_to.
  - intros Hnil. by apply to_uint_not_nil in Hnil.
Qed.

Lemma str_of_nat_digits (n : nat) : all_chars is_digit (str_of_nat n).
Proof. apply digits_of_uint. Qed.

Lemma str_of_nat_head (n : nat) :
  ∃ c rest, str_of_nat n = String c rest ∧ is_digit c = true.
Proof.
  pose proof (str_of_nat_digits n) as Hd. unfold str_of_nat in *.
  pose proof (to_uint_not_nil n) as Hnil.
  destruct (Nat.to_uint n); [done|simpl; eauto..].
Qed.


(** The digits of a numeral and the bound that [int()] puts on them. *)
Lemma count_digits_of_uint (d : Decimal.uint) :
  count_digits (NilEmpty.string_of_uint d)
  = Z.of_nat (DecimalNat.Unsigned.usize d).
Proof.
  induction d; cbn [NilEmpty.string_of_uint count_digits DecimalNat.Unsigned.usize];
    [done|rewrite IHd; change (is_digit _) with true; cbv iota; lia..].
Qed.

Lemma nzhead_lower_bound (d : Decimal.uint) :
  Decimal.nzhead d ≠ Decimal.Nil →
  10 ^ (DecimalNat.Unsigned.usize (Decimal.nzhead d) - 1)
  ≤ Nat.of_uint (Decimal.nzhead d).
Proof.
  induction d; intros Hnil; cbn [Decimal.nzhead] in *; [done|by apply IHd|..];
    unfold Nat.of_uint; cbn [Nat.of_uint_acc DecimalNat.Unsigned.usize];
    rewrite DecimalNat.Unsigned.of_uint_acc_spec, Nat.tail_mul_spec;
    rewrite Nat.sub_succ, Nat.sub_0_r;
    pose proof (Nat.pow_nonzero 10 (DecimalNat.Unsigned.usize d)); nia.
Qed.

(** A number below [10 ^ k] is written with at most [k] digits. *)
Lemma to_uint_usize (n k : nat) :
  0 < k → n < 10 ^ k → DecimalNat.Unsigned.usize (Nat.to_uint n) ≤ k.
Proof.
  intros Hk Hn.
  pose proof (DecimalNat.Unsigned.to_of (Nat.to_uint n)) as Hnorm.
  rewrite DecimalNat.Unsigned.of_to in Hnorm.
  unfold Decimal.unorm in Hnorm.
  destruct (Decimal.nzhead (Nat.to_uint n)) eqn:Hz;
    [rewrite Hnorm; simpl; lia|..];
    (pose proof (nzhead_lower_bound (Nat.to_uint n)) as Hlow;
     rewrite Hz in Hlow; specialize (Hlow ltac:(done));
     rewrite <- Hnorm in Hlow;
     rewrite DecimalNat.Unsigned.of_to in Hlow;
     assert (DecimalNat.Unsigned.usize (Nat.to_uint n) - 1 < k) as Hlt;
     [apply (Nat.pow_lt_mono_r_iff 10); lia|lia]).
Qed.

Lemma count_digits_str_of_nat (p : positive) :
  (Z.pos p < 10 ^ MAX_STR_DIGITS)%Z →
  (count_digits (str_of_nat (Pos.to_nat p)) ≤ MAX_STR_DIGITS)%Z.
Proof.
  intros Hp. unfold str_of_nat. rewrite count_digits_of_uint.
  rewrite <- (Z2Nat.id MAX_STR_DIGITS) by done. apply inj_le.
  apply to_uint_usize; [by apply (Z2Nat.inj_lt 0 MAX_STR_DIGITS)|].
  apply Nat2Z.inj_lt. rewrite Nat2Z.inj_pow, positive_nat_Z.
  by rewrite Z2Nat.id.
Qed.

Lemma int_literal_str_of_nat (p : positive) :
  (Z.pos p < 10 ^ MAX_STR_DIGITS)%Z →
  int_literal (str_of_nat (Pos.to_nat p)) = Some (Z.pos p).
Proof.
  intros Hp. unfold int_literal.
  rewrite bool_decide_eq_true_2 by by apply count_digits_str_of_nat.
  rewrite int_digits_str_of_nat. f_equal. lia.
Qed.

Lemma int_of_string_unsigned (c : ascii) (rest : string) :
  is_digit c = true →
  all_chars (λ c, negb (is_space c)) (String c rest) →
  int_of_string (String c rest) = int_literal (String c rest).
Proof.
  intros Hc Hs. unfold int_of_string. rewrite (strip_no_space _ Hs).
  destruct c as [[] [] [] [] [] [] [] []]; try done.
Qed.

Lemma digit_not_space (c : ascii) : is_digit c → negb (is_space c).
Proof.
  unfold is_digit, is_space. cbv zeta.
  intros [H1%Is_true_true%Nat.leb_le H2%Is_true_true%Nat.leb_le]%andb_True.
  repeat match goal with
         | |- context [?a <=? ?b] => destruct (Nat.leb_spec a b); try lia
         | |- context [?a =? ?b] => destruct (Nat.eqb_spec a b); try lia
         end; done.
Qed.

Lemma digit_numeral (c : ascii) : is_digit c → numeral_char c.
Proof. unfold numeral_char. intros Hc. apply orb_True. by left. Qed.

Lemma numeral_not_space (c : ascii) : numeral_char c → negb (is_space c).
Proof.
  unfold numeral_char. intros [Hc|Hc%bool_decide_unpack]%orb_True.
  - by apply digit_not_space.
  - by subst c.
Qed.

Lemma str_of_Z_chars (n : Z) : all_chars numeral_char (str_of_Z n).
Proof.
  destruct n as [|p|p]; simpl; [done| |].
  - eapply all_chars_impl; [apply digit_numeral|apply str_of_nat_digits].
  - norm. eapply all_chars_impl; [apply digit_numeral|apply str_of_nat_digits].
Qed.

(** [int(str(n))] is [n], for a number that [int()] takes. *)
Lemma int_of_string_str_of_Z (n : Z) :
  (Z.abs n < 10 ^ MAX_STR_DIGITS)%Z → int_of_string (str_of_Z n) = Some n.
Proof.
  destruct n as [|p|p]; intros Hn; [done| |].
  - cbn [str_of_Z]. destruct (str_of_nat_head (Pos.to_nat p)) as (c & rest & E & Hc).
    pose proof (str_of_nat_digits (Pos.to_nat p)) as Hd.
    pose proof (int_literal_str_of_nat p Hn) as Hi.
    rewrite E in *. rewrite int_of_string_unsigned; [done|done|].
    eapply all_chars_impl; [apply digit_not_space|done].
  - cbn [str_of_Z]. norm. unfold int_of_string.
    rewrite strip_no_space.
    + by rewrite (int_literal_str_of_nat p Hn).
    + apply andb_True. split; [done|].
      eapply all_chars_impl; [apply digit_not_space|apply str_of_nat_digits].
Qed.

(** *** Splitting what [join] put together *)

Lemma split_app_sep (c : ascii) (a b : string) :
  contains c a = false → split c (a +:+ String c b) = a :: split c b.
Proof.
  induction a as [|d a IH]; norm.
  - by rewrite bool_decide_eq_true_2.
  - case_bool_decide; [done|]. intros Ha. by rewrite IH.
Qed.

Lemma split_join (c : ascii) (l : list string) :
  l ≠ [] → Forall (λ s, contains c s = false) l →
  split c (join (String c "") l) = l.
Proof.
  induction l as [|p l IH]; [done|]. intros _ [Hp Hl]%Forall_cons.
  destruct l as [|q l]; [by apply split_no_sep|].
  change (join (String c "") (p :: q :: l))
    with (p +:+ String c "" +:+ join (String c "") (q :: l)).
  norm. rewrite split_app_sep by done. f_equal. by apply IH.
Qed.

Lemma contains_join_head (c : ascii) (sep p : string) (l : list string) :
  contains c p = true → contains c (join sep (p :: l)) = true.
Proof.
  intros Hp. destruct l as [|q l]; [done|].
  change (join sep (p :: q :: l)) with (p +:+ sep +:+ join sep (q :: l)).
  by rewrite contains_app, Hp.
Qed.

(** *** Table names and rendered entries *)

Lemma name_not_space (c : ascii) : name_char c → negb (is_space c).
Proof.
  unfold name_char, is_space. cbv zeta. intros Hc.
  repeat match goal with
         | H : context [?a <=? ?b] |- _ => destruct (Nat.leb_spec a b); try lia
         | H : context [?a =? ?b] |- _ => destruct (Nat.eqb_spec a b); try lia
         | |- context [?a <=? ?b] => destruct (Nat.leb_spec a b); try lia
         | |- context [?a =? ?b] => destruct (Nat.eqb_spec a b); try lia
         end; done.
Qed.

Lemma table_name_chars (t : string) : t ∈ ALL_TABLES → all_chars name_char t.
Proof.
  intros Ht. repeat (apply elem_of_cons in Ht as [->|Ht]; [done|]).
  by apply elem_of_nil in Ht.
Qed.

Section Entry.
Variables (t : string) (n : Z).
Hypothesis known : t ∈ ALL_TABLES.

Lemma name_no_sep (sep : ascii) : name_char sep = false → contains sep t = false.
Proof.
  intros Hsep. eapply contains_all_chars; [done|by apply table_name_chars].
Qed.

Lemma numeral_no_sep (sep : ascii) :
  numeral_char sep = false → contains sep (str_of_Z n) = false.
Proof.
  intros Hsep. eapply contains_all_chars; [done|apply str_of_Z_chars].
Qed.

Lemma render_entry_no_comma : contains "," (render_entry (t, n)) = false.
Proof.
  unfold render_entry. simpl.
  rewrite !contains_app, name_no_sep, numeral_no_sep; done.
Qed.

Lemma render_entry_colon : contains ":" (render_entry (t, n)) = true.
Proof.
  unfold render_entry. simpl. rewrite !contains_app. simpl.
  by rewrite orb_true_r.
Qed.

Lemma render_entry_no_space :
  all_chars (λ c, negb (is_space c)) (render_entry (t, n)).
Proof.
  unfold render_entry. simpl. rewrite !all_chars_app.
  apply andb_True. split; [|apply andb_True; split; [done|]].
  - eapply all_chars_impl; [apply name_not_space|by apply table_name_chars].
  - eapply all_chars_impl; [apply numeral_not_space|apply str_of_Z_chars].
Qed.

Lemma parse_rendered_entry (dc : option Z) :
  (Z.abs n < 10 ^ MAX_STR_DIGITS)%Z →
  parse_entry dc (render_entry (t, n)) = Ret (t, n).
Proof.
  intros Hn.
  rewrite <- (strip_no_space _ render_entry_no_space).
  unfold render_entry. simpl.
  rewrite parse_entry_colon by by apply name_no_sep.
  rewrite !strip_no_space.
  - by rewrite int_of_string_str_of_Z.
  - eapply all_chars_impl; [apply name_not_space|by apply table_name_chars].
  - eapply all_chars_impl; [apply numeral_not_space|apply str_of_Z_chars].
Qed.
End Entry.

Lemma dict_set_fresh {V} (k : string) (v : V) (d : list (string * V)) :
  k ∉ dict_keys d → dict_set k v d = d ++ [(k, v)].
Proof.
  unfold dict_keys. induction d as [|[k' v'] d IH]; simpl; [done|].
  intros Hk. rewrite bool_decide_eq_false_2 by set_solver.
  rewrite IH; [done|set_solver].
Qed.

Lemma parse_rendered_entries (dc : option Z) (counts acc : list (string * Z)) :
  Forall (.∈ ALL_TABLES) counts.*1 →
  Forall (λ entry, (Z.abs entry.2 < 10 ^ MAX_STR_DIGITS)%Z) counts →
  NoDup (dict_keys acc ++ counts.*1) →
  parse_entries dc (render_entry <$> counts) acc = Ret (acc ++ counts).
Proof.
  revert acc.
  induction counts as [|[t n] counts IH]; intros acc Hknown Hbound Hnd.
  - by rewrite app_nil_r.
  - rewrite fmap_cons in Hknown. apply Forall_cons in Hknown as [Ht Hknown].
    apply Forall_cons in Hbound as [Hn Hbound].
    rewrite fmap_cons. cbn [parse_entries].
    rewrite parse_rendered_entry by done.
    rewrite bool_decide_eq_true_2 by done.
    rewrite fmap_cons in Hnd. simpl in Hnd.
    apply NoDup_app in Hnd as (Hacc & Hdisj & Hrest).
    rewrite dict_set_fresh.
    + rewrite IH; [by rewrite <- app_assoc|done|done|].
      unfold dict_keys. rewrite fmap_app. simpl.
      rewrite <- app_assoc. simpl.
      apply NoDup_app. split_and!; [done|done|done].
    + intros Hin. apply (Hdisj t Hin). by left.
Qed.

Lemma tables_list_of_rendered (counts : list (string * Z)) :
  counts ≠ [] → Forall (.∈ ALL_TABLES) counts.*1 →
  tables_list_of (render_spec counts) = render_entry <$> counts.
Proof.
  intros Hne Hknown. unfold tables_list_of, render_spec.
  rewrite bool_decide_eq_false_2.
  - rewrite (split_join "," (render_entry <$> counts)).
    + clear Hne. induction counts as [|[t n] counts IH]; [done|].
      rewrite fmap_cons in Hknown. apply Forall_cons in Hknown as [Ht Hknown].
      rewrite !fmap_cons, IH by done. f_equal.
      by apply strip_no_space, render_entry_no_space.
    + by destruct counts.
    + clear Hne. induction counts as [|[t n] counts IH]; [done|].
      rewrite fmap_cons in Hknown. apply Forall_cons in Hknown as [Ht Hknown].
      rewrite fmap_cons. apply Forall_cons. split; [|by apply IH].
      by apply render_entry_no_comma.
  - intros Hall%lower_all_no_colon.
    destruct counts as [|[t n] counts]; [done|].
    rewrite fmap_cons, contains_join_head in Hall; [done|].
    apply render_entry_colon.
Qed.
End RenderFacts.

(** X7. Writing a mapping as a [--tables] argument and parsing it gives the
    mapping back: for any counts that [int()] can read back, those of
    magnitude below [10 ^ 4300] (negative ones and zero too, no count is
    refused), of distinct schema tables, in any order. *)
Theorem parse_table_spec_reads_back
    (counts : list (string * Z)) (default_count : option Z) :
  counts ≠ [] →
  NoDup counts.*1 →
  Forall (.∈ ALL_TABLES) counts.*1 →
  Forall (λ entry, (Z.abs entry.2 < 10 ^ MAX_STR_DIGITS)%Z) counts →
  parse_table_spec (render_spec counts) default_count = Ret counts.
Proof.
  intros Hne Hnd Hknown Hbound. unfold parse_table_spec.
  rewrite RenderFacts.tables_list_of_rendered by done.
  by rewrite RenderFacts.parse_rendered_entries.
Qed.

Lemma parse_table_spec_reads_back_witness :
  parse_table_spec (render_spec [("tasks", 12%Z); ("companies", (-3)%Z)]) (Some 7%Z)
  = Ret [("tasks", 12%Z); ("companies", (-3)%Z)].
Proof.
  apply (parse_table_spec_reads_back [("tasks", 12%Z); ("companies", (-3)%Z)]).
  - done.
  - apply (bool_decide_unpack _). by vm_compute.
  - repeat constructor; compute_done.
  - repeat constructor; by vm_compute.
Defined.

(** * Further properties of the generators *)

(** ** Computations without a loop that fuel can cut short *)

Module FuelFree.
Lemma fuel_free_ret {A} (a : A) : fuel_free (mret a : M A).
Proof. by intros w. Qed.

Lemma fuel_free_raise {A} (e : exn) : fuel_free (raise e : M A).
Proof. by intros w. Qed.

Lemma fuel_free_bind {A B} (m : M A) (k : A → M B) :
  fuel_free m → (∀ a, fuel_free (k a)) → fuel_free (m ≫= k).
Proof.
  intros Hm Hk w. unfold mbind, M_bind. specialize (Hm w).
  destruct (m w) as [[a|e|] w1]; [apply Hk|done|done].
Qed.

Lemma fuel_free_fmap {A B} (f : A → B) (m : M A) :
  fuel_free m → fuel_free (f <$> m).
Proof. intros Hm. apply fuel_free_bind; [done|]. intros a. apply fuel_free_ret. Qed.

Lemma fuel_free_if {A} (b : bool) (m1 m2 : M A) :
  fuel_free m1 → fuel_free m2 → fuel_free (if b then m1 else m2).
Proof. by destruct b. Qed.

Lemma fuel_free_quiet {A} (m : M A) : quiet m → fuel_free m.
Proof. intros Hm w. destruct (Hm w) as (a & w' & -> & _). done. Qed.

Lemma fuel_free_random_choice {A} (seq : list A) : fuel_free (random_choice seq).
Proof.
  destruct seq as [|x seq]; [apply fuel_free_raise|].
  apply fuel_free_quiet, Quiet.quiet_random_choice. done.
Qed.

Lemma fuel_free_subscript {V} (key : string) (d : list (string * V)) :
  fuel_free (subscript key d).
Proof. intros w. unfold subscript. by destruct (dict_get key d). Qed.

Lemma fuel_free_insert_returning (table : string) (r : row) :
  fuel_free (insert_returning table r).
Proof. by intros w. Qed.

Lemma fuel_free_insert_many (table : string) (rows : list row) :
  fuel_free (insert_many table rows).
Proof. intros w. by destruct rows. Qed.

Lemma fuel_free_for_each {A S} (items : list A) (body : A → S → M S) (s : S) :
  (∀ x s, fuel_free (body x s)) → fuel_free (for_each items body s).
Proof.
  intros Hbody. revert s. induction items as [|x items IH]; intros s.
  - apply fuel_free_ret.
  - simpl. apply fuel_free_bind; [apply Hbody|apply IH].
Qed.

(** A computation that runs without fuel and whose exceptions are ruled
    out returns. *)
Lemma returns {A} (m : M A) (P : conn → Prop) (Q : A → conn → Prop) (w : world) :
  spec P m Q (λ _ _, False) → fuel_free m → P (db w) →
  ∃ a w', m w = (Ret a, w') ∧ Q a (db w').
Proof.
  intros Hspec Hfree HP. specialize (Hspec w HP). specialize (Hfree w).
  destruct (m w) as [[a|e|] w']; [by eauto|done|done].
Qed.
End FuelFree.

Create HintDb fuel.
#[export] Hint Resolve FuelFree.fuel_free_ret FuelFree.fuel_free_raise
  FuelFree.fuel_free_fmap FuelFree.fuel_free_if FuelFree.fuel_free_random_choice
  FuelFree.fuel_free_subscript FuelFree.fuel_free_insert_returning
  FuelFree.fuel_free_insert_many : fuel.
#[export] Hint Extern 1 (fuel_free (random_randint _ _)) =>
  apply FuelFree.fuel_free_quiet, Quiet.quiet_random_randint : fuel.
#[export] Hint Extern 1 (fuel_free random_random) =>
  apply FuelFree.fuel_free_quiet, Quiet.quiet_random_random : fuel.
#[export] Hint Extern 1 (fuel_free (fake _)) =>
  apply FuelFree.fuel_free_quiet, Quiet.quiet_fake : fuel.
#[export] Hint Extern 3 (fuel_free (_ ≫= _)) =>
  apply FuelFree.fuel_free_bind; [|intros ?] : fuel.
#[export] Hint Extern 3 (fuel_free (match ?x with _ => _ end)) => destruct x : fuel.

Module FuelFreeGenerators.
Lemma generate_companies_fuel_free (count : Z) : fuel_free (generate_companies count).
Proof.
  unfold generate_companies, for_range. apply FuelFree.fuel_free_for_each.
  intros i ids. auto 30 with fuel.
Qed.

Lemma generate_deals_fuel_free (company_ids contact_ids : list Z)
    (contact_company_map : gmap Z value) (count : Z) :
  fuel_free (generate_deals company_ids contact_ids contact_company_map count).
Proof.
  unfold generate_deals, for_range. apply FuelFree.fuel_free_for_each.
  intros i ids. auto 40 with fuel.
Qed.

Lemma generate_activities_fuel_free (contact_ids : list Z) (count : Z) :
  fuel_free (generate_activities contact_ids count).
Proof.
  unfold generate_activities, for_range.
  apply FuelFree.fuel_free_bind; [|auto with fuel].
  apply FuelFree.fuel_free_for_each. intros i acts. auto 30 with fuel.
Qed.

Lemma generate_notes_fuel_free (contact_ids : list Z) (count : Z) :
  fuel_free (generate_notes contact_ids count).
Proof.
  unfold generate_notes, for_range.
  apply FuelFree.fuel_free_bind; [|auto with fuel].
  apply FuelFree.fuel_free_for_each. intros i notes. auto 40 with fuel.
Qed.

Lemma generate_tasks_fuel_free (deal_ids : list Z) (count : Z) :
  fuel_free (generate_tasks deal_ids count).
Proof.
  unfold generate_tasks, for_range.
  apply FuelFree.fuel_free_bind; [|auto with fuel].
  apply FuelFree.fuel_free_for_each. intros i tasks. auto 30 with fuel.
Qed.
End FuelFreeGenerators.

(** ** Draws within their bounds, and loops by position *)

Module DrawRules.
Import SpecRules.

(** [I done s] holds when the items [done] have been processed; the
    body may rely on where it stands in the list. *)
Lemma spec_for_each_at {A S} (items : list A) (body : A → S → M S)
    (I : list A → S → conn → Prop) E (s0 : S) :
  (∀ done x rest s, items = done ++ x :: rest →
                    spec (I done s) (body x s) (I (done ++ [x])) E) →
  spec (I [] s0) (for_each items body s0) (I items) E.
Proof.
  intros Hbody.
  assert (∀ rest done s, items = done ++ rest →
                         spec (I done s) (for_each rest body s) (I items) E)
    as H; [|by apply (H items [] s0)].
  induction rest as [|x rest IH]; intros done s Hitems.
  - rewrite app_nil_r in Hitems. subst done. intros w Hw. by simpl.
  - simpl. eapply spec_bind; [by eapply Hbody|]. intros s'.
    apply IH. by rewrite <- app_assoc.
Qed.

Lemma seq_position (n : nat) (done : list nat) (i : nat) (rest : list nat) :
  seq 0 n = done ++ i :: rest → i = length done.
Proof.
  intros Hseq.
  assert (seq 0 n !! length done = Some i) as Hi.
  { rewrite Hseq. by apply list_lookup_middle. }
  apply lookup_seq in Hi as [-> _]. done.
Qed.

Lemma yields_spec {A} (m : M A) (φ : A → Prop) (P : conn → Prop) E :
  yields m φ → spec P m (λ a c, φ a ∧ P c) E.
Proof.
  intros Hm w Hw. destruct (Hm w) as (a & w' & -> & Hdb & Ha).
  by rewrite Hdb.
Qed.

Lemma yields_ret {A} (a : A) (φ : A → Prop) : φ a → yields (mret a : M A) φ.
Proof. intros Ha w. by exists a, w. Qed.

Lemma yields_fmap {A B} (f : A → B) (m : M A) (φ : A → Prop) (ψ : B → Prop) :
  yields m φ → (∀ a, φ a → ψ (f a)) → yields (f <$> m) ψ.
Proof.
  intros Hm Hf w. destruct (Hm w) as (a & w' & Hmw & Hdb & Ha).
  exists (f a), w'. unfold fmap, M_fmap, mbind, M_bind. rewrite Hmw.
  split_and!; [done|done|by apply Hf].
Qed.

Lemma yields_randint (a b : Z) :
  (a ≤ b)%Z → yields (random_randint a b) (λ n, (a ≤ n ≤ b)%Z).
Proof.
  intros Hab w. eexists _, _. split; [done|]. split; [done|]. simpl.
  pose proof (Z.mod_pos_bound (Z.of_nat (random_tape w (random_pos w)))
                (b - a + 1)) as H.
  lia.
Qed.

Lemma yields_fake (provider : string) : yields (fake provider) (λ _, True).
Proof. intros w. by eexists _, _. Qed.

Lemma yields_if {A} (b : bool) (m1 m2 : M A) (φ1 φ2 : A → Prop) :
  yields m1 φ1 → yields m2 φ2 →
  yields (if b then m1 else m2) (λ a, if b then φ1 a else φ2 a).
Proof. by destruct b. Qed.

(** What [inserted] says determines the rows. *)
Lemma inserted_same (c0 c : conn) (rows rows' : list (string * (Z * row))) :
  inserted c0 c rows → inserted c0 c rows' → rows = rows'.
Proof.
  intros (Hp & _) (Hp' & _). rewrite Hp in Hp'. by apply app_inv_head in Hp'.
Qed.
End DrawRules.

Module ShapeFacts.
Import SpecRules DrawRules GeneratorFacts.

Lemma DEAL_STAGES_bounds (stage : string) (base : Z) :
  dict_get stage DEAL_STAGES = Some base →
  (0 ≤ base ≤ 100)%Z
  ∧ (closed_stage stage = false → (10 ≤ base ≤ 75)%Z).
Proof.
  intros H%dict_get_elem_of.
  repeat (apply elem_of_cons in H as [[= -> ->]|H]; [by split; [lia|vm_compute; (done || lia)]|]).
  by apply elem_of_nil in H.
Qed.

Lemma generate_deals_shape (company_ids contact_ids : list Z)
    (contact_company_map : gmap Z value) (count : Z) (c0 : conn) :
  spec (λ c, c = c0)
       (generate_deals company_ids contact_ids contact_company_map count)
       (λ deal_ids c, ∃ rows, inserted c0 c rows ∧ Forall deal_row_shape rows)
       (λ e c, company_ids = []).
Proof.
  unfold generate_deals, for_range.
  set (I := λ (done : list nat) (deal_ids : list Z) (c : conn),
         ∃ rows, inserted c0 c rows ∧ Forall deal_row_shape rows).
  eapply spec_pre; [apply (spec_for_each _ _ I)|].
  - intros done i deal_ids.
    eapply spec_bind; [apply spec_random_choice|intros company_id].
    { by intros -> c _. }
    eapply spec_bind with (Q := λ _ c, I done deal_ids c).
    { destruct (contacts_of contact_company_map company_id) as [|k0 ks].
      - eapply spec_post; [apply spec_ret|]. by intros o c [_ [_ H]].
      - eapply spec_post; [apply spec_fmap, spec_random_choice; done|].
        by intros o c (k & _ & _ & _ & H). }
    intros contact_id.
    eapply spec_bind; [apply spec_random_choice; done|intros stage].
    eapply spec_bind; [apply spec_subscript|intros base].
    { intros Hnone c [Hstage _]. apply dict_get_keys in Hstage as [? ?]. congruence. }
    apply (spec_pure _ _ _ _ (dict_get stage DEAL_STAGES = Some base));
      [by intros c [? _]|intros Hbase].
    destruct (DEAL_STAGES_bounds stage base Hbase) as [Hb Hopen].
    eapply spec_bind with
      (Q := λ probability c,
              ((0 ≤ probability ≤ 100)%Z
               ∧ (base - 10 ≤ probability ≤ base + 10)%Z
               ∧ (closed_stage stage = true → probability = base))
              ∧ I done deal_ids c).
    { destruct (closed_stage stage) eqn:Hclosed; simpl.
      - eapply spec_post; [apply spec_ret|].
        intros p c [-> (_ & _ & H)]. split; [|done]. split_and!; [lia..|done].
      - eapply spec_bind; [by apply (spec_random_randint_range (-10) 10)|].
        intros delta. eapply spec_post; [apply spec_ret|].
        intros p c [-> (Hdelta & _ & _ & H)]. split; [|done].
        specialize (Hopen eq_refl). split_and!; [lia..|done]. }
    intros probability.
    eapply spec_bind; [by apply (spec_random_randint_range 1000 500000)|].
    intros amount. skip_quiet.
    eapply spec_bind with
      (Q := λ actual_close c,
              (if closed_stage stage then ∃ d, actual_close = VDate d
               else actual_close = VNone)
              ∧ (1000 ≤ amount ≤ 500000)%Z
              ∧ ((0 ≤ probability ≤ 100)%Z
                 ∧ (base - 10 ≤ probability ≤ base + 10)%Z
                 ∧ (closed_stage stage = true → probability = base))
              ∧ I done deal_ids c).
    { destruct (closed_stage stage).
      - eapply spec_post; [apply spec_fmap, spec_fake|].
        intros v c (d & -> & H). split; [by exists d|done].
      - eapply spec_post; [apply spec_ret|]. by intros v c [-> H]. }
    intros actual_close. do 4 skip_quiet.
    eapply spec_bind; [apply spec_insert_returning|intros id].
    eapply spec_post; [apply spec_ret|].
    intros ids c [-> (c1 & (Hclose & Hamount & (Hp1 & Hp2 & Hp3)
                           & rows & Hrows & Hok) & Hins)].
    eexists. split; [by eapply inserted_insert_row|].
    apply Forall_app. split; [done|]. apply Forall_singleton.
    split; [done|]. exists stage, base, probability, amount.
    split_and!; try done; try lia.
    destruct (closed_stage stage).
    + destruct Hclose as [d ->]. split; [by apply Hp3|by exists d].
    + by subst actual_close.
  - intros c ->. exists []. split; [apply inserted_refl|done].
Qed.
Lemma generate_companies_shape (count : Z) (c0 : conn) :
  spec (λ c, c = c0)
       (generate_companies count)
       (λ _ c, ∃ rows, inserted c0 c rows ∧ Forall company_row_shape rows)
       (λ _ _, False).
Proof.
  unfold generate_companies, for_range.
  set (I := λ (done : list nat) (ids : list Z) (c : conn),
         ∃ rows, inserted c0 c rows ∧ Forall company_row_shape rows).
  eapply spec_pre; [apply (spec_for_each _ _ I)|].
  - intros done i ids. skip_quiet.
    eapply spec_bind; [apply spec_random_choice; done|intros industry].
    do 6 skip_quiet.
    eapply spec_bind; [by apply (spec_random_randint_range 10 10000)|].
    intros employee_count.
    eapply spec_bind; [by apply (spec_random_randint_range 100000 100000000)|].
    intros annual_revenue. skip_quiet.
    eapply spec_bind; [apply spec_insert_returning|intros id].
    eapply spec_post; [apply spec_ret|].
    intros st c [-> (c1 & (Hrev & Hemp & Hind & rows & Hrows & Hok) & Hins)].
    eexists. split; [by eapply inserted_insert_row|].
    apply Forall_app. split; [done|]. apply Forall_singleton.
    split_and!; [done..|]. exists industry, employee_count, annual_revenue.
    split_and!; try done; lia.
  - intros c ->. exists []. split; [apply inserted_refl|done].
Qed.

(** Raw rows of a batch, seen as the entries [insert_many] makes of them. *)
Lemma batch_shape (c0 : conn) (table : string) (rows : list row)
    (ok : row → Prop) :
  Forall ok rows →
  ∃ new, inserted c0 (foldl (λ c r, (insert_row table r c).2) c0 rows) new
         ∧ Forall (λ entry, entry.1 = table ∧ ok entry.2.2) new.
Proof.
  intros Hok.
  destruct (inserted_insert_many c0 c0 [] table rows (inserted_refl c0))
    as (new & Hnew & Hrows & Htab).
  exists new. split; [done|].
  rewrite <- Hrows, !Forall_fmap in Hok.
  rewrite Forall_forall in Htab, Hok. apply Forall_forall. intros entry Hin.
  split; [by apply Htab|by apply Hok].
Qed.

Lemma generate_activities_shape (contact_ids : list Z) (count : Z) (c0 : conn) :
  spec (λ c, c = c0)
       (generate_activities contact_ids count)
       (λ _ c, ∃ rows, inserted c0 c rows
                       ∧ Forall (activity_row_shape contact_ids) rows)
       (λ e c, contact_ids = [] ∨ (count ≤ 0)%Z).
Proof.
  unfold generate_activities, for_range.
  set (ok := λ r : row, ∀ id, activity_row_shape contact_ids ("activities", (id, r))).
  set (I := λ (done : list nat) (acts : list row) (c : conn),
         c = c0 ∧ Forall ok acts ∧ length acts = length done).
  eapply spec_pre; [eapply spec_bind; [apply (spec_for_each _ _ I)|]|].
  - intros done i acts.
    eapply spec_bind; [apply spec_random_choice|intros contact_id].
    { intros -> c _. by left. }
    eapply spec_bind; [apply spec_random_choice; done|intros activity_type].
    eapply spec_bind; [apply spec_subscript|intros subjects].
    { intros Hnone c [Ht _]. apply (dict_get_keys _ activity_subjects) in Ht as [? ?].
      congruence. }
    eapply spec_bind; [apply spec_random_choice|intros subject].
    { intros -> c [Hd _]. by apply activity_subjects_nonempty in Hd. }
    do 2 skip_quiet.
    eapply spec_bind; [|intros duration].
    { apply yields_spec, yields_if.
      - apply (yields_fmap VInt _ _ (λ v, ∃ minutes, v = VInt minutes
                                          ∧ (5 ≤ minutes ≤ 120)%Z)
                 (yields_randint 5 120 ltac:(done))).
        intros minutes Hm. by exists minutes.
      - apply (yields_ret VNone (λ v, v = VNone)). done. }
    skip_quiet.
    eapply spec_post; [apply spec_ret|].
    intros st c [-> (Hdur & Hsubj & Hsubjects & Htype & Hcontact & -> & Hok & Hlen)].
    split; [done|]. split; [|rewrite !length_app; simpl; by f_equal].
    apply Forall_app. split; [done|]. apply Forall_singleton.
    intros id. split; [done|].
    exists contact_id, activity_type, subjects, subject.
    split_and!; [done..|].
    destruct (bool_decide (activity_type ∈ ["call"; "meeting"; "demo"])).
    + destruct Hdur as (minutes & -> & Hm). by exists minutes.
    + by subst duration.
  - intros acts.
    eapply spec_conseq; [apply spec_insert_many|intros ? H; exact H| |].
    + intros _ c (_ & c1 & (-> & Hok & _) & ->).
      destruct (batch_shape c0 "activities" acts ok Hok) as (new & Hnew & Hshape).
      exists new. split; [done|]. eapply Forall_impl; [exact Hshape|].
      intros [t [id r]] [Ht Hr]. simpl in *. subst t. apply Hr.
    + intros e c (_ & -> & _ & _ & Hlen). right.
      rewrite length_seq in Hlen. simpl in Hlen. lia.
  - by intros c ->.
Qed.

Lemma generate_tasks_shape (deal_ids : list Z) (count : Z) (c0 : conn) :
  spec (λ c, c = c0)
       (generate_tasks deal_ids count)
       (λ _ c, ∃ rows, inserted c0 c rows
                       ∧ Forall (task_row_shape deal_ids) rows)
       (λ e c, deal_ids = [] ∨ (count ≤ 0)%Z).
Proof.
  unfold generate_tasks, for_range.
  set (ok := λ r : row, ∀ id, task_row_shape deal_ids ("tasks", (id, r))).
  set (I := λ (done : list nat) (tasks : list row) (c : conn),
         c = c0 ∧ Forall ok tasks ∧ length tasks = length done).
  eapply spec_pre; [eapply spec_bind; [apply (spec_for_each _ _ I)|]|].
  - intros done i tasks.
    eapply spec_bind; [apply spec_random_choice|intros deal_id].
    { intros -> c _. by left. }
    eapply spec_bind; [apply spec_random_choice; done|intros [task_title description]].
    eapply spec_bind; [apply spec_random_choice; done|intros status].
    skip_quiet.
    eapply spec_bind; [|intros completed_at].
    { apply yields_spec, yields_if.
      - apply (yields_fmap VDate _ _ (λ v, ∃ d, v = VDate d) (yields_fake _)).
        intros d _. by exists d.
      - apply (yields_ret VNone (λ v, v = VNone)). done. }
    eapply spec_bind; [apply spec_random_choice; done|intros priority].
    skip_quiet.
    eapply spec_post; [apply spec_ret|].
    intros st c [-> (Hprio & Hdone & Hstatus & Htemplate & Hdeal & -> & Hok & Hlen)].
    split; [done|]. split; [|rewrite !length_app; simpl; by f_equal].
    apply Forall_app. split; [done|]. apply Forall_singleton.
    intros id. split; [done|].
    exists deal_id, task_title, description, status, priority.
    split_and!; [done..|].
    destruct (bool_decide (status = "completed")).
    + destruct Hdone as (d & ->). by exists d.
    + by subst completed_at.
  - intros tasks.
    eapply spec_conseq; [apply spec_insert_many|intros ? H; exact H| |].
    + intros _ c (_ & c1 & (-> & Hok & _) & ->).
      destruct (batch_shape c0 "tasks" tasks ok Hok) as (new & Hnew & Hshape).
      exists new. split; [done|]. eapply Forall_impl; [exact Hshape|].
      intros [t [id r]] [Ht Hr]. simpl in *. subst t. apply Hr.
    + intros e c (_ & -> & _ & _ & Hlen). right.
      rewrite length_seq in Hlen. simpl in Hlen. lia.
  - by intros c ->.
Qed.
Lemma yields_draw_sku (category : string) :
  yields (draw_sku category)
         (λ sku, ∃ n, (1000 ≤ n ≤ 9999)%Z ∧ sku = sku_of category n).
Proof.
  intros w. destruct (yields_randint 1000 9999 ltac:(done) w)
    as (n & w' & Hw & Hdb & Hn).
  exists (sku_of category n), w'. unfold draw_sku, mbind, M_bind.
  rewrite Hw. split_and!; [done|done|by exists n].
Qed.

Lemma spec_while_yields {S} (fuel : nat) (cond : S → bool) (body : S → M S)
    (φ : S → Prop) (P : conn → Prop) E (s0 : S) :
  (∀ s, yields (body s) φ) → φ s0 →
  spec P (while fuel cond body s0) (λ s c, (φ s ∧ cond s = false) ∧ P c) E.
Proof.
  intros Hbody Hs0.
  eapply spec_conseq;
    [apply (spec_while fuel cond body (λ s c, φ s ∧ P c))| | |intros e c H; exact H].
  - intros s _. eapply spec_conseq; [apply (yields_spec _ φ (λ c, P c)), Hbody
                                     | |intros a c H; exact H|intros e c H; exact H].
    by intros c [_ ?].
  - by intros c ?.
  - by intros s c [[? ?] ?].
Qed.

Lemma generate_products_shape (fuel : nat) (count : Z) (c0 : conn) :
  spec (λ c, c = c0)
       (generate_products fuel count)
       (λ _ c, ∃ rows, inserted c0 c rows ∧ Forall product_row_shape rows)
       (λ _ _, False).
Proof.
  unfold generate_products, for_range.
  set (I := λ (done : list nat) (st : gmap Z value * gset string) (c : conn),
         ∃ rows, inserted c0 c rows ∧ Forall product_row_shape rows).
  eapply spec_pre; [eapply spec_bind; [apply (spec_for_each _ _ I)|]|].
  - intros done i [product_data used_skus].
    eapply spec_bind; [apply spec_random_choice; done|intros prefix].
    eapply spec_bind; [apply spec_random_choice; done|intros prod_type].
    eapply spec_bind; [apply spec_random_choice; done|intros category].
    eapply spec_bind; [apply yields_spec, yields_draw_sku|intros sku0].
    apply (spec_pure _ _ _ _
             (∃ n, (1000 ≤ n ≤ 9999)%Z ∧ sku0 = sku_of category n));
      [by intros c [? _]|intros Hsku0].
    eapply spec_bind; [|intros sku].
    { apply (spec_while_yields fuel _ _
               (λ sku, ∃ n, (1000 ≤ n ≤ 9999)%Z ∧ sku = sku_of category n));
        [intros _; apply yields_draw_sku|done]. }
    eapply spec_bind; [by apply (spec_random_randint_range 99 99999)|intros units].
    eapply spec_bind; [by apply (spec_random_randint_range 0 99)|intros cents].
    do 3 skip_quiet.
    eapply spec_bind; [apply spec_insert_returning|intros id].
    eapply spec_post; [apply spec_ret|].
    intros st c [-> (c1 & (Hcents & Hunits & [[n [Hn ->]] _] & _ & Hcat & Htype
                           & Hprefix & rows & Hrows & Hok) & Hins)].
    eexists. split; [by eapply inserted_insert_row|].
    apply Forall_app. split; [done|]. apply Forall_singleton.
    split; [done|]. exists category, n, prefix, prod_type, units, cents.
    split_and!; try done; lia.
  - intros [product_data used_skus].
    eapply spec_post; [apply spec_ret|]. by intros pd c [_ H].
  - intros c ->. exists []. split; [apply inserted_refl|done].
Qed.

(** The prices of the table that [generate_products] returns are the
    ones it drew. *)
Lemma generate_products_prices (fuel : nat) (count : Z) (P : conn → Prop) :
  spec P (generate_products fuel count)
       (λ product_data _, ∀ k v, product_data !! k = Some v → made_price v)
       (λ _ _, False).
Proof.
  unfold generate_products, for_range.
  set (I := λ (done : list nat) (st : gmap Z value * gset string) (c : conn),
         ∀ k v, st.1 !! k = Some v → made_price v).
  eapply spec_pre; [eapply spec_bind; [apply (spec_for_each _ _ I)|]|].
  - intros done i [product_data used_skus].
    do 3 skip_quiet.
    eapply spec_bind; [apply Quiet.quiet_spec, quiet_draw_sku|intros sku0].
    eapply spec_bind; [apply spec_while_quiet|intros sku].
    { intros _. apply quiet_draw_sku. }
    eapply spec_bind; [by apply (spec_random_randint_range 99 99999)|intros units].
    eapply spec_bind; [by apply (spec_random_randint_range 0 99)|intros cents].
    do 3 skip_quiet.
    eapply spec_bind; [apply spec_insert_returning|intros id].
    eapply spec_post; [apply spec_ret|].
    intros st c [-> (c1 & (Hcents & Hunits & [Hmade _]) & _)].
    intros k v. simpl. rewrite lookup_insert_Some.
    intros [[_ <-]|[_ Hk]]; [|by eapply Hmade].
    eexists. split; [done|]. lia.
  - intros [product_data used_skus].
    eapply spec_post; [apply spec_ret|]. by intros pd c [-> H].
  - intros c _ k v Hk. simpl in Hk. by rewrite lookup_empty in Hk.
Qed.

Lemma generate_contacts_shape (fuel : nat) (company_ids : list Z) (count : Z)
    (c0 : conn) :
  spec (λ c, c = c0)
       (generate_contacts fuel company_ids count)
       (λ '(contact_ids, contact_company_map) c, ∃ rows,
          inserted c0 c rows
          ∧ (∀ position entry, rows !! position = Some entry →
                               contact_row_shape company_ids position entry)
          ∧ ∀ k v, contact_company_map !! k = Some v →
                   ∃ company_id, v = VInt company_id ∧ company_id ∈ company_ids)
       (λ e c, company_ids = []).
Proof.
  unfold generate_contacts, for_range.
  set (I := λ (done : list nat) (st : list Z * gmap Z value * gset string)
             (c : conn),
         ∃ rows, inserted c0 c rows ∧ length rows = length done
                 ∧ (∀ position entry, rows !! position = Some entry →
                                      contact_row_shape company_ids position entry)
                 ∧ ∀ k v, st.1.2 !! k = Some v →
                          ∃ company_id, v = VInt company_id
                                        ∧ company_id ∈ company_ids).
  eapply spec_pre; [eapply spec_bind; [apply (spec_for_each_at _ _ I)|]|].
  - intros done i rest [[contact_ids contact_company_map] used_emails] Hseq.
    apply seq_position in Hseq as ->.
    eapply spec_bind; [apply spec_random_choice|intros company_id].
    { by intros -> c _. }
    eapply spec_bind; [apply spec_random_choice; done|intros department].
    eapply spec_bind; [apply spec_subscript|intros titles].
    { intros Hnone c [Hd _]. apply dict_get_keys in Hd as [? ?]. congruence. }
    eapply spec_bind; [apply spec_random_choice|intros title].
    { intros -> c [Hd _]. by apply JOB_TITLES_nonempty in Hd. }
    do 3 skip_quiet.
    eapply spec_bind; [apply spec_while_quiet|intros [email counter]].
    { intros [e n]. auto 10 with quiet. }
    do 4 skip_quiet.
    eapply spec_bind; [apply spec_insert_returning|intros id].
    eapply spec_post; [apply spec_ret|].
    intros st c [-> (c1 & Hpre & Hins)].
    destruct Hpre as ((Htitle & Htitles & _ & Hcomp & rows & Hrows & Hlen
                       & Hshape & Hmap) & _).
    simpl in Hmap.
    eexists. split_and!.
    + by eapply inserted_insert_row.
    + rewrite !length_app, Hlen. done.
    + intros position entry Hentry.
      apply lookup_app_Some in Hentry as [Hentry|[Hge Hentry]]; [by apply Hshape|].
      apply list_lookup_singleton_Some in Hentry as [Hpos <-].
      assert (position = length done) as -> by lia.
      split_and!; [done..|].
      by exists company_id, department, titles, title.
    + simpl. intros k v. rewrite lookup_insert_Some.
      intros [[_ <-]|[_ Hk]]; [by exists company_id|by eapply Hmap].
  - intros [[contact_ids contact_company_map] used_emails].
    eapply spec_post; [apply spec_ret|].
    intros [ids m] c [[= -> ->] (rows & Hrows & _ & Hshape & Hmap)].
    by exists rows.
  - intros c ->. exists []. split_and!; [apply inserted_refl|done|done|].
    simpl. intros k v Hk. by rewrite lookup_empty in Hk.
Qed.
End ShapeFacts.

(** ** What the generators write *)

Module RunFacts.
Import SpecRules DrawRules GeneratorFacts ShapeFacts.

(** A computation whose only exception is ruled out, run from a world. *)
Lemma returns_unless {A} (m : M A) (Q : A → conn → Prop) (φ : Prop) (w : world) :
  spec (λ c, c = db w) m Q (λ _ _, φ) → fuel_free m → ¬ φ →
  ∃ a w', m w = (Ret a, w') ∧ Q a (db w').
Proof.
  intros Hspec Hfree Hφ.
  apply (FuelFree.returns m (λ c, c = db w)); [|done|done].
  eapply spec_exn; [exact Hspec|]. intros e c H. by apply Hφ.
Qed.

Lemma nodup_bounded {A} (l k : list A) :
  NoDup l → (∀ x, x ∈ l → x ∈ k) → length l ≤ length k.
Proof. intros Hnd Hsub. by apply submseteq_length, NoDup_submseteq. Qed.

Lemma all_skus_length : Z.of_nat (length all_skus) = 90000%Z.
Proof.
  unfold all_skus.
  rewrite length_fmap, length_prod, length_seqZ, Nat2Z.inj_mul, Z2Nat.id by lia.
  reflexivity.
Qed.

Lemma sku_in_all_skus (category : string) (n : Z) :
  category ∈ PRODUCT_CATEGORIES → (1000 ≤ n ≤ 9999)%Z →
  sku_of category n ∈ all_skus.
Proof.
  intros Hcat Hn. unfold all_skus. apply list_elem_of_fmap.
  exists (category, n). split; [done|].
  apply list_elem_of_In, in_prod; apply list_elem_of_In; [done|].
  apply elem_of_seqZ. lia.
Qed.

Lemma in_pairs (deal_ids : list Z) (product_data : gmap Z value) (d p : Z) :
  d ∈ deal_ids → is_Some (product_data !! p) →
  (d, p) ∈ list_prod (remove_dups deal_ids) (map_to_list product_data).*1.
Proof.
  intros Hd Hp. apply list_elem_of_In, in_prod; apply list_elem_of_In.
  - by apply elem_of_remove_dups.
  - by apply product_ids_elem.
Qed.

Lemma pairs_length (deal_ids : list Z) (product_data : gmap Z value) :
  length (list_prod (remove_dups deal_ids) (map_to_list product_data).*1)
  = length (remove_dups deal_ids) * size product_data.
Proof. by rewrite length_prod, length_fmap, length_map_to_list. Qed.

Lemma products_run (fuel : nat) (count : Z) (w w' : world)
    (product_data : gmap Z value) :
  generate_products fuel count w = (Ret product_data, w') →
  ∃ rows,
    inserted (db w) (db w') rows
    ∧ length rows = Z.to_nat count
    ∧ Forall product_row_shape rows
    ∧ NoDup (column "sku" <$> rows)
    ∧ (∀ k, is_Some (product_data !! k) ↔ k ∈ rows.*2.*1)
    ∧ ∀ k v, product_data !! k = Some v → is_decimal v.
Proof.
  intros Hrun.
  destruct (spec_run _ _ _ _ _ _
              (generate_products_shape fuel count (db w)) Hrun)
    as (rows & Hrows & Hshape).
  destruct (spec_run _ _ _ _ _ _
              (generate_products_spec fuel count (db w)) Hrun)
    as (rows' & Hrows' & Hlen & Hnd & _ & Hdec & Hkeys).
  rewrite <- (inserted_same _ _ _ _ Hrows Hrows') in *.
  by exists rows.
Qed.

Lemma products_bounded (rows : list (string * (Z * row))) :
  Forall product_row_shape rows → NoDup (column "sku" <$> rows) →
  (Z.of_nat (length rows) ≤ 90000)%Z.
Proof.
  intros Hshape Hnd. rewrite <- all_skus_length.
  apply inj_le.
  rewrite <- (length_fmap (column "sku") rows),
    <- (length_fmap (λ sku, Some (VStr sku)) all_skus).
  apply nodup_bounded; [done|].
  intros x (entry & -> & Hin)%list_elem_of_fmap.
  eapply Forall_forall in Hshape; [|done].
  destruct Hshape as (_ & category & n & prefix & prod_type & units & cents
                      & _ & Hcat & Hsku & Hn & _).
  rewrite Hsku. apply list_elem_of_fmap. eexists. split; [done|].
  by apply sku_in_all_skus.
Qed.

Lemma deal_products_bounded (deal_ids : list Z) (product_data : gmap Z value)
    (rows : list (string * (Z * row))) :
  Forall (deal_product_row_ok deal_ids product_data) rows →
  NoDup (pair_of <$> rows) →
  length rows ≤ length (remove_dups deal_ids) * size product_data.
Proof.
  intros Hok Hnd. rewrite <- pairs_length.
  rewrite <- (length_fmap pair_of rows),
    <- (length_fmap (λ dp : Z * Z, (Some (VInt dp.1), Some (VInt dp.2)))
          (list_prod (remove_dups deal_ids) (map_to_list product_data).*1)).
  apply nodup_bounded; [done|].
  intros x (entry & -> & Hin)%list_elem_of_fmap.
  eapply Forall_forall in Hok; [|done].
  destruct Hok as (_ & d & p & Hd & Hp & Hdin & Hpin).
  apply list_elem_of_fmap. exists (d, p). split.
  - unfold pair_of. by rewrite Hd, Hp.
  - by apply in_pairs.
Qed.
End RunFacts.

(** X8. [generate_companies] needs no pool and never fails: for every count it
    returns the ids of the rows it inserted, [count] of them (none for a
    count below one), each with the country [USA], an industry of
    [INDUSTRIES], between 10 and 10000 employees and a revenue between
    100000 and 100000000. *)
Theorem generate_companies_always_returns (count : Z) (w : world) :
  ∃ company_ids w' rows,
    generate_companies count w = (Ret company_ids, w')
    ∧ inserted (db w) (db w') rows
    ∧ length rows = Z.to_nat count
    ∧ company_ids = rows.*2.*1
    ∧ Forall company_row_shape rows.
Proof.
  destruct (FuelFree.returns (generate_companies count) (λ c, c = db w) _ w
              (ShapeFacts.generate_companies_shape count (db w))
              (FuelFreeGenerators.generate_companies_fuel_free count) eq_refl)
    as (ids & w' & Hrun & rows & Hrows & Hshape).
  destruct (spec_run _ _ _ _ _ _
              (GeneratorFacts.generate_companies_spec count (db w)) Hrun)
    as (rows' & Hrows' & Hlen & Hids & _).
  rewrite <- (DrawRules.inserted_same _ _ _ _ Hrows Hrows') in *.
  by exists ids, w', rows.
Qed.

(** X9. Given a company pool that is not empty, [generate_deals] returns
    [count] new deal ids, and every row it inserts has a stage of
    [DEAL_STAGES], a probability from 0 to 100 that is the stage's own
    for [closed_won] and [closed_lost] and within ten points of it for
    the other stages, a close date exactly when the stage is closed, and
    a value from 1000 to 500000. *)
Theorem generate_deals_rows
    (company_ids contact_ids : list Z) (contact_company_map : gmap Z value)
    (count : Z) (w : world) :
  company_ids ≠ [] →
  ∃ deal_ids w' rows,
    generate_deals company_ids contact_ids contact_company_map count w
    = (Ret deal_ids, w')
    ∧ inserted (db w) (db w') rows
    ∧ length rows = Z.to_nat count
    ∧ deal_ids = rows.*2.*1
    ∧ Forall deal_row_shape rows.
Proof.
  intros Hpool.
  destruct (RunFacts.returns_unless _ _ _ w
              (ShapeFacts.generate_deals_shape company_ids contact_ids
                 contact_company_map count (db w))
              (FuelFreeGenerators.generate_deals_fuel_free _ _ _ _) Hpool)
    as (ids & w' & Hrun & rows & Hrows & Hshape).
  destruct (spec_run _ _ _ _ _ _
              (GeneratorFacts.generate_deals_spec company_ids contact_ids
                 contact_company_map count (db w)) Hrun)
    as (rows' & Hrows' & Hlen & Hids & _).
  rewrite <- (DrawRules.inserted_same _ _ _ _ Hrows Hrows') in *.
  by exists ids, w', rows.
Qed.

Lemma generate_deals_rows_witness :
  ∃ deal_ids w' rows,
    generate_deals [4%Z; 9%Z] [] ∅ 3 demo_world = (Ret deal_ids, w')
    ∧ inserted (db demo_world) (db w') rows
    ∧ length rows = Z.to_nat 3
    ∧ deal_ids = rows.*2.*1
    ∧ Forall deal_row_shape rows.
Proof. apply (generate_deals_rows [4%Z; 9%Z] [] ∅ 3 demo_world). done. Defined.

(** X14. Given a contact pool that is not empty and a count above zero,
    [generate_activities] returns after inserting [count] rows, each for a
    contact of the pool, with a type of [ACTIVITY_TYPES], a subject from
    the list of that type, and a duration from 5 to 120 minutes exactly for
    calls, meetings and demos (none for the other types). *)
Theorem generate_activities_rows (contact_ids : list Z) (count : Z) (w : world) :
  contact_ids ≠ [] →
  (0 < count)%Z →
  ∃ w' rows,
    generate_activities contact_ids count w = (Ret (), w')
    ∧ inserted (db w) (db w') rows
    ∧ length rows = Z.to_nat count
    ∧ Forall (activity_row_shape contact_ids) rows.
Proof.
  intros Hpool Hcount.
  destruct (RunFacts.returns_unless _ _ _ w
              (ShapeFacts.generate_activities_shape contact_ids count (db w))
              (FuelFreeGenerators.generate_activities_fuel_free _ _)
              ltac:(intros [?|?]; [done|lia]))
    as ([] & w' & Hrun & rows & Hrows & Hshape).
  destruct (spec_run _ _ _ _ _ _
              (GeneratorFacts.generate_activities_spec contact_ids count (db w)) Hrun)
    as (rows' & Hrows' & Hlen & _).
  rewrite <- (DrawRules.inserted_same _ _ _ _ Hrows Hrows') in *.
  by exists w', rows.
Qed.

Lemma generate_activities_rows_witness :
  ∃ w' rows,
    generate_activities [4%Z; 9%Z] 3 demo_world = (Ret (), w')
    ∧ inserted (db demo_world) (db w') rows
    ∧ length rows = Z.to_nat 3
    ∧ Forall (activity_row_shape [4%Z; 9%Z]) rows.
Proof. apply (generate_activities_rows [4%Z; 9%Z] 3 demo_world); [done|lia]. Defined.

(** X15. Given a deal pool that is not empty and a count above zero,
    [generate_tasks] returns after inserting [count] rows, each for a deal
    of the pool, with the title and description of one template, a status
    of [TASK_STATUSES], a priority of [TASK_PRIORITIES], and a completion
    time exactly when the status is [completed]. *)
Theorem generate_tasks_rows (deal_ids : list Z) (count : Z) (w : world) :
  deal_ids ≠ [] →
  (0 < count)%Z →
  ∃ w' rows,
    generate_tasks deal_ids count w = (Ret (), w')
    ∧ inserted (db w) (db w') rows
    ∧ length rows = Z.to_nat count
    ∧ Forall (task_row_shape deal_ids) rows.
Proof.
  intros Hpool Hcount.
  destruct (RunFacts.returns_unless _ _ _ w
              (ShapeFacts.generate_tasks_shape deal_ids count (db w))
              (FuelFreeGenerators.generate_tasks_fuel_free _ _)
              ltac:(intros [?|?]; [done|lia]))
    as ([] & w' & Hrun & rows & Hrows & Hshape).
  destruct (spec_run _ _ _ _ _ _
              (GeneratorFacts.generate_tasks_spec deal_ids count (db w)) Hrun)
    as (rows' & Hrows' & Hlen & _).
  rewrite <- (DrawRules.inserted_same _ _ _ _ Hrows Hrows') in *.
  by exists w', rows.
Qed.

Lemma generate_tasks_rows_witness :
  ∃ w' rows,
    generate_tasks [4%Z; 9%Z] 3 demo_world = (Ret (), w')
    ∧ inserted (db demo_world) (db w') rows
    ∧ length rows = Z.to_nat 3
    ∧ Forall (task_row_shape [4%Z; 9%Z]) rows.
Proof. apply (generate_tasks_rows [4%Z; 9%Z] 3 demo_world); [done|lia]. Defined.

(** X10. When [generate_contacts] returns, the row at each position has a
    title from the list of its department, a company of the pool, and is
    flagged primary exactly at the positions 0, 5, 10, ...; the returned
    ids are those of the rows in order, and the returned map has exactly
    these ids as keys and only companies of the pool as values. *)
Theorem generate_contacts_rows
    (fuel : nat) (company_ids : list Z) (count : Z) (w w' : world)
    (contact_ids : list Z) (contact_company_map : gmap Z value) :
  generate_contacts fuel company_ids count w
  = (Ret (contact_ids, contact_company_map), w') →
  ∃ rows,
    inserted (db w) (db w') rows
    ∧ length rows = Z.to_nat count
    ∧ contact_ids = rows.*2.*1
    ∧ (∀ position entry, rows !! position = Some entry →
                         contact_row_shape company_ids position entry)
    ∧ (∀ k, is_Some (contact_company_map !! k) ↔ k ∈ contact_ids)
    ∧ ∀ k v, contact_company_map !! k = Some v →
             ∃ company_id, v = VInt company_id ∧ company_id ∈ company_ids.
Proof.
  intros Hrun.
  destruct (spec_run _ _ _ _ _ _
              (ShapeFacts.generate_contacts_shape fuel company_ids count (db w)) Hrun)
    as (rows & Hrows & Hshape & Hvalues).
  destruct (spec_run _ _ _ _ _ _
              (GeneratorFacts.generate_contacts_spec fuel company_ids count (db w)) Hrun)
    as (rows' & Hrows' & Hlen & Hids & _ & _ & Hkeys).
  rewrite <- (DrawRules.inserted_same _ _ _ _ Hrows Hrows') in *.
  by exists rows.
Qed.

Lemma generate_contacts_rows_witness :
  ∃ rows,
    inserted (db demo_world) (db (generate_contacts 4 [1%Z; 2%Z] 7 demo_world).2) rows
    ∧ length rows = Z.to_nat 7
    ∧ match (generate_contacts 4 [1%Z; 2%Z] 7 demo_world).1 with
      | Ret r => r.1 | _ => [] end = rows.*2.*1
    ∧ (∀ position entry, rows !! position = Some entry →
                         contact_row_shape [1%Z; 2%Z] position entry)
    ∧ (∀ k, is_Some (match (generate_contacts 4 [1%Z; 2%Z] 7 demo_world).1 with
                     | Ret r => r.2 | _ => ∅ end !! k)
            ↔ k ∈ match (generate_contacts 4 [1%Z; 2%Z] 7 demo_world).1 with
                  | Ret r => r.1 | _ => [] end)
    ∧ ∀ k v, match (generate_contacts 4 [1%Z; 2%Z] 7 demo_world).1 with
             | Ret r => r.2 | _ => ∅ end !! k = Some v →
             ∃ company_id, v = VInt company_id ∧ company_id ∈ [1%Z; 2%Z].
Proof.
  apply (generate_contacts_rows 4 [1%Z; 2%Z] 7 demo_world).
  vm_compute. reflexivity.
Defined.

(** X11. When [generate_products] returns, every row it inserted has a
    category of [PRODUCT_CATEGORIES], the SKU made of the first three
    letters of that category in upper case and a number from 1000 to
    9999, a name made of a prefix, the category and a type, and a price
    from 99.00 to 99999.99; no two rows share a SKU, and the returned
    price table has exactly the ids of the rows as keys. *)
Theorem generate_products_rows
    (fuel : nat) (count : Z) (w w' : world) (product_data : gmap Z value) :
  generate_products fuel count w = (Ret product_data, w') →
  ∃ rows,
    inserted (db w) (db w') rows
    ∧ length rows = Z.to_nat count
    ∧ Forall product_row_shape rows
    ∧ NoDup (column "sku" <$> rows)
    ∧ (∀ k, is_Some (product_data !! k) ↔ k ∈ rows.*2.*1)
    ∧ ∀ k v, product_data !! k = Some v → is_decimal v.
Proof. apply RunFacts.products_run. Qed.

Lemma generate_products_rows_witness :
  ∃ rows,
    inserted (db demo_world) (db (generate_products 4 5 demo_world).2) rows
    ∧ length rows = Z.to_nat 5
    ∧ Forall product_row_shape rows
    ∧ NoDup (column "sku" <$> rows)
    ∧ (∀ k, is_Some (match (generate_products 4 5 demo_world).1 with
                     | Ret r => r | _ => ∅ end !! k) ↔ k ∈ rows.*2.*1)
    ∧ ∀ k v, match (generate_products 4 5 demo_world).1 with
             | Ret r => r | _ => ∅ end !! k = Some v → is_decimal v.
Proof.
  apply (generate_products_rows 4 5 demo_world). vm_compute. reflexivity.
Defined.

(** X12. There are 90000 SKUs to draw from (ten categories, the numbers 1000
    to 9999) and no SKU is used twice, so a call of [generate_products]
    for more than 90000 products never returns: whatever the draws and
    however long it runs, it is still in a loop, and it raises nothing. *)
Theorem generate_products_exhausts_skus (fuel : nat) (count : Z) (w : world) :
  (90000 < count)%Z →
  (generate_products fuel count w).1 = OutOfFuel.
Proof.
  intros Hcount.
  destruct (generate_products fuel count w) as [[pd|e|] w'] eqn:Hrun; [| |done].
  - exfalso.
    destruct (RunFacts.products_run fuel count w w' pd Hrun)
      as (rows & _ & Hlen & Hshape & Hnd & _).
    pose proof (RunFacts.products_bounded rows Hshape Hnd). lia.
  - exfalso.
    apply (spec_run_raise _ _ _ _ _ _
             (GeneratorFacts.generate_products_spec fuel count (db w)) Hrun).
Qed.

Lemma generate_products_exhausts_skus_witness :
  (generate_products 25 90001 demo_world).1 = OutOfFuel.
Proof. apply (generate_products_exhausts_skus 25 90001 demo_world). lia. Defined.

(** X13. [generate_deal_products] uses no (deal, product) pair twice, so a call
    for more rows than there are pairs of a deal of the pool and a
    product of the price table never returns; with both pools non-empty
    and every price a number of magnitude at most 8·10^25, which the
    scaling and the rounding accept, it raises nothing either: however long
    it runs, it is still drawing pairs. *)
Theorem generate_deal_products_exhausts_pairs
    (fuel : nat) (deal_ids : list Z) (product_data : gmap Z value) (count : Z)
    (w : world) :
  (Z.of_nat (length (remove_dups deal_ids) * size product_data) < count)%Z →
  (∀ w', generate_deal_products fuel deal_ids product_data count w ≠ (Ret (), w'))
  ∧ (deal_ids ≠ [] → product_data ≠ ∅ →
     (∀ k v, product_data !! k = Some v → scalable v) →
     (generate_deal_products fuel deal_ids product_data count w).1 = OutOfFuel).
Proof.
  intros Hcount.
  assert (∀ w', generate_deal_products fuel deal_ids product_data count w
                ≠ (Ret (), w')) as Hnot.
  { intros w' Hrun.
    destruct (spec_run _ _ _ _ _ _
                (GeneratorFacts.generate_deal_products_spec fuel deal_ids
                   product_data count (db w)) Hrun)
      as (rows & _ & Hlen & Hnd & Hok).
    pose proof (RunFacts.deal_products_bounded _ _ _ Hok Hnd). lia. }
  split; [done|]. intros Hdeals Hproducts Hdec.
  destruct (generate_deal_products fuel deal_ids product_data count w)
    as [[[]|e|] w'] eqn:Hrun; [by destruct (Hnot w')| |done].
  exfalso.
  destruct (spec_run_raise _ _ _ _ _ _
              (GeneratorFacts.generate_deal_products_spec fuel deal_ids
                 product_data count (db w)) Hrun)
    as (_ & [(_ & [?|?])|[(_ & k & v & Hk & Hv)|[(_ & k & v & Hk & Hv)|[_ ?]]]]);
    [done..| | |lia].
  - destruct (Hdec k v Hk) as (h & Hh & _). congruence.
  - apply Hv. by eapply Hdec.
Qed.

Lemma generate_deal_products_exhausts_pairs_witness :
  (∀ w', generate_deal_products 30 [3%Z; 3%Z; 8%Z]
           {[5%Z := VDecimal 1000; 6%Z := VDecimal 250]} 5 demo_world
         ≠ (Ret (), w'))
  ∧ (generate_deal_products 30 [3%Z; 3%Z; 8%Z]
       {[5%Z := VDecimal 1000; 6%Z := VDecimal 250]} 5 demo_world).1 = OutOfFuel.
Proof.
  destruct (generate_deal_products_exhausts_pairs 30 [3%Z; 3%Z; 8%Z]
              {[5%Z := VDecimal 1000; 6%Z := VDecimal 250]} 5 demo_world)
    as [Hnot Hspin].
  - vm_compute. reflexivity.
  - split; [done|]. apply Hspin.
    + done.
    + apply (bool_decide_unpack _). by vm_compute.
    + intros k v Hk.
      apply lookup_insert_Some in Hk as [[_ <-]|[_ Hk]];
        [exists 1000%Z; split; [done|by vm_compute]|].
      apply lookup_singleton_Some in Hk as [_ <-].
      exists 250%Z. split; [done|by vm_compute].
Defined.

(** X16. Called directly with an empty pool and a count above zero, each
    generator that draws from a pool raises [IndexError] from its first
    [random.choice]: nothing has been drawn, nothing inserted, the world
    is as it was.  ([generate_deal_products] with deals but no products
    fails in the same way after drawing one deal.) *)
Theorem empty_pool_raises_index_error (count : Z) :
  (0 < count)%Z →
  ∀ fuel ids (contact_company_map product_data : gmap Z value) w,
    generate_contacts fuel [] count w = (Raise IndexError, w)
    ∧ generate_deals [] ids contact_company_map count w = (Raise IndexError, w)
    ∧ generate_deal_products (S fuel) [] product_data count w = (Raise IndexError, w)
    ∧ generate_activities [] count w = (Raise IndexError, w)
    ∧ generate_notes [] count w = (Raise IndexError, w)
    ∧ generate_tasks [] count w = (Raise IndexError, w)
    ∧ (ids ≠ [] →
       ∃ w', generate_deal_products (S fuel) ids ∅ count w = (Raise IndexError, w')
             ∧ db w' = db w).
Proof.
  intros Hcount fuel ids contact_company_map product_data w.
  assert (∃ n, Z.to_nat count = S n) as [n Hn] by (exists (Z.to_nat count - 1); lia).
  split_and!.
  - unfold generate_contacts, for_range. by rewrite Hn.
  - unfold generate_deals, for_range. by rewrite Hn.
  - unfold generate_deal_products. cbn [while].
    rewrite bool_decide_eq_true_2 by (simpl; lia). done.
  - unfold generate_activities, for_range. by rewrite Hn.
  - unfold generate_notes, for_range. by rewrite Hn.
  - unfold generate_tasks, for_range. by rewrite Hn.
  - intros Hids. unfold generate_deal_products. cbn [while].
    rewrite bool_decide_eq_true_2 by (simpl; lia).
    destruct (Quiet.quiet_random_choice ids Hids w) as (d & w' & Hd & Hdb).
    exists w'. split; [|done].
    unfold mbind, M_bind at 1 2. simpl. unfold mbind, M_bind. rewrite Hd.
    by rewrite map_to_list_empty.
Qed.

Lemma empty_pool_raises_index_error_witness :
  generate_contacts 2 [] 3 demo_world = (Raise IndexError, demo_world)
  ∧ generate_deals [] [1%Z] ∅ 3 demo_world = (Raise IndexError, demo_world)
  ∧ generate_deal_products 3 [] ∅ 3 demo_world = (Raise IndexError, demo_world)
  ∧ generate_activities [] 3 demo_world = (Raise IndexError, demo_world)
  ∧ generate_notes [] 3 demo_world = (Raise IndexError, demo_world)
  ∧ generate_tasks [] 3 demo_world = (Raise IndexError, demo_world)
  ∧ ([1%Z] ≠ [] →
     ∃ w', generate_deal_products 3 [1%Z] ∅ 3 demo_world = (Raise IndexError, w')
           ∧ db w' = db demo_world).
Proof. apply (empty_pool_raises_index_error 3); lia. Defined.

(** X17. A count below one is not refused, it is taken as zero: for every
    count that is zero or negative, whatever the pools (empty ones too)
    and the fuel, nothing is drawn or inserted and the world stays as it
    was.  The four generators that insert row by row return at once with
    an empty result; the four that collect a batch reach their statement
    with the empty batch and raise [StatementError]. *)
Theorem non_positive_count_generates_nothing (count : Z) :
  (count ≤ 0)%Z →
  ∀ fuel company_ids contact_ids (contact_company_map product_data : gmap Z value)
    deal_ids w,
    generate_companies count w = (Ret [], w)
    ∧ generate_contacts fuel company_ids count w = (Ret ([], ∅), w)
    ∧ generate_products fuel count w = (Ret ∅, w)
    ∧ generate_deals company_ids contact_ids contact_company_map count w = (Ret [], w)
    ∧ generate_deal_products fuel deal_ids product_data count w
      = (Raise StatementError, w)
    ∧ generate_activities contact_ids count w = (Raise StatementError, w)
    ∧ generate_notes contact_ids count w = (Raise StatementError, w)
    ∧ generate_tasks deal_ids count w = (Raise StatementError, w).
Proof.
  intros Hcount fuel company_ids contact_ids contact_company_map product_data
    deal_ids w.
  assert (Z.to_nat count = 0) as Hn by lia.
  split_and!.
  - unfold generate_companies, for_range. by rewrite Hn.
  - unfold generate_contacts, for_range. by rewrite Hn.
  - unfold generate_products, for_range. by rewrite Hn.
  - unfold generate_deals, for_range. by rewrite Hn.
  - unfold generate_deal_products.
    rewrite (DriverFacts.bind_ret_eq _ _ w w ([], ∅));
      [apply DriverFacts.insert_many_nil|].
    destruct fuel; simpl; by rewrite bool_decide_eq_false_2 by lia.
  - unfold generate_activities, for_range. rewrite Hn.
    rewrite (DriverFacts.bind_ret_eq _ _ w w []);
      [apply DriverFacts.insert_many_nil|done].
  - unfold generate_notes, for_range. rewrite Hn.
    rewrite (DriverFacts.bind_ret_eq _ _ w w []);
      [apply DriverFacts.insert_many_nil|done].
  - unfold generate_tasks, for_range. rewrite Hn.
    rewrite (DriverFacts.bind_ret_eq _ _ w w []);
      [apply DriverFacts.insert_many_nil|done].
Qed.

Lemma non_positive_count_generates_nothing_witness :
  generate_companies (-4) demo_world = (Ret [], demo_world)
  ∧ generate_contacts 0 [] (-4) demo_world = (Ret ([], ∅), demo_world)
  ∧ generate_products 0 (-4) demo_world = (Ret ∅, demo_world)
  ∧ generate_deals [] [] ∅ (-4) demo_world = (Ret [], demo_world)
  ∧ generate_deal_products 0 [] ∅ (-4) demo_world
    = (Raise StatementError, demo_world)
  ∧ generate_activities [] (-4) demo_world = (Raise StatementError, demo_world)
  ∧ generate_notes [] (-4) demo_world = (Raise StatementError, demo_world)
  ∧ generate_tasks [] (-4) demo_world = (Raise StatementError, demo_world).
Proof. apply (non_positive_count_generates_nothing (-4)). lia. Defined.

(** * Further properties of the driver *)

Module TurnFacts.
Import SpecRules GeneratorFacts DriverFacts.

Lemma ids_nonempty (rows : list (string * (Z * row))) (count : Z) :
  length rows = Z.to_nat count → (0 < count)%Z → rows.*2.*1 ≠ [].
Proof.
  intros Hlen Hcount Hnil.
  apply fmap_nil_inv, fmap_nil_inv in Hnil. subst rows. simpl in Hlen. lia.
Qed.

Lemma table_nonempty (rows : list (string * (Z * row))) (count : Z)
    (product_data : gmap Z value) :
  length rows = Z.to_nat count → (0 < count)%Z →
  (∀ k, is_Some (product_data !! k) ↔ k ∈ rows.*2.*1) → product_data ≠ ∅.
Proof.
  intros Hlen Hcount Hkeys ->.
  pose proof (ids_nonempty rows count Hlen Hcount) as Hne.
  destruct (rows.*2.*1) as [|k ks]; [done|].
  destruct (proj2 (Hkeys k)) as [v Hv]; [by left|].
  by rewrite lookup_empty in Hv.
Qed.

Ltac pools_kept :=
  let t := fresh "t" in
  intros t; unfold pool_filled; repeat case_bool_decide; simpl; auto.

Ltac no_dep name :=
  let H := fresh in
  intros [H _]; specialize (H name ltac:(known_dep)); by apply H.

Lemma spec_and {A} (m : M A) (P : conn → Prop) (Q1 Q2 : A → conn → Prop)
    (E : exn → conn → Prop) :
  spec P m Q1 E → spec P m Q2 E → spec P m (λ a c, Q1 a c ∧ Q2 a c) E.
Proof.
  intros H1 H2 w Hw. specialize (H1 w Hw). specialize (H2 w Hw).
  by destruct (m w) as [[a|e|] w'].
Qed.

Lemma made_price_scalable (v : value) : made_price v → scalable v.
Proof.
  intros (h & -> & Hh). exists h. split; [done|].
  change (8 * 10 ^ 27)%Z with 8000000000000000000000000000%Z. lia.
Qed.

(** One turn of the driver, seen from the pools: so long as the pools of
    the table's prerequisites are filled, the prices of the pool are
    those of [generate_products] and the count is above zero, it raises
    nothing; with a count above zero it keeps the filled pools filled and
    fills its own. *)
Lemma generate_table_pools (fuel : nat) (table : string) (count : Z) (p : pools)
    (c0 : conn) :
  spec (λ c, c = c0)
       (generate_table fuel table count p)
       (λ p' c,
          ((0 < count)%Z → (∀ t, pool_filled t p → pool_filled t p')
                           ∧ pool_filled table p')
          ∧ ((∀ dep, dep ∈ table_deps table → pool_filled dep p) →
             pool_prices_made p → pool_prices_made p')
          ∧ ∃ rows, inserted c0 c rows
                    ∧ Forall (λ entry, entry.1 = table) rows
                    ∧ (table ∈ ALL_TABLES → length rows = Z.to_nat count))
       (λ _ _, ¬ ((∀ dep, dep ∈ table_deps table → pool_filled dep p)
                  ∧ pool_prices_made p ∧ (0 < count)%Z)).
Proof.
  unfold generate_table.
  destruct (decide (table = "companies")) as [->|?]; [on_table|off_table].
  2: destruct (decide (table = "contacts")) as [->|?]; [on_table|off_table].
  3: destruct (decide (table = "products")) as [->|?]; [on_table|off_table].
  4: destruct (decide (table = "deals")) as [->|?]; [on_table|off_table].
  5: destruct (decide (table = "deal_products")) as [->|?]; [on_table|off_table].
  6: destruct (decide (table = "activities")) as [->|?]; [on_table|off_table].
  7: destruct (decide (table = "notes")) as [->|?]; [on_table|off_table].
  8: destruct (decide (table = "tasks")) as [->|?]; [on_table|off_table].
  - (* companies *)
    eapply spec_bind; [|intros ids].
    { eapply spec_exn; [apply generate_companies_spec|done]. }
    eapply spec_post; [apply spec_ret|].
    intros p' c [-> (rows & Hrows & Hlen & -> & Htable)].
    split_and!; [|done|by exists rows].
    intros Hcount. pose proof (ids_nonempty rows count Hlen Hcount).
    split; [pools_kept|done].
  - (* contacts *)
    eapply spec_bind; [|intros ids].
    { eapply spec_exn; [apply existing_or_exit_spec|].
      intros e c (_ & _ & Hids & _). no_dep "companies". }
    apply (spec_pure _ _ _ _ (ids ≠ [])); [by intros c (_ & ? & _)|intros Hne].
    eapply spec_bind; [|intros [contact_ids contact_company_map]].
    { eapply spec_exn; [eapply spec_pre; [apply (generate_contacts_spec fuel ids count c0)|by intros c (-> & _)]|].
      by intros e c (_ & ? & _). }
    eapply spec_post; [apply spec_ret|].
    intros p' c [-> (rows & Hrows & Hlen & -> & _ & Hok & _)].
    split_and!; [|done|].
    + intros Hcount. pose proof (ids_nonempty rows count Hlen Hcount).
      split; [pools_kept|done].
    + exists rows. split_and!; [done| |done].
      eapply Forall_impl; [exact Hok|]. by intros ? [? _].
  - (* products *)
    eapply spec_bind; [|intros pd].
    { eapply spec_exn;
        [apply spec_and;
           [apply generate_products_spec
           |apply ShapeFacts.generate_products_prices]|done]. }
    eapply spec_post; [apply spec_ret|].
    intros p' c [-> [(rows & Hrows & Hlen & _ & Hok & Hdec & Hkeys) Hmade]].
    split_and!; [|done|].
    + intros Hcount. pose proof (table_nonempty rows count pd Hlen Hcount Hkeys).
      split; [pools_kept|done].
    + exists rows. split_and!; [done| |done].
      eapply Forall_impl; [exact Hok|]. by intros ? [? _].
  - (* deals *)
    eapply spec_bind; [|intros ids].
    { eapply spec_exn; [apply existing_or_exit_spec|].
      intros e c (_ & _ & Hids & _). no_dep "companies". }
    apply (spec_pure _ _ _ _ (ids ≠ [])); [by intros c (_ & ? & _)|intros Hne].
    eapply spec_bind; [|intros [contact_ids contact_company_map]].
    { eapply spec_exn; [eapply spec_pre; [apply (contacts_or_exit_spec p c0)|by intros c (-> & _)]|].
      intros e c (_ & _ & Hids & _). no_dep "contacts". }
    apply (spec_pure _ _ _ _ (contact_ids ≠ [])); [by intros c (_ & ? & _)|intros Hcne].
    eapply spec_bind; [|intros deal_ids].
    { eapply spec_exn; [eapply spec_pre; [apply (generate_deals_spec ids contact_ids contact_company_map count c0)|by intros c (-> & _)]|].
      by intros e c (_ & ? & _). }
    eapply spec_post; [apply spec_ret|].
    intros p' c [-> (rows & Hrows & Hlen & -> & Hok)].
    split_and!; [|done|].
    + intros Hcount. pose proof (ids_nonempty rows count Hlen Hcount).
      split; [pools_kept|done].
    + exists rows. split_and!; [done| |done].
      eapply Forall_impl; [exact Hok|]. by intros ? [? _].
  - (* deal_products *)
    eapply spec_bind; [|intros ids].
    { eapply spec_exn; [apply existing_or_exit_spec|].
      intros e c (_ & _ & Hids & _). no_dep "deals". }
    apply (spec_pure _ _ _ _ (ids ≠ [])); [by intros c (_ & ? & _)|intros Hne].
    eapply spec_bind with
      (Q := λ pd c, c = c0 ∧ pd ≠ ∅
                    ∧ (product_data p ≠ ∅ → pd = product_data p)); [|intros pd].
    { intros w (Hw & _).
      destruct (prices_or_exit_cases p w)
        as [(pd & Hpdne & Hrun & _)|(Hempty & _ & Hrun)];
        pose proof Hrun as Hrun'; rewrite Hrun; simpl.
      - split_and!; [done|done|]. intros Hfilled.
        unfold prices_or_exit in Hrun'.
        rewrite bool_decide_eq_false_2 in Hrun' by done. by injection Hrun'.
      - intros [Hdeps _]. specialize (Hdeps "products" ltac:(known_dep)).
        by apply Hdeps. }
    apply (spec_pure _ _ _ _ (pd ≠ ∅ ∧ (product_data p ≠ ∅ → pd = product_data p)));
      [by intros c (_ & ? & ?)|intros [Hpd Hsame]].
    eapply spec_bind; [|intros []].
    { eapply spec_exn; [eapply spec_pre; [apply (generate_deal_products_spec fuel ids pd count c0)|by intros c (-> & _)]|].
      intros e c (-> & [(_ & [?|?])|[(-> & k & v & Hk & Hv)
                                      |[(He & k & v & Hk & Hv)|[-> Hcount]]]]);
        [done..| | |]; intros (Hdeps & Hdec & Hpos); [| |lia];
        specialize (Hdeps "products" ltac:(known_dep));
        rewrite (Hsame Hdeps) in Hk;
        destruct (made_price_scalable v (Hdec k v Hk)) as (h & Hh & Hbound).
      - congruence.
      - apply Hv. by exists h. }
    eapply spec_post; [apply spec_ret|].
    intros p' c [-> (rows & Hrows & Hlen & _ & Hok)].
    split_and!.
    + intros Hcount. split; [pools_kept|done].
    + intros Hdeps Hdec. specialize (Hdeps "products" ltac:(known_dep)).
      unfold pool_prices_made. simpl. by rewrite Hsame.
    + exists rows. split_and!; [done| |done].
      eapply Forall_impl; [exact Hok|]. by intros ? [? _].
  - (* activities *)
    eapply spec_bind; [|intros ids].
    { eapply spec_exn; [apply existing_or_exit_spec|].
      intros e c (_ & _ & Hids & _). no_dep "contacts". }
    apply (spec_pure _ _ _ _ (ids ≠ [])); [by intros c (_ & ? & _)|intros Hne].
    eapply spec_bind; [|intros []].
    { eapply spec_exn; [eapply spec_pre; [apply (generate_activities_spec ids count c0)|by intros c (-> & _)]|].
      intros e c (_ & [[_ ?]|[_ ?]]) (_ & _ & ?); [done|lia]. }
    eapply spec_post; [apply spec_ret|].
    intros p' c [-> (rows & Hrows & Hlen & Htable)].
    split_and!; [|done|by exists rows].
    intros Hcount. split; [pools_kept|done].
  - (* notes *)
    eapply spec_bind; [|intros ids].
    { eapply spec_exn; [apply existing_or_exit_spec|].
      intros e c (_ & _ & Hids & _). no_dep "contacts". }
    apply (spec_pure _ _ _ _ (ids ≠ [])); [by intros c (_ & ? & _)|intros Hne].
    eapply spec_bind; [|intros []].
    { eapply spec_exn; [eapply spec_pre; [apply (generate_notes_spec ids count c0)|by intros c (-> & _)]|].
      intros e c (_ & [[_ ?]|[_ ?]]) (_ & _ & ?); [done|lia]. }
    eapply spec_post; [apply spec_ret|].
    intros p' c [-> (rows & Hrows & Hlen & Htable)].
    split_and!; [|done|by exists rows].
    intros Hcount. split; [pools_kept|done].
  - (* tasks *)
    eapply spec_bind; [|intros ids].
    { eapply spec_exn; [apply existing_or_exit_spec|].
      intros e c (_ & _ & Hids & _). no_dep "deals". }
    apply (spec_pure _ _ _ _ (ids ≠ [])); [by intros c (_ & ? & _)|intros Hne].
    eapply spec_bind; [|intros []].
    { eapply spec_exn; [eapply spec_pre; [apply (generate_tasks_spec ids count c0)|by intros c (-> & _)]|].
      intros e c (_ & [[_ ?]|[_ ?]]) (_ & _ & ?); [done|lia]. }
    eapply spec_post; [apply spec_ret|].
    intros p' c [-> (rows & Hrows & Hlen & Htable)].
    split_and!; [|done|by exists rows].
    intros Hcount. split; [pools_kept|done].
  - (* any other name *)
    eapply spec_post; [apply spec_ret|].
    intros p' c [-> ->]. split_and!; [|done|].
    { intros _. split; [done|]. unfold pool_filled.
      by repeat (rewrite bool_decide_eq_false_2 by done). }
    exists []. split_and!; [apply inserted_refl|done|].
    intros Hin. exfalso.
    repeat (apply elem_of_cons in Hin as [->|Hin]; [congruence|]).
    by apply elem_of_nil in Hin.
Qed.
End TurnFacts.

Module WalkFacts.
Import SpecRules GeneratorFacts DriverFacts DrawRules.

(** What [main] finds in [final_counts] for a table of the plan. *)
Lemma final_counts_lookup (f : string → Z) (plan : list string)
    (acc : list (string * Z)) (t : string) :
  dict_get t (foldl (λ fc table, dict_set table (f table) fc) acc plan)
  = if bool_decide (t ∈ plan) then Some (f t) else dict_get t acc.
Proof.
  revert acc. induction plan as [|x plan IH]; intros acc; [done|].
  simpl. rewrite IH. destruct (decide (t ∈ plan)) as [Hin|Hin].
  - rewrite !bool_decide_eq_true_2; [done|by right|done].
  - rewrite (bool_decide_eq_false_2 (t ∈ plan)) by done.
    destruct (decide (t = x)) as [->|Hne].
    + rewrite bool_decide_eq_true_2 by by left.
      apply ParserFacts.dict_get_set_eq.
    + rewrite bool_decide_eq_false_2.
      * by apply ParserFacts.dict_get_set_ne.
      * by intros [?|?]%elem_of_cons.
Qed.

Lemma default_count_positive (t : string) :
  (0 < default 100 (DEFAULT_COUNTS !! t))%Z.
Proof.
  destruct (DEFAULT_COUNTS !! t) as [n|] eqn:E; simpl; [|lia].
  apply elem_of_list_to_map_2 in E.
  repeat (apply elem_of_cons in E as [[= -> ->]|E]; [lia|]).
  by apply elem_of_nil in E.
Qed.

Lemma bare_count_positive (default_count : option Z) (t : string) :
  (∀ n, default_count = Some n → (0 ≤ n)%Z) →
  (0 < bare_count default_count t)%Z.
Proof.
  intros Hdc. unfold bare_count. destruct default_count as [n|].
  - case_bool_decide; [apply default_count_positive|].
    specialize (Hdc n eq_refl). lia.
  - apply default_count_positive.
Qed.

(** Where a selection of a list splits, the list splits. *)
Lemma filter_split {A} (P : A → Prop) `{!∀ x, Decision (P x)} (l done rest : list A)
    (x : A) :
  filter P l = done ++ x :: rest →
  ∃ pre post, l = pre ++ x :: post ∧ done = filter P pre ∧ rest = filter P post.
Proof.
  revert done. induction l as [|a l IH]; intros done Hsplit; [by destruct done|].
  destruct (decide (P a)) as [Ha|Ha].
  - rewrite filter_cons_True in Hsplit by done.
    destruct done as [|d done]; simpl in Hsplit.
    + injection Hsplit as -> <-. by exists [], l.
    + injection Hsplit as -> Hsplit.
      destruct (IH done Hsplit) as (pre & post & -> & -> & ->).
      exists (d :: pre), post. split_and!; [done| |done].
      by rewrite filter_cons_True.
  - rewrite filter_cons_False in Hsplit by done.
    destruct (IH done Hsplit) as (pre & post & -> & -> & ->).
    exists (a :: pre), post. split_and!; [done| |done].
    by rewrite filter_cons_False.
Qed.

(** In a plan made with dependencies included, every prerequisite of a
    table has had its turn before the table. *)
Lemma plan_deps_before (fuel : nat) (requested plan done rest : list string)
    (t dep : string) :
  resolve_dependencies fuel requested true = Some plan →
  plan = done ++ t :: rest → dep ∈ table_deps t → dep ∈ done.
Proof.
  intros Hplan Hsplit Hdep.
  destruct (PlanFacts.resolve_returned fuel requested plan Hplan)
    as (_ & c & Hc & -> & _).
  destruct (filter_split _ _ _ _ _ Hsplit) as (pre & post & Hall & -> & _).
  apply list_elem_of_filter. split.
  - apply Hc. eapply PlanFacts.in_closure_dep; [|exact Hdep].
    apply Hc. assert (t ∈ filter (.∈ c) ALL_TABLES) as Ht.
    { rewrite Hsplit. apply elem_of_app. right. by left. }
    by apply list_elem_of_filter in Ht as [? _].
  - by eapply table_deps_earlier.
Qed.

(** The walk over a plan in which prerequisites come first and every
    count is above zero raises nothing. *)
Lemma generate_tables_safe (fuel : nat) (plan : list string)
    (final_counts : list (string * Z)) (c0 : conn) :
  (∀ done t rest, plan = done ++ t :: rest →
                  ∀ dep, dep ∈ table_deps t → dep ∈ done) →
  (∀ t, t ∈ plan → ∃ n, dict_get t final_counts = Some n ∧ (0 < n)%Z) →
  spec (λ c, c = c0)
       (generate_tables fuel plan final_counts empty_pools)
       (λ _ _, True) (λ _ _, False).
Proof.
  intros Hbefore Hcounts. unfold generate_tables.
  set (I := λ (done : list string) (p : pools) (c : conn),
         (∀ t, t ∈ done → pool_filled t p) ∧ pool_prices_made p).
  eapply spec_conseq;
    [apply (spec_for_each_at _ _ I)| |done|intros e c H; exact H].
  - intros done t rest p Hsplit. apply spec_fix. intros c1 [Hfilled Hdec].
    destruct (Hcounts t) as (n & Hn & Hpos).
    { rewrite Hsplit. apply elem_of_app. right. by left. }
    eapply spec_bind; [apply spec_subscript|intros count].
    { intros Hnone. congruence. }
    apply (spec_pure _ _ _ _ (count = n)); [intros c [? _]; congruence|intros ->].
    eapply spec_conseq; [apply (TurnFacts.generate_table_pools fuel t n p c1)
                        |by intros c [_ ->]| |].
    + intros p' c (Hkeep & Hprices & _).
      destruct (Hkeep Hpos) as [Hkept Hown]. split.
      * intros t' [Ht'| ->%list_elem_of_singleton]%elem_of_app; [|done].
        by apply Hkept, Hfilled.
      * apply Hprices; [|done]. intros dep Hdep.
        by eapply Hfilled, Hbefore.
    + intros e c Hnot. apply Hnot. split_and!; [|done|done].
      intros dep Hdep. by eapply Hfilled, Hbefore.
  - intros c ->. split; [by intros t []%elem_of_nil|].
    intros k v Hk. simpl in Hk. by rewrite lookup_empty in Hk.
Qed.

(** The exceptions of a walk whose tables all have a count: the exit for
    a missing prerequisite, the statement refused for an empty batch, or
    arithmetic on a price that is no number or too large; whatever
    happens, nothing is committed. *)
Lemma generate_tables_errors (fuel : nat) (plan : list string)
    (final_counts : list (string * Z)) (p0 : pools) (c0 : conn) :
  (∀ t, t ∈ plan → is_Some (dict_get t final_counts)) →
  spec (λ c, c = c0)
       (generate_tables fuel plan final_counts p0)
       (λ _ c, ∃ rows, inserted c0 c rows)
       (λ e c, (∃ rows, inserted c0 c rows)
               ∧ ((∃ dep, e = missing_prerequisite dep) ∨ e = StatementError
                  ∨ e = TypeError ∨ e = Overflow ∨ e = InvalidOperation)).
Proof.
  intros Hcounts. unfold generate_tables.
  set (I := λ (done : list string) (p : pools) (c : conn),
         ∃ rows, inserted c0 c rows).
  eapply spec_conseq;
    [apply (spec_for_each_at _ _ I)| |done|intros e c H; exact H].
  - intros done t rest p Hsplit. apply spec_fix. intros c1 (rows & Hrows).
    destruct (Hcounts t) as (n & Hn).
    { rewrite Hsplit. apply elem_of_app. right. by left. }
    eapply spec_bind; [apply spec_subscript|intros count].
    { intros Hnone. congruence. }
    eapply spec_conseq; [apply (generate_table_spec fuel t count p c1)
                        |by intros c [_ ->]| |].
    + intros p' c (rows' & Hrows' & _). exists (rows ++ rows').
      by eapply inserted_trans.
    + intros e c (-> & [(dep & _ & -> & _)|[(-> & _)|(He & _)]]).
      * split; [by exists rows|]. left. by exists dep.
      * split; [by exists rows|]. right. by left.
      * split; [by exists rows|]. right. by right.
  - intros c ->. exists []. apply inserted_refl.
Qed.

(** What a walk over a plan without repetition inserts, table by table. *)
Lemma generate_tables_counts (fuel : nat) (plan : list string)
    (final_counts : list (string * Z)) (p0 : pools) (c0 : conn) :
  NoDup plan →
  spec (λ c, c = c0)
       (generate_tables fuel plan final_counts p0)
       (λ _ c, ∃ rows,
          inserted c0 c rows
          ∧ Forall (λ entry, entry.1 ∈ plan) rows
          ∧ ∀ t count, t ∈ plan → t ∈ ALL_TABLES →
                       dict_get t final_counts = Some count →
                       length (filter (λ entry, entry.1 = t) rows) = Z.to_nat count)
       (λ _ _, True).
Proof.
  intros Hnd. unfold generate_tables.
  set (I := λ (done : list string) (p : pools) (c : conn),
         ∃ rows,
           inserted c0 c rows
           ∧ Forall (λ entry, entry.1 ∈ done) rows
           ∧ ∀ t count, t ∈ done → t ∈ ALL_TABLES →
                        dict_get t final_counts = Some count →
                        length (filter (λ entry, entry.1 = t) rows)
                        = Z.to_nat count).
  eapply spec_pre; [apply (spec_for_each_at _ _ I)|].
  - intros done t rest p Hsplit. apply spec_fix.
    intros c1 (rows & Hrows & Hdone & Hlen).
    assert (t ∉ done) as Hfresh.
    { rewrite Hsplit in Hnd. apply NoDup_app in Hnd as (_ & Hdisj & _).
      intros Hin. apply (Hdisj t Hin). by left. }
    eapply spec_bind; [apply spec_subscript; done|intros count].
    apply (spec_pure _ _ _ _ (dict_get t final_counts = Some count));
      [by intros c [? _]|intros Hcount].
    eapply spec_conseq; [apply (TurnFacts.generate_table_pools fuel t count p c1)
                        |by intros c [_ ->]| |done].
    intros p' c (_ & _ & rows' & Hrows' & Htable & Hlen').
    exists (rows ++ rows'). split_and!.
    + by eapply inserted_trans.
    + apply Forall_app. split.
      * eapply Forall_impl; [exact Hdone|]. intros entry ?.
        apply elem_of_app. by left.
      * eapply Forall_impl; [exact Htable|]. intros entry ->.
        apply elem_of_app. right. by left.
    + intros t' count' Ht' Hknown Hcount'. rewrite filter_app, length_app.
      apply elem_of_app in Ht' as [Ht'| ->%list_elem_of_singleton].
      * rewrite (Hlen t' count' Ht' Hknown Hcount').
        rewrite (filter_none _ rows'); [simpl; lia|].
        intros entry Hentry Heq. eapply Forall_forall in Htable; [|done].
        simpl in *. congruence.
      * rewrite (filter_none _ rows), (filter_all _ rows'); [|done|].
        -- simpl. rewrite Hlen' by done. congruence.
        -- intros entry Hentry Heq. eapply Forall_forall in Hdone; [|done].
           simpl in *. congruence.
  - intros c ->. exists []. split_and!; [apply inserted_refl|done|].
    by intros t count []%elem_of_nil.
Qed.
End WalkFacts.

Module MainFacts.
Import DriverFacts.

Lemma parsed_keys (tables_arg : string) (default_count : option Z)
    (table_counts : list (string * Z)) :
  parse_table_spec tables_arg default_count = Ret table_counts →
  NoDup (dict_keys table_counts)
  ∧ ∀ t, t ∈ dict_keys table_counts → t ∈ ALL_TABLES.
Proof.
  intros Hparse. split.
  - eapply ParserFacts.parse_entries_keys_nodup; [exact Hparse|apply NoDup_nil_2].
  - intros t. unfold parse_table_spec in Hparse.
    rewrite (MappingFacts.parse_entries_keys _ _ _ _ Hparse). simpl.
    rewrite MappingFacts.first_mentions, elem_of_reverse, elem_of_remove_dups,
      elem_of_reverse.
    intros (tok & -> & Htok)%list_elem_of_fmap. by eapply parse_entries_known.
Qed.

(** The plan [main] walks: made of schema tables, none twice. *)
Lemma plan_known (fuel : nat) (tables_arg : string) (default_count : option Z)
    (table_counts : list (string * Z)) (include_deps : bool) (plan : list string) :
  parse_table_spec tables_arg default_count = Ret table_counts →
  resolve_dependencies fuel (dict_keys table_counts) include_deps = Some plan →
  NoDup plan ∧ ∀ t, t ∈ plan → t ∈ ALL_TABLES.
Proof.
  intros Hparse Hplan. destruct (parsed_keys _ _ _ Hparse) as [Hnd Hknown].
  split; [by eapply ResolverFacts.resolve_nodup|].
  destruct include_deps.
  - destruct (PlanFacts.resolve_returned _ _ _ Hplan) as (_ & c & _ & -> & _).
    by intros t [_ ?]%list_elem_of_filter.
  - unfold resolve_dependencies, Resolver.resolve in Hplan. simpl in Hplan.
    by injection Hplan as <-.
Qed.

Lemma parse_entry_raises (default_count : option Z) (spec : string) (e : exn) :
  parse_entry default_count spec = Raise e → ∃ literal, e = ValueError literal.
Proof.
  unfold parse_entry. destruct (contains ":" spec); [|done].
  destruct (split_once ":" spec) as [[a b]|]; [|intros [= <-]; eauto].
  destruct (int_of_string (strip b)); [done|]. intros [= <-]. eauto.
Qed.

(** The parser fails with the unknown-table exit or with [ValueError]. *)
Lemma parse_raises (default_count : option Z) (l : list string) acc (e : exn) :
  parse_entries default_count l acc = Raise e →
  (∃ table, e = unknown_table table) ∨ ∃ literal, e = ValueError literal.
Proof.
  revert acc. induction l as [|spec l IH]; intros acc; simpl; [done|].
  destruct (parse_entry default_count spec) as [[t n]|e'|] eqn:E; [| |done].
  - case_bool_decide; [apply IH|]. intros [= <-]. left. by exists t.
  - intros [= <-]. right. by eapply parse_entry_raises.
Qed.

Lemma main_runs_plan (fuel : nat) (a : args) (table_counts : list (string * Z))
    (plan : list string) (w : world) :
  list_tables a = false →
  parse_table_spec (tables a) (count a) = Ret table_counts →
  resolve_dependencies fuel (dict_keys table_counts) (negb (no_deps a)) = Some plan →
  main fuel a w
  = generate_and_commit fuel plan
      (foldl (λ fc table,
                dict_set table (final_count table_counts (count a) table) fc)
             [] plan) w.
Proof.
  intros Hlist Hparse Hplan. unfold main. rewrite Hlist.
  unfold mbind at 1, M_bind at 1, lift. rewrite Hparse.
  unfold mbind at 1, M_bind at 1. by rewrite Hplan.
Qed.

Lemma generate_and_commit_cases (fuel : nat) (plan : list string)
    (final_counts : list (string * Z)) (w : world) :
  generate_and_commit fuel plan final_counts w
  = match generate_tables fuel plan final_counts empty_pools (connect w).2 with
    | (Ret _, w1) => (Ret (), close (commit w1).2)
    | (Raise e, w1) => (Raise e, close w1)
    | (OutOfFuel, w1) => (OutOfFuel, close w1)
    end.
Proof.
  unfold generate_and_commit, with_connection.
  unfold mbind at 1, M_bind at 1. simpl.
  unfold mbind, M_bind.
  by destruct (generate_tables fuel plan final_counts empty_pools _)
    as [[p|e|] w1].
Qed.

Lemma final_counts_known (table_counts : list (string * Z)) (default_count : option Z)
    (plan : list string) (t : string) :
  t ∈ plan →
  dict_get t
    (foldl (λ fc table,
              dict_set table (final_count table_counts default_count table) fc)
           [] plan)
  = Some (final_count table_counts default_count t).
Proof.
  intros Ht. rewrite WalkFacts.final_counts_lookup.
  by rewrite bool_decide_eq_true_2.
Qed.

(** The ways through [main]. *)
Lemma main_cases (fuel : nat) (a : args) (w : world) :
  main fuel a w = (Raise (SystemExit 0 []), w)
  ∨ (∃ e, ((∃ table, e = unknown_table table) ∨ ∃ literal, e = ValueError literal)
          ∧ main fuel a w = (Raise e, w))
  ∨ main fuel a w = (OutOfFuel, w)
  ∨ ∃ table_counts plan,
      parse_table_spec (tables a) (count a) = Ret table_counts
      ∧ resolve_dependencies fuel (dict_keys table_counts) (negb (no_deps a))
        = Some plan
      ∧ main fuel a w
        = generate_and_commit fuel plan
            (foldl (λ fc table,
                      dict_set table (final_count table_counts (count a) table) fc)
                   [] plan) w.
Proof.
  destruct (list_tables a) eqn:Hlist.
  { left. unfold main. by rewrite Hlist. }
  right.
  destruct (parse_table_spec (tables a) (count a)) as [table_counts|e|] eqn:Hparse.
  - right.
    destruct (resolve_dependencies fuel (dict_keys table_counts) (negb (no_deps a)))
      as [plan|] eqn:Hplan.
    + right. exists table_counts, plan. split_and!; [done..|].
      by apply main_runs_plan.
    + left. unfold main. rewrite Hlist.
      unfold mbind at 1, M_bind at 1, lift. rewrite Hparse.
      unfold mbind at 1, M_bind at 1. by rewrite Hplan.
  - left. exists e. split; [by eapply parse_raises|].
    by apply ParserFacts.main_parse_error.
  - right. left. unfold main. rewrite Hlist.
    unfold mbind at 1, M_bind at 1, lift. by rewrite Hparse.
Qed.
End MainFacts.

(** X18. A run with dependencies included and counts above zero raises
    nothing once its argument has parsed: every prerequisite of a table is
    generated earlier in the same run, so no pool is empty when it is
    drawn from, no fallback to the store is needed, no batch is empty, and
    the prices are the decimals the run itself made, from 99.00 to
    99999.99.  (The run may still loop: see the SKU and pair bounds.) *)
Theorem run_with_dependencies_raises_nothing
    (fuel : nat) (a : args) (table_counts : list (string * Z)) (w : world) :
  list_tables a = false →
  no_deps a = false →
  parse_table_spec (tables a) (count a) = Ret table_counts →
  Forall (λ entry, (0 < entry.2)%Z) table_counts →
  (∀ n, count a = Some n → (0 ≤ n)%Z) →
  ¬ ∃ e w', main fuel a w = (Raise e, w').
Proof.
  intros Hlist Hdeps Hparse Hpos Hdefault (e & w' & Hrun).
  destruct (resolve_dependencies fuel (dict_keys table_counts) (negb (no_deps a)))
    as [plan|] eqn:Hplan.
  - rewrite (MainFacts.main_runs_plan fuel a table_counts plan w Hlist Hparse Hplan),
      MainFacts.generate_and_commit_cases in Hrun.
    rewrite Hdeps in Hplan. simpl in Hplan.
    pose proof (WalkFacts.generate_tables_safe fuel plan
                  (foldl (λ fc table,
                            dict_set table
                              (final_count table_counts (count a) table) fc)
                         [] plan) (db (connect w).2)) as Hsafe.
    specialize (Hsafe (λ done t rest Hsplit dep Hdep,
                         WalkFacts.plan_deps_before fuel _ plan done rest t dep
                           Hplan Hsplit Hdep)).
    assert (∀ t, t ∈ plan →
                 ∃ n, dict_get t
                        (foldl (λ fc table,
                                  dict_set table
                                    (final_count table_counts (count a) table) fc)
                               [] plan) = Some n ∧ (0 < n)%Z) as Hcounts.
    { intros t Ht. exists (final_count table_counts (count a) t).
      split; [by apply MainFacts.final_counts_known|].
      unfold final_count.
      destruct (dict_get t table_counts) as [n|] eqn:E.
      - apply dict_get_elem_of in E. eapply Forall_forall in Hpos; [|done]. done.
      - by apply WalkFacts.bare_count_positive. }
    specialize (Hsafe Hcounts).
    destruct (generate_tables fuel plan _ empty_pools (connect w).2)
      as [[p|e'|] w1] eqn:Hwalk; [done| |done].
    apply (spec_run_raise _ _ _ _ _ _ Hsafe Hwalk).
  - unfold main in Hrun. rewrite Hlist in Hrun.
    unfold mbind at 1, M_bind at 1, lift in Hrun. rewrite Hparse in Hrun.
    unfold mbind at 1, M_bind at 1 in Hrun. by rewrite Hplan in Hrun.
Qed.

Lemma run_with_dependencies_raises_nothing_witness :
  ¬ ∃ e w', main 9 (Args "deal_products:4, notes" (Some 0%Z) false false) demo_world
            = (Raise e, w').
Proof.
  apply (run_with_dependencies_raises_nothing 9
           (Args "deal_products:4, notes" (Some 0%Z) false false)
           [("deal_products", 4%Z); ("notes", 300%Z)] demo_world).
  - done.
  - done.
  - vm_compute. reflexivity.
  - repeat constructor.
  - intros n [= <-]. done.
Defined.

(** X19. When the walk of a run returns, it has inserted for each table of the
    plan exactly the count that [main] settled for it, none for a count
    below one: the count given in the argument for a requested table, and
    for a table included as a dependency the [--count] value when that is
    given and not zero, else the table's default.  It has inserted
    nothing into any other table. *)
Theorem walk_inserts_the_final_counts
    (fuel : nat) (tables_arg : string) (default_count : option Z)
    (include_deps : bool) (table_counts : list (string * Z)) (plan : list string)
    (w w' : world) (p : pools) :
  parse_table_spec tables_arg default_count = Ret table_counts →
  resolve_dependencies fuel (dict_keys table_counts) include_deps = Some plan →
  generate_tables fuel plan
    (foldl (λ fc table,
              dict_set table (final_count table_counts default_count table) fc)
           [] plan)
    empty_pools w = (Ret p, w') →
  ∃ rows,
    inserted (db w) (db w') rows
    ∧ Forall (λ entry, entry.1 ∈ plan) rows
    ∧ ∀ t, t ∈ plan →
           length (filter (λ entry, entry.1 = t) rows)
           = Z.to_nat match dict_get t table_counts with
                      | Some n => n
                      | None => bare_count default_count t
                      end.
Proof.
  intros Hparse Hplan Hwalk.
  destruct (MainFacts.plan_known _ _ _ _ _ _ Hparse Hplan) as [Hnd Hknown].
  destruct (spec_run _ _ _ _ _ _
              (WalkFacts.generate_tables_counts fuel plan _ empty_pools (db w) Hnd)
              Hwalk) as (rows & Hrows & Hin & Hlen).
  exists rows. split_and!; [done|done|]. intros t Ht.
  apply (Hlen t _ Ht (Hknown t Ht)).
  by apply MainFacts.final_counts_known.
Qed.

Lemma walk_inserts_the_final_counts_witness :
  ∃ rows,
    inserted (db demo_world)
      (db (generate_tables 9 ["companies"; "contacts"]
             [("companies", 3%Z); ("contacts", 2%Z)] empty_pools demo_world).2)
      rows
    ∧ Forall (λ entry, entry.1 ∈ ["companies"; "contacts"]) rows
    ∧ ∀ t, t ∈ ["companies"; "contacts"] →
           length (filter (λ entry, entry.1 = t) rows)
           = Z.to_nat match dict_get t [("contacts", 2%Z)] with
                      | Some n => n
                      | None => bare_count (Some 3%Z) t
                      end.
Proof.
  apply (walk_inserts_the_final_counts 9 "contacts:2" (Some 3%Z) true
           [("contacts", 2%Z)] ["companies"; "contacts"] demo_world
           (generate_tables 9 ["companies"; "contacts"]
              [("companies", 3%Z); ("contacts", 2%Z)] empty_pools demo_world).2
           (match (generate_tables 9 ["companies"; "contacts"]
                     [("companies", 3%Z); ("contacts", 2%Z)] empty_pools
                     demo_world).1 with
            | Ret p => p | _ => empty_pools end));
    vm_compute; reflexivity.
Defined.

(** X20. A run commits all or nothing.  If [main] raises, the store is as it
    was (nothing persisted, no commit), and the exception is an exit
    ([--list-tables], an unknown table, a missing prerequisite), a
    [ValueError] from a count that [int()] refuses, a [StatementError]
    from the empty batch of a count below one, or a [TypeError], an
    [Overflow] or an [InvalidOperation] from a stored price that is no
    number or too large: never [IndexError] (no generator is called on an
    empty pool) and never [KeyError] (every table of the plan has a
    count).  If [main] returns, it has committed exactly once, left nothing
    pending and closed the connection. *)
Theorem main_commits_all_or_nothing (fuel : nat) (a : args) (w w' : world) :
  (∀ e, main fuel a w = (Raise e, w') →
        persisted (db w') = persisted (db w)
        ∧ commits (db w') = commits (db w)
        ∧ ((∃ code printed, e = SystemExit code printed)
           ∨ (∃ literal, e = ValueError literal)
           ∨ e = StatementError
           ∨ e = TypeError
           ∨ e = Overflow
           ∨ e = InvalidOperation))
  ∧ (main fuel a w = (Ret (), w') →
     commits (db w') = S (commits (db w))
     ∧ pending (db w') = []
     ∧ opened (db w') = false).
Proof.
  destruct (MainFacts.main_cases fuel a w)
    as [->|[(e0 & Hkind & ->)|[->|(table_counts & plan & Hparse & Hplan & ->)]]].
  - split; [|done]. intros e [= <- <-]. split_and!; [done..|]. left. eauto.
  - split; [|done]. intros e [= <- <-]. split_and!; [done..|].
    destruct Hkind as [[t ->]|[l ->]].
    + left. unfold unknown_table. eauto.
    + right. left. eauto.
  - done.
  - rewrite MainFacts.generate_and_commit_cases.
    pose proof (WalkFacts.generate_tables_errors fuel plan
                  (foldl (λ fc table,
                            dict_set table
                              (final_count table_counts (count a) table) fc)
                         [] plan) empty_pools (db (connect w).2)) as Herr.
    assert (∀ t, t ∈ plan →
                 is_Some (dict_get t
                            (foldl (λ fc table,
                                      dict_set table
                                        (final_count table_counts (count a) table) fc)
                                   [] plan))) as Hcounts.
    { intros t Ht. rewrite MainFacts.final_counts_known by done. eauto. }
    specialize (Herr Hcounts).
    destruct (generate_tables fuel plan _ empty_pools (connect w).2)
      as [[p|e1|] w1] eqn:Hwalk.
    + split; [done|]. intros [= <-].
      destruct (spec_run _ _ _ _ _ _ Herr Hwalk) as (rows & _ & _ & Hc & _).
      simpl. by rewrite Hc.
    + split; [|done]. intros e [= <- <-].
      destruct (spec_run_raise _ _ _ _ _ _ Herr Hwalk)
        as ((rows & _ & Hp & Hc & _) & Hkind).
      simpl. split_and!; [done|done|].
      destruct Hkind as [[dep ->]|Hkind]; [|by right; right].
      left. unfold missing_prerequisite. eauto.
    + done.
Qed.

Lemma main_commits_all_or_nothing_witness :
  (persisted (db (main 9 (Args "tasks:2" None true false) demo_world).2)
   = persisted (db demo_world)
   ∧ commits (db (main 9 (Args "tasks:2" None true false) demo_world).2)
     = commits (db demo_world)
   ∧ ((∃ code printed, missing_prerequisite "deals" = SystemExit code printed)
      ∨ (∃ literal, missing_prerequisite "deals" = ValueError literal)
      ∨ missing_prerequisite "deals" = StatementError
      ∨ missing_prerequisite "deals" = TypeError
      ∨ missing_prerequisite "deals" = Overflow
      ∨ missing_prerequisite "deals" = InvalidOperation))
  ∧ commits (db (main 9 (Args "companies:2" None false false) demo_world).2)
    = S (commits (db demo_world))
  ∧ pending (db (main 9 (Args "companies:2" None false false) demo_world).2) = []
  ∧ opened (db (main 9 (Args "companies:2" None false false) demo_world).2) = false.
Proof.
  split.
  - apply (proj1 (main_commits_all_or_nothing 9 (Args "tasks:2" None true false)
                    demo_world
                    (main 9 (Args "tasks:2" None true false) demo_world).2)
             (missing_prerequisite "deals")).
    vm_compute. reflexivity.
  - apply (proj2 (main_commits_all_or_nothing 9
                    (Args "companies:2" None false false) demo_world
                    (main 9 (Args "companies:2" None false false) demo_world).2)).
    vm_compute. reflexivity.
Defined.

(** X21. [--count 0] is no count at all: in the parser and in the counts of
    the tables included as dependencies a zero default is passed over for
    the table's own default, so the run is the run without [--count]. *)
Theorem count_zero_is_no_count
    (fuel : nat) (tables_arg : string) (skip_deps only_list : bool) (w : world) :
  parse_table_spec tables_arg (Some 0%Z) = parse_table_spec tables_arg None
  ∧ main fuel (Args tables_arg (Some 0%Z) skip_deps only_list) w
    = main fuel (Args tables_arg None skip_deps only_list) w.
Proof.
  assert (∀ spec, parse_entry (Some 0%Z) spec = parse_entry None spec) as Hentry.
  { intros spec. unfold parse_entry. by destruct (contains ":" spec). }
  assert (∀ l acc, parse_entries (Some 0%Z) l acc = parse_entries None l acc)
    as Hentries.
  { induction l as [|spec l IH]; intros acc; [done|]. simpl.
    rewrite Hentry. destruct (parse_entry None spec) as [[t n]| |]; [|done..].
    case_bool_decide; [apply IH|done]. }
  assert (parse_table_spec tables_arg (Some 0%Z) = parse_table_spec tables_arg None)
    as Hparse by apply Hentries.
  split; [done|]. unfold main. simpl. by rewrite Hparse.
Qed.
